(** * Terrain geometry engine: contours, meshes, solids and binary STL.

    A shallow embedding of the TypeScript sources
    [contourGenerator.ts], the grid mesh generator, the adaptive TIN
    generator, [stlExporter.ts] and the tile cutting of [page.tsx].
    JavaScript numbers are kept abstract behind the interface [JSNum];
    the program computes with its instance [float], IEEE binary64.  What
    depends on no property of the arithmetic is proved for every instance,
    binary64 included; what depends on the order or on the special values
    of the numbers is proved for binary64 itself, from the specification
    of Rocq's primitive floats.  A second instance, the exact extended
    rationals [XQ] (the same special values, no rounding, no overflow),
    serves where nothing is rounded. *)

From Stdlib Require Import ZArith QArith Qabs Lia Lqa Bool List Ascii String.
From Stdlib Require Import Strings.Byte.
From Stdlib Require Import Floats.PrimFloat Floats.FloatOps Floats.SpecFloat.
From Stdlib Require Import Floats.FloatAxioms.
From stdpp Require Import base option list.

Local Open Scope Z_scope.

(** ** JavaScript numbers *)

Class JSNum (F : Type) : Type := {
  of_Z : Z -> F;
  nan : F;
  infinity : F;
  neg_infinity : F;
  add : F -> F -> F;
  sub : F -> F -> F;
  mul : F -> F -> F;
  div : F -> F -> F;
  neg : F -> F;
  Math_abs : F -> F;
  Math_min : F -> F -> F;
  Math_max : F -> F -> F;
  lt : F -> F -> bool;
  le : F -> F -> bool;
  truthy : F -> bool;
  isFinite : F -> bool;
  (** what a [Float32Array] keeps of a number stored in it *)
  Math_fround : F -> F;
}.

Declare Scope js_scope.
Delimit Scope js_scope with js.
Infix "+" := add : js_scope.
Infix "-" := sub : js_scope.
Infix "*" := mul : js_scope.
Infix "/" := div : js_scope.
Notation "- x" := (neg x) : js_scope.
Infix "<?" := lt : js_scope.
Infix "<=?" := le : js_scope.
Notation "x >? y" := (lt y x) (at level 70) : js_scope.
Notation "x >=? y" := (le y x) (at level 70) : js_scope.

(** A decimal literal [n / d] of the source text: the quotient of two
    exactly representable integers, hence the nearest number. *)
Definition lit {F} `{JSNum F} (n : Z) (d : Z) : F := (of_Z n / of_Z d)%js.

(** [a || b] on numbers. *)
Definition or_else {F} `{JSNum F} (a b : F) : F := if truthy a then a else b.

(** *** IEEE binary64 *)

Module Binary64.

(** Integers of any size, rounded to the nearest binary64 number. *)
Definition b64_of_Z (z : Z) : float :=
  SF2Prim (binary_normalize prec emax z 0 false).

Definition is_neg_zero (x : float) : bool :=
  PrimFloat.eqb x PrimFloat.zero
  && PrimFloat.ltb (PrimFloat.div PrimFloat.one x) PrimFloat.zero.

Definition b64_min (a b : float) : float :=
  if PrimFloat.is_nan a || PrimFloat.is_nan b then PrimFloat.nan
  else if PrimFloat.ltb a b then a
  else if PrimFloat.ltb b a then b
  else if is_neg_zero a then a else b.

Definition b64_max (a b : float) : float :=
  if PrimFloat.is_nan a || PrimFloat.is_nan b then PrimFloat.nan
  else if PrimFloat.ltb a b then b
  else if PrimFloat.ltb b a then a
  else if is_neg_zero a then b else a.

Definition b64_truthy (x : float) : bool :=
  negb (PrimFloat.is_nan x || PrimFloat.eqb x PrimFloat.zero).

(** Rounding to binary32 (24 bits of precision, exponents below 128). *)
Definition to_binary32 (x : float) : spec_float :=
  match Prim2SF x with
  | S754_finite s m e => binary_round 24 128 s m e
  | sf => sf
  end.

Definition b64_fround (x : float) : float := SF2Prim (to_binary32 x).

(** The 32-bit pattern [DataView.setFloat32] stores.  A [NaN] has neither
    sign nor payload here: the quiet [NaN] [0x7fc00000] stands for whichever
    [NaN] pattern an engine writes (the language leaves it open). *)
Definition b64_float32_bits (x : float) : Z :=
  let sign (s : bool) := if s then 2 ^ 31 else 0 in
  match to_binary32 x with
  | S754_zero s => sign s
  | S754_infinity s => sign s + 255 * 2 ^ 23
  | S754_nan => 255 * 2 ^ 23 + 2 ^ 22
  | S754_finite s m e =>
      if Zpos m <? 2 ^ 23 then sign s + Zpos m
      else sign s + (e + 150) * 2 ^ 23 + (Zpos m - 2 ^ 23)
  end.

(** [Math.exp] at the arguments a kernel of radius 1 gives it, [-1],
    [-0.5] and [-0]: the binary64 numbers nearest to their exponentials. *)
Definition exp_radius1 (x : float) : float :=
  if PrimFloat.eqb x (-1)%float then 0x1.78b56362cef38p-2%float
  else if PrimFloat.eqb x (-0.5)%float then 0x1.368b2fc6f960ap-1%float
  else if PrimFloat.eqb x 0%float then 1%float
  else PrimFloat.nan.

#[global] Instance num : JSNum float := {|
  of_Z := b64_of_Z;
  nan := PrimFloat.nan;
  infinity := PrimFloat.infinity;
  neg_infinity := PrimFloat.neg_infinity;
  add := PrimFloat.add;
  sub := PrimFloat.sub;
  mul := PrimFloat.mul;
  div := PrimFloat.div;
  neg := PrimFloat.opp;
  Math_abs := PrimFloat.abs;
  Math_min := b64_min;
  Math_max := b64_max;
  lt := PrimFloat.ltb;
  le := PrimFloat.leb;
  truthy := b64_truthy;
  isFinite := PrimFloat.is_finite;
  Math_fround := b64_fround;
|}.

End Binary64.

(** *** Exact arithmetic: extended rationals

    No rounding and no overflow: [Math_fround] is the identity.  What holds
    here need not hold of the program, which computes in binary64. *)

Inductive XQ : Type :=
| Fin (q : Q)
| PInf
| NInf
| NaN.

Module Exact.

Definition Qltb (a b : Q) : bool := negb (Qle_bool b a).

Definition xq_neg (a : XQ) : XQ :=
  match a with
  | Fin q => Fin (- q)
  | PInf => NInf
  | NInf => PInf
  | NaN => NaN
  end.

Definition xq_add (a b : XQ) : XQ :=
  match a, b with
  | NaN, _ | _, NaN => NaN
  | Fin p, Fin q => Fin (p + q)
  | PInf, NInf | NInf, PInf => NaN
  | PInf, _ | _, PInf => PInf
  | NInf, _ | _, NInf => NInf
  end.

Definition xq_sub (a b : XQ) : XQ := xq_add a (xq_neg b).

(** The sign of a number: [Some true] when negative, [None] for zero. *)
Definition xq_sign (a : XQ) : option bool :=
  match a with
  | Fin q => if Qeq_bool q 0 then None else Some (Qltb q 0)
  | PInf => Some false
  | NInf => Some true
  | NaN => None
  end.

Definition signed_inf (s : bool) : XQ := if s then NInf else PInf.

Definition xq_mul (a b : XQ) : XQ :=
  match a, b with
  | NaN, _ | _, NaN => NaN
  | Fin p, Fin q => Fin (p * q)
  | _, _ =>
      match xq_sign a, xq_sign b with
      | Some s, Some t => signed_inf (xorb s t)
      | _, _ => NaN
      end
  end.

Definition xq_div (a b : XQ) : XQ :=
  match a, b with
  | NaN, _ | _, NaN => NaN
  | Fin p, Fin q =>
      if Qeq_bool q 0 then
        match xq_sign a with
        | Some s => signed_inf s
        | None => NaN
        end
      else Fin (p / q)
  | Fin _, _ => Fin 0
  | _, Fin q => signed_inf (xorb (if a is NInf then true else false) (Qltb q 0))
  | _, _ => NaN
  end.

Definition xq_abs (a : XQ) : XQ :=
  match a with
  | Fin q => Fin (Qabs q)
  | PInf | NInf => PInf
  | NaN => NaN
  end.

Definition xq_lt (a b : XQ) : bool :=
  match a, b with
  | NaN, _ | _, NaN => false
  | Fin p, Fin q => Qltb p q
  | NInf, NInf | PInf, _ | _, NInf => false
  | _, _ => true
  end.

Definition xq_le (a b : XQ) : bool :=
  match a, b with
  | NaN, _ | _, NaN => false
  | Fin p, Fin q => Qle_bool p q
  | NInf, _ | _, PInf => true
  | _, _ => false
  end.

Definition xq_min (a b : XQ) : XQ :=
  match a, b with
  | NaN, _ | _, NaN => NaN
  | _, _ => if xq_lt b a then b else a
  end.

Definition xq_max (a b : XQ) : XQ :=
  match a, b with
  | NaN, _ | _, NaN => NaN
  | _, _ => if xq_lt a b then b else a
  end.

Definition xq_truthy (a : XQ) : bool :=
  match a with
  | Fin q => negb (Qeq_bool q 0)
  | NaN => false
  | _ => true
  end.

Definition xq_isFinite (a : XQ) : bool := if a is Fin _ then true else false.

#[global] Instance num : JSNum XQ := {|
  of_Z := fun z => Fin (inject_Z z);
  nan := NaN;
  infinity := PInf;
  neg_infinity := NInf;
  add := xq_add;
  sub := xq_sub;
  mul := xq_mul;
  div := xq_div;
  neg := xq_neg;
  Math_abs := xq_abs;
  Math_min := xq_min;
  Math_max := xq_max;
  lt := xq_lt;
  le := xq_le;
  truthy := xq_truthy;
  isFinite := xq_isFinite;
  Math_fround := fun a => a;
|}.

End Exact.

(** ** Arrays and loops *)

(** [for (let i = lo; i < hi; i++)] *)
Definition range (lo hi : Z) : list Z :=
  map (fun k : nat => lo + Z.of_nat k) (seq 0 (Z.to_nat (hi - lo))).

(** [for (let i = lo; i < hi; i += step)], for [step >= 1]. *)
Definition range_step (lo hi step : Z) : list Z :=
  map (fun k : nat => lo + Z.of_nat k * step)
      (seq 0 (Z.to_nat ((hi - lo + step - 1) / step))).

(** [a[i]]: [None] is [undefined]. *)
Definition aget {A} (a : list A) (i : Z) : option A :=
  if i <? 0 then None else a !! Z.to_nat i.

(** An [undefined] used as a number is [NaN]. *)
Definition num {F} `{JSNum F} (o : option F) : F := default nan o.

(** [a[i] = v] on an [Array]: a write past the end extends the array; the
    holes so created read as [undefined], kept here as [nan]. *)
Definition aset {F} `{JSNum F} (a : list F) (i : Z) (v : F) : list F :=
  let n := Z.to_nat i in
  if i <? 0 then a
  else if (n <? length a)%nat then <[n := v]> a
  else a ++ replicate (n - length a) nan ++ [v].

(** [a[i] = v] on a typed array: a write out of range is ignored. *)
Definition tset {A} (a : list A) (i : Z) (v : A) : list A :=
  if i <? 0 then a else <[Z.to_nat i := v]> a.

(** [new Float32Array(n)] and its like: [RangeError] on a negative
    length.  A length no engine can allocate throws as well; the theorems
    keep the lengths below [2 ^ 32] where they claim a result. *)
Definition talloc {A} (zero : A) (n : Z) : option (list A) :=
  if n <? 0 then None else Some (replicate (Z.to_nat n) zero).

(** A loop whose body may throw. *)
Fixpoint foldM {A B} (f : A -> B -> option A) (a : A) (l : list B) : option A :=
  match l with
  | [] => Some a
  | b :: l' => a' ← f a b; foldM f a' l'
  end.

(** ** Data model *)

Record ElevationData (F : Type) : Type := mkElevationData {
  elevations : list F;
  width : Z;
  height : Z;
  minElevation : F;
  maxElevation : F;
}.
Arguments mkElevationData {F}.
Arguments elevations {F}.
Arguments width {F}.
Arguments height {F}.
Arguments minElevation {F}.
Arguments maxElevation {F}.

(** [decimationFactor] counts source samples per vertex ("1 = full res,
    2 = half"): the type keeps it in this documented domain, the positive
    integers.  Other numbers, which the source would also take (zero makes
    the grid dimensions infinite, a fraction reads between the samples),
    are not modelled. *)
Record MeshOptions (F : Type) : Type := mkMeshOptions {
  smoothingPasses : option Z;
  smoothingRadius : option Z;
  verticalExaggeration : option F;
  meshSize : option F;
  decimationFactor : option positive;
  laplacianPasses : option Z;
}.
Arguments mkMeshOptions {F}.
Arguments smoothingPasses {F}.
Arguments smoothingRadius {F}.
Arguments verticalExaggeration {F}.
Arguments meshSize {F}.
Arguments decimationFactor {F}.
Arguments laplacianPasses {F}.

(** [positions] is a [Float32Array] of [x, y, z] triples, [indices] a
    [Uint32Array] of vertex index triples. *)
Record Mesh (F : Type) : Type := mkMesh {
  positions : list F;
  indices : list Z;
  normals : list F;
}.
Arguments mkMesh {F}.
Arguments positions {F}.
Arguments indices {F}.
Arguments normals {F}.

(** ** Gaussian smoothing of the heightfield ([smoothElevationData]) *)

Section Smoothing.
Context {F : Type} `{JSNum F}.
Variable Math_exp : F -> F.

Definition gaussianWeight (radius ky kx : Z) : F :=
  let sigma := (of_Z radius * lit 5 10 + lit 5 10)%js in
  Math_exp ((- of_Z (kx * kx + ky * ky)) / (of_Z 2 * sigma * sigma))%js.

Definition rawKernel (radius : Z) : list (list F) :=
  map (fun ky => map (fun kx => gaussianWeight radius ky kx)
                     (range (- radius) (radius + 1)))
      (range (- radius) (radius + 1)).

(** [kernelSum] is accumulated weight by weight, row after row. *)
Definition kernelSum (radius : Z) : F :=
  fold_left add (concat (rawKernel radius)) (of_Z 0).

(** Every entry of the [kernelSize x kernelSize] kernel is divided by
    [kernelSum]. *)
Definition buildKernel (radius : Z) : list (list F) :=
  map (map (fun w => (w / kernelSum radius)%js)) (rawKernel radius).

Definition kernelAt (kernel : list (list F)) (i j : Z) : F :=
  num (aget (default [] (aget kernel i)) j).

(** One kernel tap of the innermost loop: [acc] is [(sum, weightSum)]. *)
Definition tap (current : list F) (kernel : list (list F))
    (width height radius x y : Z) (acc : F * F) (ky kx : Z) : F * F :=
  let nx := x + kx in
  let ny := y + ky in
  if (0 <=? nx) && (nx <? width) && (0 <=? ny) && (ny <? height) then
    let weight := kernelAt kernel (ky + radius) (kx + radius) in
    ((fst acc + num (aget current (ny * width + nx)) * weight)%js,
     (snd acc + weight)%js)
  else acc.

Definition blurAt (current : list F) (kernel : list (list F))
    (width height radius x y : Z) : F :=
  let taps := range (- radius) (radius + 1) in
  let acc :=
    fold_left (fun acc ky =>
      fold_left (fun acc kx => tap current kernel width height radius x y acc ky kx)
                taps acc)
      taps (of_Z 0, of_Z 0) in
  (fst acc / snd acc)%js.

Definition blurPass (current next : list F) (kernel : list (list F))
    (width height radius : Z) : list F :=
  fold_left (fun next y =>
    fold_left (fun next x =>
      aset next (y * width + x) (blurAt current kernel width height radius x y))
      (range 0 width) next)
    (range 0 height) next.

(** The passes, with the two buffers swapped after each. *)
Fixpoint blurPasses (n : nat) (current next : list F) (kernel : list (list F))
    (width height radius : Z) : list F * list F :=
  match n with
  | O => (current, next)
  | S n' =>
      let next' := blurPass current next kernel width height radius in
      blurPasses n' next' current kernel width height radius
  end.

Definition smoothElevationData (data : ElevationData F)
    (passes radius : Z) : ElevationData F :=
  if passes =? 0 then data
  else
    let current := elevations data in
    let next := replicate (length (elevations data)) nan in
    let kernel := buildKernel radius in
    let current :=
      fst (blurPasses (Z.to_nat passes) current next kernel
             (width data) (height data) radius) in
    let newMin := fold_left Math_min current infinity in
    let newMax := fold_left Math_max current neg_infinity in
    mkElevationData current (width data) (height data) newMin newMax.

End Smoothing.

(** ** Regular grid mesh ([generateGridMesh], [calculateNormals],
       [applyLaplacianSmoothing], [generateTerrainMesh]) *)

(** [Math.ceil(a / d)] *)
Definition ceil_div (a : Z) (d : positive) : Z := - ((- a) / Zpos d).

(** What a [Uint32Array] keeps of an integer stored in it. *)
Definition to_uint32 (z : Z) : Z := z mod 2 ^ 32.

Section GridMesh.
Context {F : Type} `{JSNum F}.
Variable Math_sqrt : F -> F.

(** [positions[i * 3 + k]] where the index [i] itself may be [undefined]. *)
Definition coord (positions : list F) (i : option Z) (k : Z) : F :=
  num (i ≫= fun i => aget positions (i * 3 + k)).

(** [normals[idx * 3 + k] += v] *)
Definition accumulate (normals : list F) (idx : option Z) (k : Z) (v : F) : list F :=
  match idx with
  | Some i => tset normals (i * 3 + k) (Math_fround (coord normals idx k + v)%js)
  | None => normals
  end.

(** [counts[idx]++] *)
Definition increment (counts : list Z) (idx : option Z) : list Z :=
  match idx with
  | Some i =>
      match aget counts i with
      | Some c => tset counts i (to_uint32 (c + 1))
      | None => counts
      end
  | None => counts
  end.

Definition accumulateFace (positions : list F) (indices : list Z)
    (st : list F * list Z) (i : Z) : list F * list Z :=
  let i0 := aget indices i in
  let i1 := aget indices (i + 1) in
  let i2 := aget indices (i + 2) in
  let ax := coord positions i0 0 in
  let ay := coord positions i0 1 in
  let az := coord positions i0 2 in
  let bx := coord positions i1 0 in
  let by_ := coord positions i1 1 in
  let bz := coord positions i1 2 in
  let cx := coord positions i2 0 in
  let cy := coord positions i2 1 in
  let cz := coord positions i2 2 in
  let e1x := (bx - ax)%js in
  let e1y := (by_ - ay)%js in
  let e1z := (bz - az)%js in
  let e2x := (cx - ax)%js in
  let e2y := (cy - ay)%js in
  let e2z := (cz - az)%js in
  let nx := (e1y * e2z - e1z * e2y)%js in
  let ny := (e1z * e2x - e1x * e2z)%js in
  let nz := (e1x * e2y - e1y * e2x)%js in
  fold_left (fun '(normals, counts) idx =>
      let normals := accumulate normals idx 0 nx in
      let normals := accumulate normals idx 1 ny in
      let normals := accumulate normals idx 2 nz in
      (normals, increment counts idx))
    [i0; i1; i2] st.

Definition normalizeVertex (counts : list Z) (normals : list F) (i : Z) : list F :=
  if bool_decide (0 < default 0 (aget counts i)) then
    let nx := coord normals (Some i) 0 in
    let ny := coord normals (Some i) 1 in
    let nz := coord normals (Some i) 2 in
    let len := Math_sqrt (nx * nx + ny * ny + nz * nz)%js in
    if (len >? of_Z 0)%js then
      let normals := tset normals (i * 3) (Math_fround (nx / len)%js) in
      let normals := tset normals (i * 3 + 1) (Math_fround (ny / len)%js) in
      tset normals (i * 3 + 2) (Math_fround (nz / len)%js)
    else normals
  else normals.

Definition calculateNormals (positions : list F) (indices : list Z)
    (vertexCount : Z) : option (list F) :=
  normals ← talloc (of_Z 0) (vertexCount * 3);
  counts ← talloc 0 vertexCount;
  let '(normals, counts) :=
    fold_left (accumulateFace positions indices)
      (range_step 0 (Z.of_nat (length indices)) 3) (normals, counts) in
  Some (fold_left (normalizeVertex counts) (range 0 vertexCount) normals).

Definition gridVertex (data : ElevationData F) (decimation : positive)
    (meshSize scaleFactor : F) (gridWidth gridHeight : Z)
    (positions : list F) (gy gx : Z) : list F :=
  let halfSize := (meshSize / of_Z 2)%js in
  let sx := Z.min (gx * Zpos decimation) (width data - 1) in
  let sy := Z.min (gy * Zpos decimation) (height data - 1) in
  let srcIdx := sy * width data + sx in
  let vertIdx := gy * gridWidth + gx in
  let elevation := default (minElevation data) (aget (elevations data) srcIdx) in
  let positions :=
    tset positions (vertIdx * 3)
      (Math_fround ((of_Z gx / of_Z (gridWidth - 1)) * meshSize - halfSize)%js) in
  let positions :=
    tset positions (vertIdx * 3 + 1)
      (Math_fround ((of_Z gy / of_Z (gridHeight - 1)) * meshSize - halfSize)%js) in
  tset positions (vertIdx * 3 + 2)
    (Math_fround ((elevation - minElevation data) * scaleFactor)%js).

(** The two triangles of the cell whose top-left vertex is [(gx, gy)];
    the state is [(indices, triIdx)]. *)
Definition gridCell (gridWidth : Z) (st : list Z * Z) (gy gx : Z) : list Z * Z :=
  let '(indices, triIdx) := st in
  let topLeft := gy * gridWidth + gx in
  let topRight := topLeft + 1 in
  let bottomLeft := (gy + 1) * gridWidth + gx in
  let bottomRight := bottomLeft + 1 in
  let indices := tset indices triIdx (to_uint32 topLeft) in
  let indices := tset indices (triIdx + 1) (to_uint32 bottomLeft) in
  let indices := tset indices (triIdx + 2) (to_uint32 topRight) in
  let indices := tset indices (triIdx + 3) (to_uint32 topRight) in
  let indices := tset indices (triIdx + 4) (to_uint32 bottomLeft) in
  let indices := tset indices (triIdx + 5) (to_uint32 bottomRight) in
  (indices, triIdx + 6).

Definition generateGridMesh (data : ElevationData F) (options : MeshOptions F)
    : option (Mesh F) :=
  let verticalExaggeration := default (lit 15 10) (verticalExaggeration options) in
  let meshSize := default (of_Z 10) (meshSize options) in
  let decimationFactor := default 1%positive (decimationFactor options) in
  let elevationRange :=
    or_else (maxElevation data - minElevation data)%js (of_Z 1) in
  let scaleFactor := ((of_Z 3 / elevationRange) * verticalExaggeration)%js in
  let gridWidth := ceil_div (width data) decimationFactor in
  let gridHeight := ceil_div (height data) decimationFactor in
  let vertexCount := gridWidth * gridHeight in
  let triangleCount := (gridWidth - 1) * (gridHeight - 1) * 2 in
  positions ← talloc (of_Z 0) (vertexCount * 3);
  indices ← talloc 0 (triangleCount * 3);
  let positions :=
    fold_left (fun positions gy =>
      fold_left (fun positions gx =>
        gridVertex data decimationFactor meshSize scaleFactor
                   gridWidth gridHeight positions gy gx)
        (range 0 gridWidth) positions)
      (range 0 gridHeight) positions in
  let indices :=
    fst (fold_left (fun st gy =>
           fold_left (fun st gx => gridCell gridWidth st gy gx)
             (range 0 (gridWidth - 1)) st)
         (range 0 (gridHeight - 1)) (indices, 0)) in
  normals ← calculateNormals positions indices vertexCount;
  Some (mkMesh positions indices normals).

(** One interior vertex of a Laplacian pass. *)
Definition relax (current : list F) (gridWidth : Z) (lambda : F)
    (next : list F) (gy gx : Z) : list F :=
  let idx := gy * gridWidth + gx in
  let left := num (aget current ((idx - 1) * 3 + 2)) in
  let right := num (aget current ((idx + 1) * 3 + 2)) in
  let top := num (aget current ((idx - gridWidth) * 3 + 2)) in
  let bottom := num (aget current ((idx + gridWidth) * 3 + 2)) in
  let center := num (aget current (idx * 3 + 2)) in
  let laplacian := ((left + right + top + bottom) / of_Z 4 - center)%js in
  tset next (idx * 3 + 2) (Math_fround (center + lambda * laplacian)%js).

(** [next.set(current)]: the buffers have the same length. *)
Definition laplacianPass (current : list F) (gridWidth gridHeight : Z)
    (lambda : F) : list F :=
  let next := current in
  fold_left (fun next gy =>
    fold_left (fun next gx => relax current gridWidth lambda next gy gx)
      (range 1 (gridWidth - 1)) next)
    (range 1 (gridHeight - 1)) next.

Definition applyLaplacianSmoothing (positions : list F) (indices : list Z)
    (gridWidth gridHeight passes : Z) (lambda : F) : list F :=
  if passes =? 0 then positions
  else
    Nat.iter (Z.to_nat passes)
      (fun current => laplacianPass current gridWidth gridHeight lambda)
      positions.

End GridMesh.

Section TerrainMesh.
Context {F : Type} `{JSNum F}.
Variable Math_sqrt : F -> F.
Variable Math_exp : F -> F.

Definition generateTerrainMesh (data : ElevationData F) (options : MeshOptions F)
    : option (Mesh F) :=
  let smoothingPasses := default 1 (smoothingPasses options) in
  let smoothingRadius := default 1 (smoothingRadius options) in
  let laplacianPasses := default 0 (laplacianPasses options) in
  let decimationFactor := default 1%positive (decimationFactor options) in
  let meshOptions :=
    mkMeshOptions None None (verticalExaggeration options) (meshSize options)
                  (Some decimationFactor) None in
  let smoothedData := smoothElevationData Math_exp data smoothingPasses smoothingRadius in
  mesh ← generateGridMesh Math_sqrt smoothedData meshOptions;
  if 0 <? laplacianPasses then
    let gridWidth := ceil_div (width data) decimationFactor in
    let gridHeight := ceil_div (height data) decimationFactor in
    let positions :=
      applyLaplacianSmoothing (positions mesh) (indices mesh)
        gridWidth gridHeight laplacianPasses (lit 5 10) in
    normals ← calculateNormals Math_sqrt positions (indices mesh) (gridWidth * gridHeight);
    Some (mkMesh positions (indices mesh) normals)
  else Some mesh.

End TerrainMesh.

(** ** Solid extrusion and binary STL ([stlExporter.ts]) *)

(** A [THREE.BufferGeometry]: the flat array behind its [position]
    attribute (item size 3) and the array behind its index, if it has one.
    [getX(i)], [getY(i)] and [getZ(i)] read [array[3 * i + 0 .. 2]]. *)
Record BufferGeometry (F : Type) : Type := mkGeometry {
  position : list F;
  index : option (list Z);
}.
Arguments mkGeometry {F}.
Arguments position {F}.
Arguments index {F}.

Record TerrainExportOptions (F : Type) : Type := mkExportOptions {
  tileSize : F;
  baseThickness : F;
  exportExaggeration : F;
  smoothingLevel : option Z;
}.
Arguments mkExportOptions {F}.
Arguments tileSize {F}.
Arguments baseThickness {F}.
Arguments exportExaggeration {F}.
Arguments smoothingLevel {F}.

(** The number of integers [i >= 0] with [i < n / d]: the trip count of a
    loop bounded by the (possibly fractional) quotient [n / d]. *)
Definition trips (n : nat) (d : Z) : Z := (Z.of_nat n + d - 1) / d.

(** The key [`${v1}-${v2}`] of an edge, smaller index first. *)
Definition EdgeKey : Type := option Z * option Z.

Definition edgeKey (v1 v2 : option Z) : EdgeKey :=
  match v1, v2 with
  | Some a, Some b => if a <? b then (v1, v2) else (v2, v1)
  | _, _ => (v2, v1)
  end.

Definition byte_of_Z (z : Z) : byte :=
  default Byte.x00 (Byte.of_N (Z.to_N (z mod 256))).

(** Little-endian bytes of the low [8 * n] bits of [z]. *)
Fixpoint le_bytes (n : nat) (z : Z) : list byte :=
  match n with
  | O => []
  | S n' => byte_of_Z z :: le_bytes n' (z / 256)
  end.

(** A [DataView] store of [bs] at [offset]: [RangeError] out of bounds. *)
Definition setBytes (buffer : list byte) (offset : Z) (bs : list byte)
    : option (list byte) :=
  if (0 <=? offset) && (offset + Z.of_nat (length bs) <=? Z.of_nat (length buffer)) then
    Some (take (Z.to_nat offset) buffer ++ bs
          ++ drop (Z.to_nat offset + length bs) buffer)
  else None.

Definition stlHeader : list byte :=
  list_byte_of_string "TerrainTiles STL Export".

Section Solid.
Context {F : Type} `{JSNum F}.
Variable Math_sqrt : F -> F.
(** The bit pattern of the binary32 number nearest to a number. *)
Variable float32_bits : F -> Z.

(** The [Map] of [getBoundaryEdges], in insertion order: a new key enters
    with its vertices and count 1, a known one has its count incremented. *)
Fixpoint countEdge (key : EdgeKey) (vertices : list F)
    (edgeCount : list (EdgeKey * (Z * list F))) : list (EdgeKey * (Z * list F)) :=
  match edgeCount with
  | [] => [(key, (1, vertices))]
  | (k, (count, vs)) :: rest =>
      if decide (k = key) then (k, (count + 1, vs)) :: rest
      else (k, (count, vs)) :: countEdge key vertices rest
  end.

Definition countTriangleEdges (positions : list F) (indices : list Z)
    (edgeCount : list (EdgeKey * (Z * list F))) (i : Z)
    : list (EdgeKey * (Z * list F)) :=
  let a := aget indices i in
  let b := aget indices (i + 1) in
  let c := aget indices (i + 2) in
  fold_left (fun edgeCount '(v1, v2) =>
      countEdge (edgeKey v1 v2)
        [coord positions v1 0; coord positions v1 1; coord positions v1 2;
         coord positions v2 0; coord positions v2 1; coord positions v2 2]
        edgeCount)
    [(a, b); (b, c); (c, a)] edgeCount.

Definition getBoundaryEdges (geometry : BufferGeometry F) : list (list F) :=
  match index geometry with
  | None => []
  | Some indices =>
      let edgeCount :=
        fold_left (countTriangleEdges (position geometry) indices)
          (range_step 0 (Z.of_nat (length indices)) 3) [] in
      map (fun e => snd (snd e))
          (filter (fun e => fst (snd e) = 1) edgeCount)
  end.

Definition topTriangle (positions : list F) (indices : list Z) (i : Z) : list F :=
  let a := aget indices i in
  let b := aget indices (i + 1) in
  let c := aget indices (i + 2) in
  [coord positions a 0; coord positions a 1; coord positions a 2;
   coord positions b 0; coord positions b 1; coord positions b 2;
   coord positions c 0; coord positions c 1; coord positions c 2].

Definition bottomTriangle (positions : list F) (indices : list Z)
    (baseLevel : F) (i : Z) : list F :=
  let a := aget indices i in
  let b := aget indices (i + 1) in
  let c := aget indices (i + 2) in
  [coord positions a 0; coord positions a 1; baseLevel;
   coord positions c 0; coord positions c 1; baseLevel;
   coord positions b 0; coord positions b 1; baseLevel].

Definition wallTriangles (baseLevel : F) (edge : list F) : list (list F) :=
  let g k := num (edge !! k) in
  let x1 := g 0%nat in
  let y1 := g 1%nat in
  let z1 := g 2%nat in
  let x2 := g 3%nat in
  let y2 := g 4%nat in
  let z2 := g 5%nat in
  [[x1; y1; z1; x2; y2; z2; x1; y1; baseLevel];
   [x2; y2; z2; x2; y2; baseLevel; x1; y1; baseLevel]].

(** The triangle list of [createSolidMesh]: top, bottom, then walls. *)
Definition solidTriangles (positions : list F) (indices : list Z)
    (baseThickness : F) : list (list F) :=
  let minZ :=
    fold_left (fun minZ i => Math_min minZ (num (aget positions (i * 3 + 2))))
      (range 0 (trips (length positions) 3)) infinity in
  let baseLevel := (minZ - baseThickness)%js in
  let starts := range_step 0 (Z.of_nat (length indices)) 3 in
  map (topTriangle positions indices) starts
  ++ map (bottomTriangle positions indices baseLevel) starts
  ++ concat (map (wallTriangles baseLevel)
                 (getBoundaryEdges (mkGeometry positions (Some indices)))).

(** The result carries the positions only: the normals that
    [computeVertexNormals] attaches are not read by the serializer.  The
    source collects the coordinates in an [Array] before it copies them
    into the [Float32Array]; an [Array] holds at most [2 ^ 32 - 1]
    elements, and the theorems about exports stay below that. *)
Definition createSolidMesh (topGeometry : BufferGeometry F) (baseThickness : F)
    : BufferGeometry F :=
  match index topGeometry with
  | None => topGeometry
  | Some indices =>
      let triangles := solidTriangles (position topGeometry) indices baseThickness in
      mkGeometry (map Math_fround (concat triangles)) None
  end.

(** [new THREE.Vector3(getX(i), getY(i), getZ(i))]: a missing component
    takes the constructor's default 0. *)
Definition vertexAt (positions : list F) (i : Z) : F * F * F :=
  let g k := default (of_Z 0) (aget positions (i * 3 + k)) in
  (g 0, g 1, g 2).

Definition subVectors (a b : F * F * F) : F * F * F :=
  let '(ax, ay, az) := a in
  let '(bx, by_, bz) := b in
  ((ax - bx)%js, (ay - by_)%js, (az - bz)%js).

Definition crossVectors (a b : F * F * F) : F * F * F :=
  let '(ax, ay, az) := a in
  let '(bx, by_, bz) := b in
  ((ay * bz - az * by_)%js, (az * bx - ax * bz)%js, (ax * by_ - ay * bx)%js).

(** [divideScalar(length() || 1)], a multiplication by the inverse. *)
Definition normalize (v : F * F * F) : F * F * F :=
  let '(x, y, z) := v in
  let length := Math_sqrt (x * x + y * y + z * z)%js in
  let s := (of_Z 1 / or_else length (of_Z 1))%js in
  ((x * s)%js, (y * s)%js, (z * s)%js).

Definition setFloat32 (buffer : list byte) (offset : Z) (v : F) : option (list byte) :=
  setBytes buffer offset (le_bytes 4 (float32_bits v)).

Definition setVector (buffer : list byte) (offset : Z) (v : F * F * F)
    : option (list byte * Z) :=
  let '(x, y, z) := v in
  buffer ← setFloat32 buffer offset x;
  buffer ← setFloat32 buffer (offset + 4) y;
  buffer ← setFloat32 buffer (offset + 8) z;
  Some (buffer, offset + 12).

(** One iteration of the triangle loop; the state is [(buffer, offset)]. *)
Definition writeTriangle (positions : list F) (st : list byte * Z) (i : Z)
    : option (list byte * Z) :=
  let '(buffer, offset) := st in
  let v0 := vertexAt positions (i * 3) in
  let v1 := vertexAt positions (i * 3 + 1) in
  let v2 := vertexAt positions (i * 3 + 2) in
  let edge1 := subVectors v1 v0 in
  let edge2 := subVectors v2 v0 in
  let normal := normalize (crossVectors edge1 edge2) in
  '(buffer, offset) ← setVector buffer offset normal;
  '(buffer, offset) ← setVector buffer offset v0;
  '(buffer, offset) ← setVector buffer offset v1;
  '(buffer, offset) ← setVector buffer offset v2;
  buffer ← setBytes buffer offset (le_bytes 2 0);
  Some (buffer, offset + 2).

Definition writeHeader (buffer : list byte) : option (list byte) :=
  foldM (fun buffer i => setBytes buffer i [default Byte.x00 (aget stlHeader i)])
         buffer (range 0 80).

(** [generateBinarySTL]: the bytes of the [Blob], or [None] when a
    [DataView] store throws.  [triangleCount = positions.count / 3] is the
    quotient [length / 9]: the buffer length and the stored count truncate
    it, the loop runs while [i] is below it. *)
Definition generateBinarySTL (geometry : BufferGeometry F) : option (list byte) :=
  let positions := position geometry in
  let n := length positions in
  let bufferLength := 80 + 4 + (Z.of_nat n * 50) / 9 in
  let buffer := replicate (Z.to_nat bufferLength) Byte.x00 in
  buffer ← writeHeader buffer;
  buffer ← setBytes buffer 80 (le_bytes 4 (to_uint32 (Z.of_nat n / 9)));
  st ← foldM (writeTriangle positions) (buffer, 84) (range 0 (trips n 9));
  Some (fst st).

(** [geometry.scale(s, s, s)]: three.js applies the scaling matrix to every
    vertex of the position attribute, [Vector3.applyMatrix4] computing each
    coordinate as a row of the matrix times [(x, y, z, 1)], divided by the
    last row's product. *)
Definition scaleVertex (s : F) (positions : list F) (i : Z) : list F :=
  let o := of_Z 0 in
  let x := num (aget positions (i * 3)) in
  let y := num (aget positions (i * 3 + 1)) in
  let z := num (aget positions (i * 3 + 2)) in
  let w := (of_Z 1 / (o * x + o * y + o * z + of_Z 1))%js in
  let positions :=
    tset positions (i * 3) (Math_fround ((s * x + o * y + o * z + o) * w)%js) in
  let positions :=
    tset positions (i * 3 + 1) (Math_fround ((o * x + s * y + o * z + o) * w)%js) in
  tset positions (i * 3 + 2) (Math_fround ((o * x + o * y + s * z + o) * w)%js).

Definition scaleGeometry (geometry : BufferGeometry F) (s : F) : BufferGeometry F :=
  let positions := position geometry in
  mkGeometry (fold_left (scaleVertex s) (range 0 (trips (length positions) 3)) positions)
             (index geometry).

End Solid.

Section TerrainExport.
Context {F : Type} `{JSNum F}.
Variable Math_sqrt : F -> F.
Variable Math_exp : F -> F.
Variable float32_bits : F -> Z.

(** The solid that [exportTerrainToSTL] builds. *)
Definition exportSolid (elevationData : ElevationData F)
    (options : TerrainExportOptions F) : option (BufferGeometry F) :=
  let smoothingLevel := default 1 (smoothingLevel options) in
  mesh ← generateTerrainMesh Math_sqrt Math_exp elevationData
           (mkMeshOptions (Some smoothingLevel) (Some 1)
              (Some (exportExaggeration options)) (Some (of_Z 10))
              (Some 1%positive)
              (Some (if 0 <? smoothingLevel then 1 else 0)));
  let geometry := mkGeometry (positions mesh) (Some (indices mesh)) in
  let scaleFactor := (tileSize options / of_Z 10)%js in
  let geometry := scaleGeometry geometry scaleFactor in
  Some (createSolidMesh geometry (baseThickness options)).

(** [exportTerrainToSTL], up to the bytes it hands to [downloadBlob]. *)
Definition exportTerrainToSTL (elevationData : ElevationData F)
    (options : TerrainExportOptions F) : option (list byte) :=
  solidGeometry ← exportSolid elevationData options;
  generateBinarySTL Math_sqrt float32_bits solidGeometry.

End TerrainExport.

(** The options of [exportToSTL]; [filename] only names the download. *)
Record ExportOptions (F : Type) : Type := mkGeometryExportOptions {
  geometryTileSize : F;
  geometryBaseThickness : F;
}.
Arguments mkGeometryExportOptions {F}.
Arguments geometryTileSize {F}.
Arguments geometryBaseThickness {F}.

Section GeometryExport.
Context {F : Type} `{JSNum F}.
Variable Math_sqrt : F -> F.
Variable float32_bits : F -> Z.

(** [exportToSTL], up to the bytes it hands to [downloadBlob]; the clone
    is the geometry itself, nothing here being updated in place. *)
Definition exportToSTL (geometry : BufferGeometry F) (options : ExportOptions F)
    : option (list byte) :=
  let exportGeometry := geometry in
  let scaleFactor := (geometryTileSize options / of_Z 10)%js in
  let exportGeometry := scaleGeometry exportGeometry scaleFactor in
  let solidGeometry := createSolidMesh exportGeometry (geometryBaseThickness options) in
  generateBinarySTL Math_sqrt float32_bits solidGeometry.

End GeometryExport.

(** ** Contour extraction ([contourGenerator.ts]) *)

Record ContourLayer (F : Type) : Type := mkContourLayer {
  elevation : F;
  paths : list (list (F * F));
}.
Arguments mkContourLayer {F}.
Arguments elevation {F}.
Arguments paths {F}.

(** Edge positions: 0 = bottom, 1 = right, 2 = top, 3 = left. *)
Definition MARCHING_SQUARES_EDGES (caseIndex : Z) : list (Z * Z) :=
  match caseIndex with
  | 0 => []
  | 1 => [(3, 0)]
  | 2 => [(0, 1)]
  | 3 => [(3, 1)]
  | 4 => [(1, 2)]
  | 5 => [(3, 0); (1, 2)]
  | 6 => [(0, 2)]
  | 7 => [(3, 2)]
  | 8 => [(2, 3)]
  | 9 => [(2, 0)]
  | 10 => [(0, 1); (2, 3)]
  | 11 => [(2, 1)]
  | 12 => [(1, 3)]
  | 13 => [(1, 0)]
  | 14 => [(0, 3)]
  | _ => []
  end.

(** The [Set] of used segment indices, in insertion order. *)
Definition set_add (used : list nat) (i : nat) : list nat :=
  if bool_decide (i ∈ used) then used else used ++ [i].

Section Contours.
Context {F : Type} `{JSNum F}.

Definition interpolate (v1 v2 threshold : F) : F :=
  if (Math_abs (v2 - v1) <? lit 1 10000)%js then lit 5 10
  else ((threshold - v1) / (v2 - v1))%js.

Definition getEdgePoint (edge : Z) (x y v0 v1 v2 v3 threshold : F) : F * F :=
  match edge with
  | 0 => ((x + interpolate v0 v1 threshold)%js, y)
  | 1 => ((x + of_Z 1)%js, (y + interpolate v1 v2 threshold)%js)
  | 2 => ((x + interpolate v3 v2 threshold)%js, (y + of_Z 1)%js)
  | 3 => (x, (y + interpolate v0 v3 threshold)%js)
  | _ => ((x + lit 5 10)%js, (y + lit 5 10)%js)
  end.

Definition caseIndexOf (v0 v1 v2 v3 threshold : F) : Z :=
  let c := 0 in
  let c := if (v0 >=? threshold)%js then Z.lor c 1 else c in
  let c := if (v1 >=? threshold)%js then Z.lor c 2 else c in
  let c := if (v2 >=? threshold)%js then Z.lor c 4 else c in
  if (v3 >=? threshold)%js then Z.lor c 8 else c.

(** The segments of the cell whose bottom-left corner is [(x, y)]. *)
Definition cellSegments (data : ElevationData F) (threshold : F) (y x : Z)
    : list ((F * F) * (F * F)) :=
  let at_ i := num (aget (elevations data) i) in
  let v0 := at_ (y * width data + x) in
  let v1 := at_ (y * width data + x + 1) in
  let v2 := at_ ((y + 1) * width data + x + 1) in
  let v3 := at_ ((y + 1) * width data + x) in
  map (fun '(e1, e2) =>
         (getEdgePoint e1 (of_Z x) (of_Z y) v0 v1 v2 v3 threshold,
          getEdgePoint e2 (of_Z x) (of_Z y) v0 v1 v2 v3 threshold))
      (MARCHING_SQUARES_EDGES (caseIndexOf v0 v1 v2 v3 threshold)).

Definition layerSegments (data : ElevationData F) (threshold : F)
    : list ((F * F) * (F * F)) :=
  concat (map (fun y =>
            concat (map (fun x => cellSegments data threshold y x)
                        (range 0 (width data - 1))))
          (range 0 (height data - 1))).

Definition pointsEqual (p1 p2 : F * F) : bool :=
  (Math_abs (fst p1 - fst p2) <? lit 1 1000)%js
  && (Math_abs (snd p1 - snd p2) <? lit 1 1000)%js.

(** [findConnecting], scanning the segments whose indices start at [i];
    [None] is the source's [-1]. *)
Fixpoint findFrom (i : nat) (segments : list ((F * F) * (F * F)))
    (used : list nat) (point : F * F) (excludeIndex : nat) : option nat :=
  match segments with
  | [] => None
  | seg :: rest =>
      if bool_decide (i ∈ used) || (i =? excludeIndex)%nat then
        findFrom (S i) rest used point excludeIndex
      else if pointsEqual (fst seg) point || pointsEqual (snd seg) point then Some i
      else findFrom (S i) rest used point excludeIndex
  end.

Definition findConnecting (segments : list ((F * F) * (F * F)))
    (used : list nat) (point : F * F) (excludeIndex : nat) : option nat :=
  findFrom 0 segments used point excludeIndex.

(** The state of a path under construction. *)
Record Walk : Type := mkWalk {
  used : list nat;
  path : list (F * F);
  currentPoint : F * F;
  currentIdx : nat;
}.

(** One of the two [while (true)] loops: [forward] pushes at the end of
    the path, otherwise the point is unshifted at its front.  Every turn
    marks a fresh segment used, so [fuel] as large as the number of
    segments is never exhausted (lemma [extend_fuel]). *)
Fixpoint extend (fuel : nat) (segments : list ((F * F) * (F * F)))
    (forward : bool) (w : Walk) : Walk :=
  match fuel with
  | O => w
  | S fuel' =>
      match findConnecting segments (used w) (currentPoint w) (currentIdx w) with
      | None => w
      | Some nextIdx =>
          match segments !! nextIdx with
          | None => w
          | Some seg =>
              let p :=
                if pointsEqual (fst seg) (currentPoint w) then snd seg else fst seg in
              extend fuel' segments forward
                (mkWalk (set_add (used w) nextIdx)
                        (if forward then path w ++ [p] else p :: path w)
                        p nextIdx)
          end
      end
  end.

(** The path started at segment [i], not yet normalized, and the set of
    used segments after it. *)
Definition tracePath (segments : list ((F * F) * (F * F))) (usedBefore : list nat)
    (i : nat) (seg : (F * F) * (F * F)) : Walk :=
  let fuel := length segments in
  let w := mkWalk (set_add usedBefore i) [fst seg; snd seg] (snd seg) i in
  let w := extend fuel segments true w in
  let start := default (fst seg) (head (path w)) in
  extend fuel segments false (mkWalk (used w) (path w) start i).

End Contours.

Section ContourLayers.
Context {F : Type} `{JSNum F}.

Definition normalizePath (width height : Z) (path : list (F * F)) : list (F * F) :=
  map (fun '(x, y) => ((x / of_Z (width - 1))%js, (y / of_Z (height - 1))%js)) path.

(** The outer loop of [connectSegments] from segment [i] on; the state is
    the paths so far (not yet normalized) and the set of used segments. *)
Definition connectStep (segments : list ((F * F) * (F * F)))
    (st : list (list (F * F)) * list nat) (i : nat)
    : list (list (F * F)) * list nat :=
  let '(paths, usedBefore) := st in
  if bool_decide (i ∈ usedBefore) then st
  else
    match segments !! i with
    | None => st
    | Some seg =>
        let w := tracePath segments usedBefore i seg in
        (paths ++ [path w], used w)
    end.

Definition connectLoop (segments : list ((F * F) * (F * F)))
    : list (list (F * F)) * list nat :=
  fold_left (connectStep segments) (seq 0 (length segments)) ([], []).

Definition connectSegments (segments : list ((F * F) * (F * F)))
    (width height : Z) : list (list (F * F)) :=
  map (normalizePath width height) (fst (connectLoop segments)).

Definition generateContourLayers (data : ElevationData F) (numLayers : Z)
    : list (ContourLayer F) :=
  let range_ := (maxElevation data - minElevation data)%js in
  map (fun i =>
         let threshold := (minElevation data + (range_ * of_Z i) / of_Z numLayers)%js in
         let segments := layerSegments data threshold in
         mkContourLayer threshold (connectSegments segments (width data) (height data)))
      (range 1 numLayers).

End ContourLayers.

(** ** Adaptive TIN: point selection and Bowyer-Watson triangulation *)

Record TINPoint (F : Type) : Type := mkTINPoint {
  tin_x : Z;
  tin_y : Z;
  tin_z : F;
  originalIndex : Z;
}.
Arguments mkTINPoint {F}.
Arguments tin_x {F}.
Arguments tin_y {F}.
Arguments tin_z {F}.
Arguments originalIndex {F}.

Record Triangle : Type := mkTriangle { tri_i : Z; tri_j : Z; tri_k : Z }.

Record TIN (F : Type) : Type := mkTIN {
  points : list (TINPoint F);
  triangles : list Z;
}.
Arguments mkTIN {F}.
Arguments points {F}.
Arguments triangles {F}.

(** [a.slice(0, end)] *)
Definition slice0 {A} (a : list A) (end_ : Z) : list A :=
  let len := Z.of_nat (length a) in
  take (Z.to_nat (if end_ <? 0 then Z.max (len + end_) 0 else end_)) a.

Definition triangleEdges (t : Triangle) : list (Z * Z) :=
  [(tri_i t, tri_j t); (tri_j t, tri_k t); (tri_k t, tri_i t)].

Definition sameEdge (e o : Z * Z) : bool :=
  ((fst e =? fst o) && (snd e =? snd o)) || ((fst e =? snd o) && (snd e =? fst o)).

(** The edges of the bad triangle at position [a] that no other bad
    triangle has ([tri === other] compares the objects, here positions). *)
Definition cavityEdges (badTriangles : list Triangle) (a : nat) (tri : Triangle)
    : list (Z * Z) :=
  let others := delete a badTriangles in
  List.filter (fun edge =>
      negb (existsb (fun other => existsb (sameEdge edge) (triangleEdges other)) others))
    (triangleEdges tri).

Section Delaunay.
Context {F : Type} `{JSNum F}.

Definition inCircumcircle (p a b c : F * F) : bool :=
  let ax := (fst a - fst p)%js in
  let ay := (snd a - snd p)%js in
  let bx := (fst b - fst p)%js in
  let by_ := (snd b - snd p)%js in
  let cx := (fst c - fst p)%js in
  let cy := (snd c - snd p)%js in
  let det :=
    ((ax * ax + ay * ay) * (bx * cy - cx * by_)
     - (bx * bx + by_ * by_) * (ax * cy - cx * ay)
     + (cx * cx + cy * cy) * (ax * by_ - bx * ay))%js in
  let orient :=
    ((fst a - fst c) * (snd b - snd c) - (snd a - snd c) * (fst b - fst c))%js in
  if (orient >? of_Z 0)%js then (det >? of_Z 0)%js else (det <? of_Z 0)%js.

Definition pointAt (allPoints : list (F * F)) (i : Z) : F * F :=
  default (nan, nan) (aget allPoints i).

(** The insertion of point [i]. *)
Definition insertPoint (allPoints : list (F * F)) (triangles : list Triangle)
    (i : Z) : list Triangle :=
  let p := pointAt allPoints i in
  let bad tri :=
    inCircumcircle p (pointAt allPoints (tri_i tri)) (pointAt allPoints (tri_j tri))
                   (pointAt allPoints (tri_k tri)) in
  let badTriangles := List.filter bad triangles in
  let polygon := concat (imap (cavityEdges badTriangles) badTriangles) in
  List.filter (fun t => negb (bad t)) triangles
  ++ map (fun edge => mkTriangle (fst edge) (snd edge) i) polygon.

Definition delaunayTriangulate (points : list (F * F)) : list Z :=
  let n := Z.of_nat (length points) in
  if n <? 3 then []
  else
    let minX := fold_left (fun m p => Math_min m (fst p)) points infinity in
    let minY := fold_left (fun m p => Math_min m (snd p)) points infinity in
    let maxX := fold_left (fun m p => Math_max m (fst p)) points neg_infinity in
    let maxY := fold_left (fun m p => Math_max m (snd p)) points neg_infinity in
    let dx := (maxX - minX)%js in
    let dy := (maxY - minY)%js in
    let deltaMax := (Math_max dx dy * of_Z 10)%js in
    let p1 := ((minX - deltaMax)%js, (minY - deltaMax)%js) in
    let p2 := ((minX + dx / of_Z 2)%js, (maxY + deltaMax)%js) in
    let p3 := ((maxX + deltaMax)%js, (minY - deltaMax)%js) in
    let allPoints := points ++ [p1; p2; p3] in
    let triangles :=
      fold_left (insertPoint allPoints) (range 0 n) [mkTriangle n (n + 1) (n + 2)] in
    let triangles :=
      List.filter (fun t => (tri_i t <? n) && (tri_j t <? n) && (tri_k t <? n))
                  triangles in
    concat (map (fun t => [tri_i t; tri_j t; tri_k t]) triangles).

End Delaunay.

Section AdaptiveTIN.
Context {F : Type} `{JSNum F}.
Variable Math_sqrt : F -> F.

Definition pointOf (data : ElevationData F) (x y idx : Z) : TINPoint F :=
  mkTINPoint x y (default (minElevation data) (aget (elevations data) idx)) idx.

Definition cornerPoints (data : ElevationData F) : list (TINPoint F) :=
  let w := width data in
  let h := height data in
  [pointOf data 0 0 0;
   pointOf data (w - 1) 0 (w - 1);
   pointOf data 0 (h - 1) ((h - 1) * w);
   pointOf data (w - 1) (h - 1) ((h - 1) * w + w - 1)].

Definition edgePoints (data : ElevationData F) : list (TINPoint F) :=
  let w := width data in
  let h := height data in
  let edgeStep := Z.max 1 (Z.max w h / 20) in
  concat (map (fun x => [pointOf data x 0 x;
                         pointOf data x (h - 1) ((h - 1) * w + x)])
              (range_step edgeStep (w - 1) edgeStep))
  ++ concat (map (fun y => [pointOf data 0 y (y * w);
                            pointOf data (w - 1) y (y * w + w - 1)])
                 (range_step edgeStep (h - 1) edgeStep)).

(** The importance score of the interior sample at [(x, y)]. *)
Definition importance (data : ElevationData F) (y x : Z) : Z * F :=
  let idx := y * width data + x in
  let center := default (minElevation data) (aget (elevations data) idx) in
  let left := default center (aget (elevations data) (idx - 1)) in
  let right := default center (aget (elevations data) (idx + 1)) in
  let top := default center (aget (elevations data) (idx - width data)) in
  let bottom := default center (aget (elevations data) (idx + width data)) in
  let laplacian := Math_abs ((left + right + top + bottom) / of_Z 4 - center)%js in
  let dx := ((right - left) / of_Z 2)%js in
  let dy := ((bottom - top) / of_Z 2)%js in
  let gradient := Math_sqrt (dx * dx + dy * dy)%js in
  (idx, (laplacian + gradient * lit 5 10)%js).

Definition importanceScores (data : ElevationData F) (errorThreshold : F)
    : list (Z * F) :=
  concat (map (fun y =>
      List.filter (fun s => (snd s >? errorThreshold * lit 1 10)%js)
        (map (fun x => importance data y x) (range 1 (width data - 1))))
    (range 1 (height data - 1))).

(** [importanceScores.sort((a, b) => b.score - a.score)]: the stable
    sort by decreasing score, an element moving in front of another only
    when the comparator is positive for them. *)
Fixpoint insertByScore (a : Z * F) (sorted : list (Z * F)) : list (Z * F) :=
  match sorted with
  | [] => [a]
  | b :: rest =>
      if ((snd b - snd a) >? of_Z 0)%js then b :: insertByScore a rest
      else a :: sorted
  end.

Definition sortByScore (scores : list (Z * F)) : list (Z * F) :=
  foldr insertByScore [] scores.

(** The regular grid added for baseline coverage; the state is the
    selected points and the set of their original indices. *)
Definition coverPoint (data : ElevationData F) (maxPoints : Z)
    (st : list (TINPoint F) * list Z) (y x : Z) : list (TINPoint F) * list Z :=
  let '(selectedPoints, existingSet) := st in
  let idx := y * width data + x in
  if bool_decide (idx ∈ existingSet) then st
  else (selectedPoints ++ [pointOf data x y idx], existingSet ++ [idx]).

(** The inner loop, left by [break] once [maxPoints] points are selected. *)
Fixpoint coverRow (data : ElevationData F) (maxPoints : Z)
    (st : list (TINPoint F) * list Z) (y : Z) (xs : list Z)
    : list (TINPoint F) * list Z :=
  match xs with
  | [] => st
  | x :: xs' =>
      if maxPoints <=? Z.of_nat (length (fst st)) then st
      else coverRow data maxPoints (coverPoint data maxPoints st y x) y xs'
  end.

Definition selectPoints (data : ElevationData F) (maxError : F) (maxPoints : Z)
    : list (TINPoint F) :=
  let w := width data in
  let h := height data in
  let elevationRange :=
    or_else (maxElevation data - minElevation data)%js (of_Z 1) in
  let errorThreshold := (maxError * elevationRange)%js in
  let selectedPoints := cornerPoints data ++ edgePoints data in
  let scores := sortByScore (importanceScores data errorThreshold) in
  let remainingSlots := maxPoints - Z.of_nat (length selectedPoints) in
  let topPoints := slice0 scores remainingSlots in
  let selectedPoints :=
    selectedPoints
    ++ map (fun s => pointOf data (Z.rem (fst s) w) (fst s / w) (fst s)) topPoints in
  let len := Z.of_nat (length selectedPoints) in
  (* [selectedPoints.length < maxPoints * 0.8] *)
  if 5 * len <? 4 * maxPoints then
    let gridStep := Z.max 2 (Z.sqrt ((w * h) / (maxPoints - len))) in
    let existingSet := map originalIndex selectedPoints in
    fst (fold_left (fun st y =>
           coverRow data maxPoints st y (range_step gridStep (w - 1) gridStep))
         (range_step gridStep (h - 1) gridStep) (selectedPoints, existingSet))
  else selectedPoints.

Definition generateAdaptiveTIN (data : ElevationData F) (maxError : F)
    (maxPoints : Z) : TIN F :=
  let selectedPoints := selectPoints data maxError maxPoints in
  let points2D := map (fun p => (of_Z (tin_x p), of_Z (tin_y p))) selectedPoints in
  mkTIN selectedPoints (delaunayTriangulate points2D).

End AdaptiveTIN.

(** ** The TIN as geometry arrays ([tinToGeometryArrays]) *)

Section TINGeometry.
Context {F : Type} `{JSNum F}.
Variable Math_sqrt : F -> F.

(** One turn of the position loop. *)
Definition tinPosition (tin : TIN F) (data : ElevationData F)
    (meshSize scaleFactor : F) (positions : list F) (i : Z) : list F :=
  match aget (points tin) i with
  | None => positions
  | Some p =>
      let halfSize := (meshSize / of_Z 2)%js in
      let positions :=
        tset positions (i * 3)
          (Math_fround ((of_Z (tin_x p) / of_Z (width data - 1)) * meshSize
                        - halfSize)%js) in
      let positions :=
        tset positions (i * 3 + 1)
          (Math_fround ((of_Z (tin_y p) / of_Z (height data - 1)) * meshSize
                        - halfSize)%js) in
      tset positions (i * 3 + 2)
        (Math_fround ((tin_z p - minElevation data) * scaleFactor)%js)
  end.

(** [tinToGeometryArrays]; its normals are computed by the statements of
    [calculateNormals], repeated there over [triangles]. *)
Definition tinToGeometryArrays (tin : TIN F) (data : ElevationData F)
    (meshSize verticalExaggeration : option F) : option (Mesh F) :=
  let meshSize := default (of_Z 10) meshSize in
  let verticalExaggeration := default (lit 15 10) verticalExaggeration in
  let elevationRange :=
    or_else (maxElevation data - minElevation data)%js (of_Z 1) in
  let scaleFactor := ((of_Z 3 / elevationRange) * verticalExaggeration)%js in
  let n := Z.of_nat (length (points tin)) in
  positions ← talloc (of_Z 0) (n * 3);
  let positions :=
    fold_left (tinPosition tin data meshSize scaleFactor) (range 0 n) positions in
  let indices := map to_uint32 (triangles tin) in
  normals ← calculateNormals Math_sqrt positions (triangles tin) n;
  Some (mkMesh positions indices normals).

End TINGeometry.

(** ** Cutting the heightfield into tiles ([page.tsx]) *)

Section TileExtraction.
Context {F : Type} `{JSNum F}.

(** One sample of the tile loop; the state is
    [(tileElevations, tileMin, tileMax)]. *)
Definition extractSample (fullData : ElevationData F) (startX startY : Z)
    (st : list F * F * F) (j i : Z) : list F * F * F :=
  let '(tileElevations, tileMin, tileMax) := st in
  let elevIndex := (startY + j) * width fullData + (startX + i) in
  let elevation :=
    default (minElevation fullData) (aget (elevations fullData) elevIndex) in
  (tileElevations ++ [elevation], Math_min tileMin elevation, Math_max tileMax elevation).

(** [extractTileElevationData]; the numbers of tile rows and columns are
    at least 1 where it is called ([Math.max(1, ...)]), and kept positive. *)
Definition extractTileElevationData (fullData : ElevationData F) (row col : Z)
    (totalRows totalCols : positive) : ElevationData F :=
  let tileWidth := width fullData / Zpos totalCols in
  let tileHeight := height fullData / Zpos totalRows in
  let startX := col * tileWidth in
  let startY := row * tileHeight in
  let endX := if col =? Zpos totalCols - 1 then width fullData else startX + tileWidth in
  let endY := if row =? Zpos totalRows - 1 then height fullData else startY + tileHeight in
  let actualTileWidth := endX - startX in
  let actualTileHeight := endY - startY in
  let '(tileElevations, tileMin, tileMax) :=
    fold_left (fun st j =>
        fold_left (fun st i => extractSample fullData startX startY st j i)
                  (range 0 actualTileWidth) st)
      (range 0 actualTileHeight) ([], infinity, neg_infinity) in
  mkElevationData tileElevations actualTileWidth actualTileHeight tileMin tileMax.

End TileExtraction.

(** * Properties *)

(** ** Loops and arrays *)

Lemma range_length lo hi : length (range lo hi) = Z.to_nat (hi - lo).
Proof. unfold range. by rewrite length_map, length_seq. Qed.

Lemma elem_of_range lo hi i : i ∈ range lo hi <-> lo <= i < hi.
Proof.
  unfold range. rewrite list_elem_of_fmap. split.
  - intros (k & -> & Hk). apply elem_of_seq in Hk. lia.
  - intros Hi. exists (Z.to_nat (i - lo)). split; [lia|].
    apply elem_of_seq. lia.
Qed.

Lemma range_nil lo hi : hi <= lo -> range lo hi = [].
Proof.
  intros Hle. unfold range. by replace (Z.to_nat (hi - lo)) with 0%nat by lia.
Qed.

Lemma range_cons lo hi : lo < hi -> range lo hi = lo :: range (lo + 1) hi.
Proof.
  intros Hlt. unfold range.
  replace (Z.to_nat (hi - lo)) with (S (Z.to_nat (hi - (lo + 1)))) by lia.
  rewrite <- cons_seq. cbn [map]. f_equal; [lia|].
  rewrite <- fmap_S_seq. rewrite <- list_fmap_compose.
  apply list_fmap_ext. intros _ k _. cbn. lia.
Qed.

Lemma range_snoc lo hi : lo <= hi -> range lo (hi + 1) = range lo hi ++ [hi].
Proof.
  intros Hle. unfold range.
  replace (Z.to_nat (hi + 1 - lo)) with (S (Z.to_nat (hi - lo))) by lia.
  rewrite seq_S, map_app. cbn [map]. do 2 f_equal. lia.
Qed.

Lemma tset_length {A} (a : list A) i v : length (tset a i v) = length a.
Proof. unfold tset. destruct (i <? 0); [done|]. by rewrite length_insert. Qed.

Lemma aget_tset_ne {A} (a : list A) i j v : i <> j -> aget (tset a i v) j = aget a j.
Proof.
  intros Hne. unfold aget, tset.
  destruct (Z.ltb_spec j 0); [done|].
  destruct (Z.ltb_spec i 0); [done|].
  apply list_lookup_insert_ne. lia.
Qed.

Lemma aget_tset_eq {A} (a : list A) i v :
  0 <= i < Z.of_nat (length a) -> aget (tset a i v) i = Some v.
Proof.
  intros Hi. unfold aget, tset.
  destruct (Z.ltb_spec i 0); [lia|].
  apply list_lookup_insert_eq. lia.
Qed.

(** ** The adaptive TIN keeps the four corners *)

Section AdaptiveTINFacts.
Context {F : Type} `{JSNum F}.
Variable Math_sqrt : F -> F.

Lemma coverRow_prefix (data : ElevationData F) maxPoints y xs st :
  exists suffix, fst (coverRow data maxPoints st y xs) = fst st ++ suffix.
Proof.
  revert st. induction xs as [|x xs IH]; intros st; cbn.
  - exists []. by rewrite app_nil_r.
  - destruct (maxPoints <=? Z.of_nat (length (fst st))).
    + exists []. by rewrite app_nil_r.
    + destruct (IH (coverPoint data maxPoints st y x)) as [s ->].
      destruct st as [sel ex]. unfold coverPoint.
      destruct (bool_decide _); cbn.
      * by exists s.
      * exists ([pointOf data x y (y * width data + x)] ++ s). by rewrite app_assoc.
Qed.

Lemma cover_prefix (data : ElevationData F) maxPoints xs ys st :
  exists suffix,
    fst (fold_left (fun st y => coverRow data maxPoints st y xs) ys st)
    = fst st ++ suffix.
Proof.
  revert st. induction ys as [|y ys IH]; intros st; cbn.
  - exists []. by rewrite app_nil_r.
  - destruct (IH (coverRow data maxPoints st y xs)) as [s2 ->].
    destruct (coverRow_prefix data maxPoints y xs st) as [s1 ->].
    exists (s1 ++ s2). by rewrite app_assoc.
Qed.

Lemma selectPoints_corners (data : ElevationData F) maxError maxPoints :
  exists rest,
    selectPoints Math_sqrt data maxError maxPoints = cornerPoints data ++ rest.
Proof.
  unfold selectPoints. cbv zeta.
  match goal with |- context [if ?c then _ else _] => destruct c end.
  - match goal with |- context [fold_left ?f ?ys ?st] =>
      destruct (cover_prefix data maxPoints
                  (range_step (Z.max 2 (Z.sqrt (width data * height data /
                     (maxPoints - Z.of_nat (length (fst st))))))
                     (width data - 1)
                     (Z.max 2 (Z.sqrt (width data * height data /
                     (maxPoints - Z.of_nat (length (fst st)))))))
                  ys st) as [s Hs]
    end.
    cbn [fst] in Hs. rewrite Hs. rewrite <- !app_assoc. eauto.
  - rewrite <- !app_assoc. eauto.
Qed.

(** C7.  Whatever the heightfield, [maxError] and [maxPoints], the points
    returned by [generateAdaptiveTIN] start with the four corner points,
    so the point set contains a point at each of the grid corners
    [(0, 0)], [(width-1, 0)], [(0, height-1)] and [(width-1, height-1)]. *)
Theorem generateAdaptiveTIN_corners (data : ElevationData F) (maxError : F)
    (maxPoints : Z) :
  let pts := points (generateAdaptiveTIN Math_sqrt data maxError maxPoints) in
  take 4 pts = cornerPoints data
  /\ Forall (fun c => exists p, p ∈ pts /\ tin_x p = fst c /\ tin_y p = snd c)
       [(0, 0); (width data - 1, 0); (0, height data - 1);
        (width data - 1, height data - 1)].
Proof.
  cbv zeta. unfold generateAdaptiveTIN. cbn [points].
  destruct (selectPoints_corners data maxError maxPoints) as [rest ->].
  split; [done|].
  repeat (constructor; [|]); [| | | |constructor].
  - exists (pointOf data 0 0 0). split; [by apply (list_elem_of_lookup_2 _ 0%nat)|done].
  - exists (pointOf data (width data - 1) 0 (width data - 1)).
    split; [by apply (list_elem_of_lookup_2 _ 1%nat)|done].
  - exists (pointOf data 0 (height data - 1) ((height data - 1) * width data)).
    split; [by apply (list_elem_of_lookup_2 _ 2%nat)|done].
  - exists (pointOf data (width data - 1) (height data - 1)
              ((height data - 1) * width data + width data - 1)).
    split; [by apply (list_elem_of_lookup_2 _ 3%nat)|done].
Qed.

End AdaptiveTINFacts.

(** ** Laplacian smoothing leaves everything but interior heights alone *)

Lemma fold_left_preserves {A B} (P : A -> Prop) (f : A -> B -> A) (l : list B) (a : A) :
  P a -> (forall a b, b ∈ l -> P a -> P (f a b)) -> P (fold_left f l a).
Proof.
  revert a. induction l as [|b l IH]; intros a Ha Hf; cbn; [done|].
  apply IH.
  - apply Hf; [left|done].
  - intros a' b' Hb'. apply Hf. by right.
Qed.

(** A vertex index determines its row and column. *)
Lemma vertex_index_inj gw gy gx gy' gx' :
  0 <= gx < gw -> 0 <= gx' < gw ->
  gy * gw + gx = gy' * gw + gx' -> gy = gy' /\ gx = gx'.
Proof.
  intros Hx Hx' Heq.
  assert (gy = gy') as -> by nia.
  split; [done|lia].
Qed.

Section LaplacianFacts.
Context {F : Type} `{JSNum F}.

Lemma laplacianPass_length (current : list F) gw gh lambda :
  length (laplacianPass current gw gh lambda) = length current.
Proof.
  unfold laplacianPass.
  apply (fold_left_preserves (fun next => length next = length current)); [done|].
  intros next gy _ Hlen.
  apply (fold_left_preserves (fun next => length next = length current)); [done|].
  intros next' gx _ Hlen'. unfold relax. by rewrite tset_length.
Qed.

(** A pass writes the height slot of interior vertices only. *)
Lemma laplacianPass_frame (current : list F) gw gh lambda j :
  (forall gy gx, 1 <= gy < gh - 1 -> 1 <= gx < gw - 1 -> j <> (gy * gw + gx) * 3 + 2) ->
  aget (laplacianPass current gw gh lambda) j = aget current j.
Proof.
  intros Hj. unfold laplacianPass.
  apply (fold_left_preserves (fun next => aget next j = aget current j)); [done|].
  intros next gy Hgy Hnext.
  apply (fold_left_preserves (fun next => aget next j = aget current j)); [done|].
  intros next' gx Hgx Hnext'.
  apply elem_of_range in Hgy. apply elem_of_range in Hgx.
  unfold relax. rewrite aget_tset_ne; [done|].
  intros Heq. by apply (Hj gy gx).
Qed.

Lemma applyLaplacianSmoothing_slot (positions : list F) indices gw gh passes lambda j :
  (forall gy gx, 1 <= gy < gh - 1 -> 1 <= gx < gw - 1 -> j <> (gy * gw + gx) * 3 + 2) ->
  aget (applyLaplacianSmoothing positions indices gw gh passes lambda) j
  = aget positions j.
Proof.
  intros Hj. unfold applyLaplacianSmoothing.
  destruct (passes =? 0); [done|].
  induction (Z.to_nat passes) as [|n IH]; [done|].
  rewrite Nat.iter_succ. by rewrite laplacianPass_frame.
Qed.

Lemma applyLaplacianSmoothing_length (positions : list F) indices gw gh passes lambda :
  length (applyLaplacianSmoothing positions indices gw gh passes lambda)
  = length positions.
Proof.
  unfold applyLaplacianSmoothing. destruct (passes =? 0); [done|].
  induction (Z.to_nat passes) as [|n IH]; [done|].
  rewrite Nat.iter_succ. by rewrite laplacianPass_length.
Qed.

(** C4.  For a grid mesh of [gridWidth x gridHeight] vertices and any
    number of passes, the coordinate [k] (0 = x, 1 = y, 2 = z) of the vertex
    in row [gy] and column [gx] is the stored value it had before smoothing
    whenever it is an x or a y coordinate, or the vertex lies in the first
    or last row or column; only the z of interior vertices is rewritten,
    and the array keeps its length. *)
Theorem applyLaplacianSmoothing_frame (positions : list F) (indices : list Z)
    (gridWidth gridHeight passes : Z) (lambda : F) (gy gx k : Z) :
  0 <= gx < gridWidth -> 0 <= k < 3 ->
  k <> 2 \/ gy <= 0 \/ gridHeight - 1 <= gy \/ gx = 0 \/ gx = gridWidth - 1 ->
  let smoothed :=
    applyLaplacianSmoothing positions indices gridWidth gridHeight passes lambda in
  length smoothed = length positions
  /\ aget smoothed ((gy * gridWidth + gx) * 3 + k)
     = aget positions ((gy * gridWidth + gx) * 3 + k).
Proof.
  intros Hgx Hk Hframe. cbv zeta. split.
  - apply applyLaplacianSmoothing_length.
  - apply applyLaplacianSmoothing_slot.
    intros gy' gx' Hgy' Hgx' Heq.
    assert (k = 2) as -> by lia.
    assert (gy * gridWidth + gx = gy' * gridWidth + gx') as Hv by lia.
    apply vertex_index_inj in Hv as [-> ->]; lia.
Qed.

End LaplacianFacts.

(** ** The regular grid at full resolution *)

(** Counted loops: an invariant indexed by the loop counter. *)
Lemma fold_range_invariant {A} (I : Z -> A -> Prop) (f : A -> Z -> A) lo hi a :
  lo <= hi -> I lo a ->
  (forall i a, lo <= i < hi -> I i a -> I (i + 1) (f a i)) ->
  I hi (fold_left f (range lo hi) a).
Proof.
  intros Hle. remember (Z.to_nat (hi - lo)) as n eqn:Hn.
  revert lo a Hle Hn. induction n as [|n IH]; intros lo a Hle Hn Ha Hstep.
  - assert (lo = hi) as -> by lia. by rewrite range_nil by lia.
  - rewrite range_cons by lia. cbn [fold_left].
    apply IH; [lia|lia| |].
    + apply Hstep; [lia|done].
    + intros i a' Hi. apply Hstep. lia.
Qed.

Lemma ceil_div_1 a : ceil_div a 1 = a.
Proof. unfold ceil_div. rewrite Z.div_1_r. lia. Qed.

Lemma talloc_Some {A} (zero : A) n :
  0 <= n -> talloc zero n = Some (replicate (Z.to_nat n) zero).
Proof. intros Hn. unfold talloc. destruct (Z.ltb_spec n 0); [lia|done]. Qed.

Lemma talloc_None {A} (zero : A) n : n < 0 -> talloc zero n = None.
Proof. intros Hn. unfold talloc. destruct (Z.ltb_spec n 0); [done|lia]. Qed.

Lemma to_uint32_small z : 0 <= z < 2 ^ 32 -> to_uint32 z = z.
Proof. intros Hz. unfold to_uint32. by apply Z.mod_small. Qed.

(** The six indices of the cell whose top-left vertex is [(gx, gy)]. *)
Definition cellIndices (gridWidth gy gx : Z) : list Z :=
  let topLeft := gy * gridWidth + gx in
  let topRight := topLeft + 1 in
  let bottomLeft := (gy + 1) * gridWidth + gx in
  let bottomRight := bottomLeft + 1 in
  [topLeft; bottomLeft; topRight; topRight; bottomLeft; bottomRight].

(** After [c] cells: the write cursor is at [6 c] and the cells written so
    far hold their indices. *)
Definition cellsWritten (N total c : Z) (st : list Z * Z) : Prop :=
  snd st = 6 * c
  /\ Z.of_nat (length (fst st)) = total
  /\ forall gy gx d, 0 <= gy -> 0 <= gx < N - 1 -> gy * (N - 1) + gx < c ->
       0 <= d < 6 ->
       aget (fst st) (6 * (gy * (N - 1) + gx) + d) = aget (cellIndices N gy gx) d.

Lemma gridCell_written N total gy gx st :
  2 <= N -> N * N <= 2 ^ 32 ->
  0 <= gy < N - 1 -> 0 <= gx < N - 1 ->
  6 * (gy * (N - 1) + gx + 1) <= total ->
  cellsWritten N total (gy * (N - 1) + gx) st ->
  cellsWritten N total (gy * (N - 1) + gx + 1) (gridCell N st gy gx).
Proof.
  intros HN Hfit Hgy Hgx Htotal (Hcur & Hlen & Hold).
  destruct st as [indices triIdx]. cbn [fst snd] in *. subst triIdx.
  unfold gridCell. cbv zeta. cbn [fst snd].
  assert (0 <= gy * (N - 1)) by nia.
  assert (0 <= gy * N) by nia.
  assert ((gy + 1) * N <= (N - 1) * N) by nia.
  rewrite !to_uint32_small by lia.
  unfold cellsWritten. cbn [fst snd].
  split; [lia|]. split; [by rewrite !tset_length|].
  intros gy' gx' d Hgy' Hgx' Hlt Hd.
  destruct (decide (gy' * (N - 1) + gx' < gy * (N - 1) + gx)) as [Hbefore|Hnow].
  - rewrite !aget_tset_ne by lia. by apply Hold.
  - assert (gy' * (N - 1) + gx' = gy * (N - 1) + gx) as Hsame by lia.
    apply vertex_index_inj in Hsame as [-> ->]; [|lia|lia].
    assert (d = 0 \/ d = 1 \/ d = 2 \/ d = 3 \/ d = 4 \/ d = 5) as Hcase by lia.
    destruct Hcase as [->|[->|[->|[->|[->| ->]]]]];
      rewrite ?Z.add_0_r;
      rewrite ?aget_tset_ne by lia;
      (rewrite aget_tset_eq by (rewrite ?tset_length; lia)); done.
Qed.

Section GridMeshFacts.
Context {F : Type} `{JSNum F}.
Variable Math_sqrt : F -> F.

Lemma gridVertex_length (data : ElevationData F) d meshSize scaleFactor gw gh
    positions gy gx :
  length (gridVertex data d meshSize scaleFactor gw gh positions gy gx)
  = length positions.
Proof. unfold gridVertex. cbv zeta. by rewrite !tset_length. Qed.

Lemma calculateNormals_Some (positions : list F) indices vertexCount :
  0 <= vertexCount ->
  exists normals, calculateNormals Math_sqrt positions indices vertexCount = Some normals.
Proof.
  intros Hv. unfold calculateNormals.
  rewrite !talloc_Some by lia. cbn.
  destruct (fold_left _ _ _) as [normals counts]. eauto.
Qed.

(** The index loop of [generateGridMesh] on an [N x N] grid. *)
Lemma gridCells_written N (indices : list Z) :
  2 <= N -> N * N <= 2 ^ 32 ->
  Z.of_nat (length indices) = 6 * ((N - 1) * (N - 1)) ->
  cellsWritten N (6 * ((N - 1) * (N - 1))) ((N - 1) * (N - 1))
    (fold_left (fun st gy =>
       fold_left (fun st gx => gridCell N st gy gx) (range 0 (N - 1)) st)
     (range 0 (N - 1)) (indices, 0)).
Proof.
  intros HN Hfit Hlen.
  apply (fold_range_invariant
           (fun gy st => cellsWritten N (6 * ((N - 1) * (N - 1))) (gy * (N - 1)) st)).
  - lia.
  - split; [cbn; lia|]. split; [done|]. intros gy gx d ? ? ?. nia.
  - intros gy st Hgy Hst.
    replace ((gy + 1) * (N - 1)) with (gy * (N - 1) + (N - 1)) by lia.
    apply (fold_range_invariant
             (fun gx st => cellsWritten N (6 * ((N - 1) * (N - 1))) (gy * (N - 1) + gx) st)).
    + lia.
    + by rewrite Z.add_0_r.
    + intros gx st' Hgx Hst'.
      replace (gy * (N - 1) + (gx + 1)) with (gy * (N - 1) + gx + 1) by lia.
      apply gridCell_written; try done. nia.
Qed.

(** C5.  On an [N x N] heightfield with [N >= 2] (and [N * N] samples, as
    many as a JavaScript array can hold) [generateGridMesh] at
    [decimationFactor = 1] returns [N * N] vertices, that is [3 N N]
    position floats, and [2 (N-1) (N-1)] triangles; the cell with top-left
    vertex [(gx, gy)] owns the six indices from [6 (gy (N-1) + gx)] on:
    [(topLeft, bottomLeft, topRight)] then
    [(topRight, bottomLeft, bottomRight)]. *)
Theorem generateGridMesh_full_resolution (data : ElevationData F)
    (options : MeshOptions F) (N : Z) :
  width data = N -> height data = N -> 2 <= N -> N * N <= 2 ^ 32 ->
  default 1%positive (decimationFactor options) = 1%positive ->
  exists mesh,
    generateGridMesh Math_sqrt data options = Some mesh
    /\ Z.of_nat (length (positions mesh)) = 3 * (N * N)
    /\ Z.of_nat (length (indices mesh)) = 3 * (2 * (N - 1) * (N - 1))
    /\ forall gy gx, 0 <= gy < N - 1 -> 0 <= gx < N - 1 ->
         let topLeft := gy * N + gx in
         let topRight := topLeft + 1 in
         let bottomLeft := (gy + 1) * N + gx in
         let bottomRight := bottomLeft + 1 in
         let first := 6 * (gy * (N - 1) + gx) in
         map (fun d => aget (indices mesh) (first + d)) [0; 1; 2; 3; 4; 5]
         = map Some [topLeft; bottomLeft; topRight; topRight; bottomLeft; bottomRight].
Proof.
  intros Hw Hh HN Hfit Hdec.
  unfold generateGridMesh. cbv zeta. rewrite Hdec, Hw, Hh, !ceil_div_1.
  rewrite !talloc_Some by nia. cbn [mbind option_bind].
  match goal with |- context [calculateNormals _ ?p ?i ?v] =>
    destruct (calculateNormals_Some p i v) as [normals ->]; [nia|]
  end.
  cbn [mbind option_bind]. eexists. split; [done|]. cbn [positions indices].
  pose proof (gridCells_written N
    (replicate (Z.to_nat ((N - 1) * (N - 1) * 2 * 3)) 0) HN Hfit) as Hcells.
  destruct Hcells as (_ & Hlen & Hslots).
  { rewrite length_replicate. nia. }
  split; [|split].
  - apply (fold_left_preserves
             (fun p : list F => Z.of_nat (length p) = 3 * (N * N))).
    + rewrite length_replicate. nia.
    + intros p gy _ Hp.
      apply (fold_left_preserves
               (fun p : list F => Z.of_nat (length p) = 3 * (N * N))); [done|].
      intros p' gx _ Hp'. by rewrite gridVertex_length.
  - rewrite Hlen. lia.
  - intros gy gx Hgy Hgx. cbv zeta. cbn [map].
    rewrite !Hslots by (lia || nia). done.
Qed.

End GridMeshFacts.

(** ** Chaining segments into paths *)

(** Distinct indices below [n], at least [n] of them, are all of them. *)
Lemma all_indices_used (n : nat) (l : list nat) (j : nat) :
  NoDup l -> Forall (fun i => (i < n)%nat) l -> (n <= length l)%nat ->
  (j < n)%nat -> j ∈ l.
Proof.
  intros Hnd Hlt Hlen Hj.
  assert (l ⊆+ seq 0 n) as Hsub.
  { apply NoDup_submseteq; [done|]. intros i Hi.
    rewrite Forall_forall in Hlt. apply elem_of_seq. specialize (Hlt i Hi). lia. }
  assert (l ≡ₚ seq 0 n) as Hperm.
  { apply submseteq_length_Permutation; [done|]. by rewrite length_seq. }
  rewrite Hperm. apply elem_of_seq. lia.
Qed.

Lemma set_add_fresh (used : list nat) (i : nat) :
  i ∉ used -> set_add used i = used ++ [i].
Proof. intros Hi. unfold set_add. by rewrite bool_decide_eq_false_2. Qed.

(** The paths of [connectSegments] with, for each, the indices of the
    segments consumed while it was traced. *)
Definition connectStepOwned {F} `{JSNum F} (segments : list ((F * F) * (F * F)))
    (st : list (list (F * F) * list nat) * list nat) (i : nat)
    : list (list (F * F) * list nat) * list nat :=
  let '(owned, usedBefore) := st in
  if bool_decide (i ∈ usedBefore) then st
  else
    match segments !! i with
    | None => st
    | Some seg =>
        let w := tracePath segments usedBefore i seg in
        (owned ++ [(path w, drop (length usedBefore) (used w))], used w)
    end.

Definition connectOwned {F} `{JSNum F} (segments : list ((F * F) * (F * F)))
    : list (list (F * F) * list nat) :=
  fst (fold_left (connectStepOwned segments) (seq 0 (length segments)) ([], [])).

Section ConnectFacts.
Context {F : Type} `{JSNum F}.
Variable segments : list ((F * F) * (F * F)).

Lemma findFrom_Some i (segs : list ((F * F) * (F * F))) used point exclude j :
  findFrom i segs used point exclude = Some j ->
  (j ∉ used) /\ (i <= j < i + length segs)%nat.
Proof.
  revert i. induction segs as [|seg rest IH]; intros i; cbn; [done|].
  destruct (bool_decide (i ∈ used)) eqn:Hused; cbn.
  - intros Hj. apply IH in Hj. split; [tauto|lia].
  - destruct (i =? exclude)%nat.
    + intros Hj. apply IH in Hj. split; [tauto|lia].
    + destruct (pointsEqual (fst seg) point || pointsEqual (snd seg) point).
      * intros [= <-]. apply bool_decide_eq_false in Hused. split; [done|lia].
      * intros Hj. apply IH in Hj. split; [tauto|lia].
Qed.

Lemma findFrom_exhausted i (segs : list ((F * F) * (F * F))) used point exclude :
  (forall j, (i <= j < i + length segs)%nat -> j ∈ used) ->
  findFrom i segs used point exclude = None.
Proof.
  revert i. induction segs as [|seg rest IH]; intros i Hall; cbn; [done|].
  rewrite bool_decide_eq_true_2 by (apply Hall; cbn; lia). cbn.
  apply IH. intros j Hj. apply Hall. cbn. lia.
Qed.

(** A walk traced after the segments [usedBefore] were used: it owns the
    segments [own], has one point more than it owns segments, and all its
    points are end points of segments it owns. *)
Definition walkOwns (usedBefore own : list nat) (w : Walk) : Prop :=
  used w = usedBefore ++ own
  /\ NoDup (used w)
  /\ Forall (fun i => (i < length segments)%nat) (used w)
  /\ length (path w) = S (length own)
  /\ Forall (fun q => exists j seg, j ∈ own /\ segments !! j = Some seg
                                   /\ (q = fst seg \/ q = snd seg)) (path w).

Lemma extend_owns fuel forward usedBefore own w :
  walkOwns usedBefore own w ->
  exists own', walkOwns usedBefore own' (extend fuel segments forward w).
Proof.
  revert own w. induction fuel as [|fuel IH]; intros own w Hw; cbn; [eauto|].
  destruct (findConnecting _ _ _ _) as [nextIdx|] eqn:Hfind; [|eauto].
  destruct (segments !! nextIdx) as [seg|] eqn:Hseg; [|eauto].
  apply findFrom_Some in Hfind as [Hfresh Hrange].
  destruct Hw as (Hused & Hnd & Hlt & Hlen & Hpts).
  apply (IH (own ++ [nextIdx])).
  unfold walkOwns. cbn [used path].
  rewrite set_add_fresh by done. split; [|split; [|split; [|split]]].
  - by rewrite Hused, app_assoc.
  - apply NoDup_app. split; [done|]. split; [|apply NoDup_singleton].
    intros x Hx Hx'. apply list_elem_of_singleton in Hx'. by subst.
  - apply Forall_app. split; [done|]. apply Forall_singleton. lia.
  - destruct forward; cbn; rewrite ?length_app; cbn; rewrite ?length_app; cbn; lia.
  - assert (Forall (fun q => exists j seg0, j ∈ own ++ [nextIdx]
              /\ segments !! j = Some seg0 /\ (q = fst seg0 \/ q = snd seg0)) (path w))
      as Hold.
    { eapply Forall_impl; [exact Hpts|]. intros q (j & sg & Hj & Hsg & Hq).
      exists j, sg. split; [|done]. apply elem_of_app. by left. }
    assert (exists j seg0, j ∈ own ++ [nextIdx] /\ segments !! j = Some seg0
              /\ ((if pointsEqual (fst seg) (currentPoint w) then snd seg else fst seg)
                  = fst seg0
                  \/ (if pointsEqual (fst seg) (currentPoint w) then snd seg else fst seg)
                  = snd seg0)) as Hnew.
    { exists nextIdx, seg. split; [apply elem_of_app; right; by apply list_elem_of_singleton|].
      split; [done|]. destruct (pointsEqual _ _); auto. }
    destruct forward.
    + apply Forall_app. split; [done|]. by apply Forall_singleton.
    + by apply Forall_cons.
Qed.

(** With fuel for every segment not yet used, a loop is left by its
    [break]: no unused segment connects to the end it stopped at. *)
Lemma extend_fuel fuel forward usedBefore own w :
  walkOwns usedBefore own w ->
  (length segments <= fuel + length (used w))%nat ->
  let w' := extend fuel segments forward w in
  findConnecting segments (used w') (currentPoint w') (currentIdx w') = None.
Proof.
  revert own w. induction fuel as [|fuel IH]; intros own w Hw Hfuel; cbn.
  - destruct Hw as (_ & Hnd & Hlt & _).
    apply findFrom_exhausted. intros j Hj.
    apply (all_indices_used (length segments)); [done|done|lia|lia].
  - destruct (findConnecting segments (used w) (currentPoint w) (currentIdx w))
      as [nextIdx|] eqn:Hfind; [|done].
    destruct (segments !! nextIdx) as [seg|] eqn:Hseg.
    + pose proof Hfind as Hfind'.
      apply findFrom_Some in Hfind' as [Hfresh Hrange].
      pose proof (extend_owns 1 forward usedBefore own w Hw) as [own' Hw'].
      cbn in Hw'. rewrite Hfind, Hseg in Hw'.
      apply (IH own'); [done|]. cbn [used].
      rewrite set_add_fresh by done. rewrite length_app. cbn. lia.
    + apply findFrom_Some in Hfind as [_ Hrange].
      apply lookup_ge_None in Hseg. lia.
Qed.

Lemma tracePath_owns usedBefore i seg :
  NoDup usedBefore -> Forall (fun i => (i < length segments)%nat) usedBefore ->
  i ∉ usedBefore -> segments !! i = Some seg ->
  exists own, walkOwns usedBefore (i :: own) (tracePath segments usedBefore i seg).
Proof.
  intros Hnd Hlt Hi Hseg. unfold tracePath. cbv zeta.
  assert (walkOwns usedBefore [i]
            (mkWalk (set_add usedBefore i) [fst seg; snd seg] (snd seg) i)) as Hstart.
  { unfold walkOwns. cbn [used path]. rewrite set_add_fresh by done.
    split; [done|]. split.
    { apply NoDup_app. split; [done|]. split; [|apply NoDup_singleton].
      intros x Hx Hx'. apply list_elem_of_singleton in Hx'. by subst. }
    split.
    { apply Forall_app. split; [done|]. apply Forall_singleton.
      by apply lookup_lt_Some in Hseg. }
    split; [done|].
    repeat constructor; exists i, seg; (split; [by apply list_elem_of_singleton|auto]). }
  destruct (extend_owns (length segments) true _ _ _ Hstart) as [own1 Hfwd].
  set (w1 := extend (length segments) segments true _) in *.
  assert (walkOwns usedBefore own1
            (mkWalk (used w1) (path w1) (default (fst seg) (head (path w1))) i))
    as Hmid by exact Hfwd.
  destruct (extend_owns (length segments) false _ _ _ Hmid) as [own2 Hbwd].
  set (w2 := extend (length segments) segments false _) in *.
  assert (exists own, own2 = i :: own) as [own ->]; [|eauto].
  (* the used set only grows, and it started as [usedBefore ++ [i]] *)
  assert (forall fuel forward o w, walkOwns usedBefore o w ->
            exists o', used (extend fuel segments forward w) = used w ++ o') as Hgrow.
  { clear. induction fuel as [|fuel IH]; intros forward o w Hw; cbn.
    - exists []. by rewrite app_nil_r.
    - destruct (findConnecting _ _ _ _) as [nextIdx|] eqn:Hfind;
        [|exists []; by rewrite app_nil_r].
      destruct (segments !! nextIdx) as [sg|] eqn:Hsg;
        [|exists []; by rewrite app_nil_r].
      pose proof (extend_owns 1 forward usedBefore o w Hw) as [o1 Hw1].
      cbn in Hw1. rewrite Hfind, Hsg in Hw1.
      destruct (IH forward o1 _ Hw1) as [o' ->]. cbn [used].
      apply findFrom_Some in Hfind as [Hfresh _].
      rewrite set_add_fresh by done. exists ([nextIdx] ++ o'). by rewrite app_assoc. }
  destruct (Hgrow (length segments) true _ _ Hstart) as [o1 Ho1].
  destruct (Hgrow (length segments) false _ _ Hmid) as [o2 Ho2].
  fold w1 in Ho1. fold w2 in Ho2. cbn [used] in Ho1, Ho2.
  rewrite set_add_fresh in Ho1 by done.
  destruct Hbwd as (Hused2 & _). rewrite Ho2, Ho1 in Hused2.
  rewrite <- !app_assoc in Hused2. apply app_inv_head in Hused2.
  exists (o1 ++ o2). by rewrite <- Hused2.
Qed.

(** Both loops of a path are left by [break], never by lack of fuel. *)
Lemma tracePath_breaks usedBefore i seg :
  NoDup usedBefore -> Forall (fun i => (i < length segments)%nat) usedBefore ->
  i ∉ usedBefore -> segments !! i = Some seg ->
  let w1 := extend (length segments) segments true
              (mkWalk (set_add usedBefore i) [fst seg; snd seg] (snd seg) i) in
  let w2 := tracePath segments usedBefore i seg in
  findConnecting segments (used w1) (currentPoint w1) (currentIdx w1) = None
  /\ findConnecting segments (used w2) (currentPoint w2) (currentIdx w2) = None.
Proof.
  intros Hnd Hlt Hi Hseg.
  assert (walkOwns usedBefore [i]
            (mkWalk (set_add usedBefore i) [fst seg; snd seg] (snd seg) i)) as Hstart.
  { unfold walkOwns. cbn [used path]. rewrite set_add_fresh by done.
    split; [done|]. split.
    { apply NoDup_app. split; [done|]. split; [|apply NoDup_singleton].
      intros x Hx Hx'. apply list_elem_of_singleton in Hx'. by subst. }
    split.
    { apply Forall_app. split; [done|]. apply Forall_singleton.
      by apply lookup_lt_Some in Hseg. }
    split; [done|].
    repeat constructor; exists i, seg; (split; [by apply list_elem_of_singleton|auto]). }
  cbv zeta. split.
  - apply (extend_fuel _ _ usedBefore [i]); [done|]. cbn [used].
    rewrite set_add_fresh by done. rewrite length_app. cbn. lia.
  - unfold tracePath. cbv zeta.
    destruct (extend_owns (length segments) true _ _ _ Hstart) as [own1 Hfwd].
    apply (extend_fuel _ _ usedBefore own1); [exact Hfwd|]. cbn [used].
    destruct Hfwd as (Hu & _ & _ & Hlen & _). rewrite Hu, length_app. lia.
Qed.

End ConnectFacts.

Lemma fold_seq_invariant {A} (I : nat -> A -> Prop) (f : A -> nat -> A) lo n a :
  I lo a ->
  (forall i a, (lo <= i < lo + n)%nat -> I i a -> I (S i) (f a i)) ->
  I (lo + n)%nat (fold_left f (seq lo n) a).
Proof.
  revert lo a. induction n as [|n IH]; intros lo a Ha Hstep; cbn.
  - by rewrite Nat.add_0_r.
  - replace (lo + S n)%nat with (S lo + n)%nat by lia.
    apply IH.
    + apply Hstep; [lia|done].
    + intros i a' Hi. apply Hstep. lia.
Qed.

Section ConnectLoopFacts.
Context {F : Type} `{JSNum F}.
Variable segments : list ((F * F) * (F * F)).

(** A path and the segments it owns. *)
Definition pathOwns (po : list (F * F) * list nat) : Prop :=
  length (fst po) = S (length (snd po))
  /\ Forall (fun q => exists j seg, j ∈ snd po /\ segments !! j = Some seg
                                   /\ (q = fst seg \/ q = snd seg)) (fst po).

(** The state of the outer loop when it reaches segment [i]. *)
Definition loopReached (i : nat) (st : list (list (F * F) * list nat) * list nat)
    : Prop :=
  snd st = concat (map snd (fst st))
  /\ NoDup (snd st)
  /\ Forall (fun j => (j < length segments)%nat) (snd st)
  /\ (forall j, (j < i)%nat -> j ∈ snd st)
  /\ Forall pathOwns (fst st).

Lemma connectStepOwned_reached i st :
  (i < length segments)%nat ->
  loopReached i st -> loopReached (S i) (connectStepOwned segments st i).
Proof.
  intros Hi (Hcat & Hnd & Hlt & Hall & Hown).
  destruct st as [owned usedBefore]. cbn [fst snd] in *.
  unfold connectStepOwned.
  destruct (bool_decide (i ∈ usedBefore)) eqn:Hused.
  - apply bool_decide_eq_true in Hused.
    split; [done|]. split; [done|]. split; [done|]. split; [|done].
    intros j Hj. cbn [snd]. destruct (decide (j = i)) as [->|]; [done|].
    apply Hall. lia.
  - apply bool_decide_eq_false in Hused.
    destruct (segments !! i) as [seg|] eqn:Hseg.
    2:{ apply lookup_ge_None in Hseg. lia. }
    destruct (tracePath_owns segments usedBefore i seg Hnd Hlt Hused Hseg)
      as [own (Hu & Hnd' & Hlt' & Hlen & Hpts)].
    cbv zeta. unfold loopReached. cbn [fst snd].
    rewrite Hu, drop_app_length.
    split; [|split; [|split; [|split]]].
    + rewrite fmap_app, concat_app. cbn. by rewrite app_nil_r, Hcat.
    + by rewrite <- Hu.
    + by rewrite <- Hu.
    + intros j Hj. apply elem_of_app.
      destruct (decide (j = i)) as [->|]; [right; left|left; apply Hall; lia].
    + apply Forall_app. split; [done|]. apply Forall_singleton.
      split; [done|]. done.
Qed.

Lemma connectOwned_reached :
  loopReached (length segments)
    (fold_left (connectStepOwned segments) (seq 0 (length segments)) ([], [])).
Proof.
  apply (fold_seq_invariant loopReached _ 0 (length segments)).
  - split; [done|]. split; [apply NoDup_nil_2|].
    split; [done|]. split; [lia|done].
  - intros i st Hi. apply connectStepOwned_reached. lia.
Qed.

(** Forgetting the owners gives the loop of the source. *)
Lemma connectOwned_erase (l : list nat) stO st :
  map fst (fst stO) = fst st -> snd stO = snd st ->
  map fst (fst (fold_left (connectStepOwned segments) l stO))
  = fst (fold_left (connectStep segments) l st)
  /\ snd (fold_left (connectStepOwned segments) l stO)
     = snd (fold_left (connectStep segments) l st).
Proof.
  revert stO st. induction l as [|i l IH]; intros stO st Hfst Hsnd; cbn; [done|].
  apply IH; destruct stO as [owned u], st as [paths u']; cbn [fst snd] in *; subst;
    unfold connectStepOwned, connectStep;
    destruct (bool_decide _); try done;
    destruct (segments !! i); try done; cbn [fst snd].
  by rewrite fmap_app.
Qed.

(** Whenever the outer loop starts a path, its two inner loops end by
    [break]: the fuel given to them is never what stops them. *)
Lemma connectLoop_breaks (i : nat) (seg : (F * F) * (F * F)) :
  (i < length segments)%nat -> segments !! i = Some seg ->
  let usedBefore := snd (fold_left (connectStep segments) (seq 0 i) ([], [])) in
  i ∉ usedBefore ->
  let w1 := extend (length segments) segments true
              (mkWalk (set_add usedBefore i) [fst seg; snd seg] (snd seg) i) in
  let w2 := tracePath segments usedBefore i seg in
  findConnecting segments (used w1) (currentPoint w1) (currentIdx w1) = None
  /\ findConnecting segments (used w2) (currentPoint w2) (currentIdx w2) = None.
Proof.
  intros Hi Hseg usedBefore Hfresh.
  assert (loopReached i
            (fold_left (connectStepOwned segments) (seq 0 i) ([], []))) as Hreach.
  { apply (fold_seq_invariant loopReached _ 0 i).
    - split; [done|]. split; [apply NoDup_nil_2|].
      split; [done|]. split; [lia|done].
    - intros k st Hk. apply connectStepOwned_reached. lia. }
  destruct (connectOwned_erase (seq 0 i) ([], []) ([], [])) as [_ Hsnd]; [done|done|].
  destruct Hreach as (_ & Hnd & Hlt & _). rewrite Hsnd in Hnd, Hlt.
  by apply tracePath_breaks.
Qed.

(** C9.  [connectSegments] gives every segment to exactly one path: the
    lists of segment indices consumed while tracing each path, one list
    per returned path, together are a rearrangement of all the indices
    [0 .. n-1] (none missing, none twice); a path has one point more than
    it owns segments, each of its points being an end point of one of them;
    so the points of all paths number the segments plus the paths. *)
Theorem connectSegments_accounts (width height : Z) :
  let paths := connectSegments segments width height in
  let owned := connectOwned segments in
  map (fun po => normalizePath width height (fst po)) owned = paths
  /\ concat (map snd owned) ≡ₚ seq 0 (length segments)
  /\ Forall pathOwns owned
  /\ sum_list (map length paths) = (length segments + length paths)%nat.
Proof.
  cbv zeta. unfold connectSegments, connectOwned, connectLoop.
  destruct (connectOwned_erase (seq 0 (length segments)) ([], []) ([], []))
    as [Hfst _]; [done|done|].
  pose proof connectOwned_reached as (Hcat & Hnd & Hlt & Hall & Hown).
  set (stO := fold_left (connectStepOwned segments) _ _) in *.
  rewrite <- Hfst.
  assert (concat (map snd (fst stO)) ≡ₚ seq 0 (length segments)) as Hperm.
  { rewrite <- Hcat. apply NoDup_Permutation; [done|apply NoDup_seq|].
    intros j. rewrite elem_of_seq. split.
    - intros Hj. rewrite Forall_forall in Hlt. specialize (Hlt j Hj). lia.
    - intros Hj. apply Hall. lia. }
  split; [by rewrite <- list_fmap_compose|].
  split; [done|]. split; [done|].
  assert (length segments = length (concat (map snd (fst stO)))) as ->
    by (by rewrite Hperm, length_seq).
  rewrite <- !list_fmap_compose, length_map.
  clear -Hown. induction Hown as [|po owned' [Hlen _] _ IH]; [done|].
  cbn. rewrite length_app, IH.
  unfold normalizePath. rewrite length_map, Hlen. lia.
Qed.

End ConnectLoopFacts.

(** ** The binary STL layout *)

Lemma foldM_range_invariant {A} (I : Z -> A -> Prop) (f : A -> Z -> option A)
    lo hi a :
  lo <= hi -> I lo a ->
  (forall i a, lo <= i < hi -> I i a -> exists a', f a i = Some a' /\ I (i + 1) a') ->
  exists a', foldM f a (range lo hi) = Some a' /\ I hi a'.
Proof.
  intros Hle. remember (Z.to_nat (hi - lo)) as n eqn:Hn.
  revert lo a Hle Hn. induction n as [|n IH]; intros lo a Hle Hn Ha Hstep.
  - assert (lo = hi) as -> by lia. rewrite range_nil by lia. cbn. eauto.
  - rewrite range_cons by lia. cbn [foldM].
    destruct (Hstep lo a) as (a1 & -> & Ha1); [lia|done|]. cbn.
    apply IH; [lia|lia|done|].
    intros i a' Hi. apply Hstep. lia.
Qed.

Lemma le_bytes_length n z : length (le_bytes n z) = n.
Proof. revert z. induction n as [|n IH]; intros z; cbn; [done|]. by rewrite IH. Qed.

(** The number that bytes spell, least significant byte first. *)
Definition le_value (bs : list byte) : Z :=
  foldr (fun b acc => Z.of_N (Byte.to_N b) + 256 * acc) 0 bs.

Lemma byte_of_Z_value z : Z.of_N (Byte.to_N (byte_of_Z z)) = z mod 256.
Proof.
  unfold byte_of_Z.
  pose proof (Z.mod_pos_bound z 256 eq_refl) as Hz.
  destruct (Byte.of_N (Z.to_N (z mod 256))) as [b|] eqn:Hb; cbn.
  - apply Byte.to_of_N in Hb. rewrite Hb. lia.
  - apply Byte.of_N_None_iff in Hb. lia.
Qed.

Lemma le_value_le_bytes n z : le_value (le_bytes n z) = z mod 256 ^ Z.of_nat n.
Proof.
  revert z. induction n as [|n IH]; intros z.
  - cbn. by rewrite Z.mod_1_r.
  - cbn [le_bytes le_value foldr]. fold (le_value (le_bytes n (z / 256))).
    rewrite IH, byte_of_Z_value.
    rewrite Nat2Z.inj_succ, Z.pow_succ_r by lia.
    rewrite Z.rem_mul_r by lia. lia.
Qed.

(** A store just past what is already written moves into the zeros. *)
Lemma setBytes_fill (written bs : list byte) (m : nat) (offset : Z) :
  offset = Z.of_nat (length written) -> (length bs <= m)%nat ->
  setBytes (written ++ replicate m Byte.x00) offset bs
  = Some ((written ++ bs) ++ replicate (m - length bs) Byte.x00).
Proof.
  intros -> Hfit. unfold setBytes.
  rewrite length_app, length_replicate.
  rewrite andb_true_intro by (split; [apply Z.leb_le|apply Z.leb_le]; lia).
  rewrite Nat2Z.id, take_app_length, drop_app_add, drop_replicate.
  by rewrite <- app_assoc.
Qed.

(** The header of the file: the text, padded with zeros to 80 bytes. *)
Definition header80 : list byte := stlHeader ++ replicate 57 Byte.x00.

Lemma header80_lookup i :
  0 <= i < 80 ->
  header80 !! Z.to_nat i = Some (default Byte.x00 (aget stlHeader i)).
Proof.
  intros Hi. unfold aget, header80.
  destruct (Z.ltb_spec i 0); [lia|].
  assert (length stlHeader = 23%nat) as Hlen by reflexivity.
  destruct (decide (Z.to_nat i < 23)%nat) as [Hin|Hout].
  - rewrite lookup_app_l by lia.
    destruct (lookup_lt_is_Some_2 stlHeader (Z.to_nat i)) as [b Hb]; [lia|].
    by rewrite Hb.
  - rewrite lookup_app_r by lia.
    rewrite lookup_replicate_2 by lia.
    by rewrite (lookup_ge_None_2 stlHeader) by lia.
Qed.

Lemma writeHeader_zeros (m : nat) :
  writeHeader (replicate (80 + m) Byte.x00) = Some (header80 ++ replicate m Byte.x00).
Proof.
  unfold writeHeader.
  destruct (foldM_range_invariant
    (fun i buffer => buffer = take (Z.to_nat i) header80
                              ++ replicate (80 - Z.to_nat i + m) Byte.x00)
    (fun buffer i => setBytes buffer i [default Byte.x00 (aget stlHeader i)])
    0 80 (replicate (80 + m) Byte.x00)) as (buffer & -> & ->); [lia|done| |].
  - intros i buffer Hi ->. eexists. split.
    + apply setBytes_fill; [|cbn; lia].
      rewrite length_take. change (length header80) with 80%nat. lia.
    + replace (Z.to_nat (i + 1)) with (S (Z.to_nat i)) by lia.
      rewrite (take_S_r header80 (Z.to_nat i) _ (header80_lookup i Hi)).
      f_equal. f_equal. cbn [length]. lia.
  - by rewrite take_ge by (change (length header80) with 80%nat; lia).
Qed.

Section STLFacts.
Context {F : Type} `{JSNum F}.
Variable Math_sqrt : F -> F.
Variable float32_bits : F -> Z.

(** The four bytes of a number as binary32, little-endian. *)
Definition float32le (v : F) : list byte := le_bytes 4 (float32_bits v).

Definition vectorBytes (v : F * F * F) : list byte :=
  float32le (fst (fst v)) ++ float32le (snd (fst v)) ++ float32le (snd v).

(** The 50-byte record of triangle [i]: normal, three vertices in the
    stored order, attribute byte count 0. *)
Definition facetRecord (positions : list F) (i : Z) : list byte :=
  let v0 := vertexAt positions (i * 3) in
  let v1 := vertexAt positions (i * 3 + 1) in
  let v2 := vertexAt positions (i * 3 + 2) in
  vectorBytes (normalize Math_sqrt (crossVectors (subVectors v1 v0) (subVectors v2 v0)))
  ++ vectorBytes v0 ++ vectorBytes v1 ++ vectorBytes v2
  ++ [Byte.x00; Byte.x00].

(** The whole file, as the format lays it out. *)
Definition stlFile (positions : list F) (triangleCount : Z) : list byte :=
  header80 ++ le_bytes 4 (to_uint32 triangleCount)
  ++ concat (map (facetRecord positions) (range 0 triangleCount)).

Lemma vectorBytes_length v : length (vectorBytes v) = 12%nat.
Proof. unfold vectorBytes, float32le. by rewrite !length_app, !le_bytes_length. Qed.

Lemma facetRecord_length positions i : length (facetRecord positions i) = 50%nat.
Proof.
  unfold facetRecord. cbv zeta. by rewrite !length_app, !vectorBytes_length.
Qed.

Ltac stl_lengths :=
  repeat first [rewrite length_app | rewrite le_bytes_length
               | rewrite vectorBytes_length | rewrite facetRecord_length].

Lemma facets_length positions (l : list Z) :
  length (concat (map (facetRecord positions) l)) = (50 * length l)%nat.
Proof.
  induction l as [|i l IH]; [done|].
  cbn [map concat]. rewrite length_app, facetRecord_length, IH. cbn [length]. lia.
Qed.

Lemma setVector_fill (written : list byte) (m : nat) (offset : Z) (v : F * F * F) :
  offset = Z.of_nat (length written) -> (12 <= m)%nat ->
  setVector float32_bits (written ++ replicate m Byte.x00) offset v
  = Some ((written ++ vectorBytes v) ++ replicate (m - 12) Byte.x00, offset + 12).
Proof.
  intros Hoff Hm. destruct v as [[x y] z]. unfold setVector, setFloat32, vectorBytes.
  cbn [fst snd].
  rewrite setBytes_fill by (stl_lengths; lia). cbn [mbind option_bind].
  rewrite setBytes_fill by (stl_lengths; lia). cbn [mbind option_bind].
  rewrite setBytes_fill by (stl_lengths; lia). cbn [mbind option_bind].
  unfold float32le. stl_lengths. f_equal. f_equal.
  replace (m - 4 - 4 - 4)%nat with (m - 12)%nat by lia.
  by rewrite <- !app_assoc.
Qed.

Lemma writeTriangle_fill (positions : list F) (written : list byte) (m : nat)
    (offset i : Z) :
  offset = Z.of_nat (length written) -> (50 <= m)%nat ->
  writeTriangle Math_sqrt float32_bits positions
    (written ++ replicate m Byte.x00, offset) i
  = Some ((written ++ facetRecord positions i) ++ replicate (m - 50) Byte.x00,
          offset + 50).
Proof.
  intros Hoff Hm. unfold writeTriangle, facetRecord. cbv zeta.
  rewrite setVector_fill by lia. cbn [mbind option_bind].
  rewrite setVector_fill by (stl_lengths; lia). cbn [mbind option_bind].
  rewrite setVector_fill by (stl_lengths; lia). cbn [mbind option_bind].
  rewrite setVector_fill by (stl_lengths; lia). cbn [mbind option_bind].
  rewrite setBytes_fill by (stl_lengths; cbn; lia). cbn [mbind option_bind].
  f_equal. f_equal; [|lia]. cbn [le_bytes length].
  replace (m - 12 - 12 - 12 - 12 - 2)%nat with (m - 50)%nat by lia.
  by rewrite <- !app_assoc.
Qed.

Lemma generateBinarySTL_file (geometry : BufferGeometry F) (t : nat) :
  length (position geometry) = (9 * t)%nat ->
  generateBinarySTL Math_sqrt float32_bits geometry
  = Some (stlFile (position geometry) (Z.of_nat t)).
Proof.
  intros Hlen. unfold generateBinarySTL. cbv zeta. rewrite Hlen.
  replace (Z.of_nat (9 * t) * 50 / 9) with (50 * Z.of_nat t)
    by (rewrite Nat2Z.inj_mul; apply Z.div_unique_exact; lia).
  replace (Z.of_nat (9 * t) / 9) with (Z.of_nat t)
    by (rewrite Nat2Z.inj_mul; apply Z.div_unique_exact; lia).
  replace (trips (9 * t) 9) with (Z.of_nat t).
  2:{ unfold trips. apply (Z.div_unique _ _ _ 8); lia. }
  replace (Z.to_nat (80 + 4 + 50 * Z.of_nat t)) with (80 + (4 + 50 * t))%nat by lia.
  rewrite writeHeader_zeros. cbn [mbind option_bind].
  rewrite setBytes_fill by (rewrite ?le_bytes_length; done || lia).
  cbn [mbind option_bind]. rewrite le_bytes_length.
  set (start := header80 ++ le_bytes 4 (to_uint32 (Z.of_nat t))).
  destruct (foldM_range_invariant
    (fun k st =>
       st = ((start ++ concat (map (facetRecord (position geometry)) (range 0 k)))
             ++ replicate (50 * (t - Z.to_nat k)) Byte.x00,
             84 + 50 * k))
    (writeTriangle Math_sqrt float32_bits (position geometry))
    0 (Z.of_nat t)
    (start ++ replicate (4 + 50 * t - 4) Byte.x00, 84)) as (st & -> & ->).
  - lia.
  - rewrite range_nil by lia. cbn [map concat]. rewrite app_nil_r.
    do 3 f_equal. lia.
  - intros k st Hk ->. eexists. split.
    + apply writeTriangle_fill; [|lia]. unfold start.
      rewrite !length_app, facets_length, range_length, le_bytes_length.
      change (length header80) with 80%nat. lia.
    + f_equal; [|lia].
      rewrite range_snoc by lia. rewrite map_app, concat_app. cbn [map concat].
      replace (50 * (t - Z.to_nat k) - 50)%nat
        with (50 * (t - Z.to_nat (k + 1)))%nat by lia.
      by rewrite app_nil_r, <- !app_assoc.
  - cbn [mbind option_bind fst]. unfold stlFile. fold start.
    replace (50 * (t - Z.to_nat (Z.of_nat t)))%nat with 0%nat by lia.
    cbn [replicate]. unfold start. by rewrite app_nil_r, <- app_assoc.
Qed.

Lemma stlFile_length (positions : list F) (t : nat) :
  length (stlFile positions (Z.of_nat t)) = (84 + 50 * t)%nat.
Proof.
  unfold stlFile.
  rewrite !length_app, le_bytes_length, facets_length, range_length.
  change (length header80) with 80%nat. lia.
Qed.

End STLFacts.

(** A record of [n] bytes among records of [n] bytes. *)
Lemma concat_chunk {A} (n : nat) (chunks : list (list A)) (k : nat) (c : list A) :
  Forall (fun c => length c = n) chunks -> chunks !! k = Some c ->
  take n (drop (n * k) (concat chunks)) = c.
Proof.
  intros Hall. revert k. induction Hall as [|c0 chunks Hc0 _ IH]; intros k Hk; [done|].
  destruct k as [|k]; cbn in Hk.
  - injection Hk as ->. rewrite Nat.mul_0_r. cbn [concat]. rewrite drop_0.
    by rewrite take_app_length' by done.
  - cbn [concat]. replace (n * S k)%nat with (length c0 + n * k)%nat by lia.
    rewrite drop_app_add. by apply IH.
Qed.

Lemma range_lookup lo hi (k : nat) :
  lo + Z.of_nat k < hi -> range lo hi !! k = Some (lo + Z.of_nat k).
Proof.
  intros Hk. unfold range. rewrite list_lookup_fmap.
  rewrite lookup_seq_lt by lia. done.
Qed.

Section STLLayout.
Context {F : Type} `{JSNum F}.
Variable Math_sqrt : F -> F.
Variable float32_bits : F -> Z.

(** C2.  For a solid mesh of [t] triangles (a position array of [9 t]
    floats) [generateBinarySTL] returns [84 + 50 t] bytes: the header text
    padded with zeros to 80 bytes, then the triangle count as a
    little-endian 32-bit number, then for triangle [k], from byte
    [84 + 50 k] on, a 50-byte record made of the 12 bytes of the normal,
    the 36 bytes of the three vertices in stored order and two zero
    bytes. *)
Theorem generateBinarySTL_layout (geometry : BufferGeometry F) (t : nat) :
  length (position geometry) = (9 * t)%nat ->
  exists bytes,
    generateBinarySTL Math_sqrt float32_bits geometry = Some bytes
    /\ length bytes = (84 + 50 * t)%nat
    /\ take 80 bytes = stlHeader ++ replicate 57 Byte.x00
    /\ le_value (take 4 (drop 80 bytes)) = Z.of_nat t mod 2 ^ 32
    /\ forall k, (k < t)%nat ->
         let v0 := vertexAt (position geometry) (Z.of_nat k * 3) in
         let v1 := vertexAt (position geometry) (Z.of_nat k * 3 + 1) in
         let v2 := vertexAt (position geometry) (Z.of_nat k * 3 + 2) in
         let normal :=
           normalize Math_sqrt (crossVectors (subVectors v1 v0) (subVectors v2 v0)) in
         let vertices :=
           vectorBytes float32_bits v0 ++ vectorBytes float32_bits v1
           ++ vectorBytes float32_bits v2 in
         length (vectorBytes float32_bits normal) = 12%nat
         /\ length vertices = 36%nat
         /\ take 50 (drop (84 + 50 * k) bytes)
            = vectorBytes float32_bits normal ++ vertices ++ [Byte.x00; Byte.x00].
Proof.
  intros Hlen. eexists. split; [by apply generateBinarySTL_file|].
  unfold stlFile.
  assert (length header80 = 80%nat) as Hh by reflexivity.
  split; [|split; [|split]].
  - apply stlFile_length.
  - by rewrite take_app_length' by done.
  - rewrite drop_app_length' by done.
    rewrite take_app_length' by (by rewrite le_bytes_length).
    rewrite le_value_le_bytes. unfold to_uint32.
    change (256 ^ Z.of_nat 4) with (2 ^ 32). by rewrite Z.mod_mod.
  - intros k Hk. cbv zeta. split; [apply vectorBytes_length|]. split.
    { by rewrite !length_app, !vectorBytes_length. }
    rewrite app_assoc.
    replace (84 + 50 * k)%nat
      with (length (header80 ++ le_bytes 4 (to_uint32 (Z.of_nat t))) + 50 * k)%nat
      by (rewrite length_app, le_bytes_length, Hh; lia).
    rewrite drop_app_add.
    rewrite (concat_chunk 50 _ k (facetRecord Math_sqrt float32_bits
                                    (position geometry) (Z.of_nat k))).
    + unfold facetRecord. cbv zeta. by rewrite <- !app_assoc.
    + apply Forall_forall. intros c Hc. apply list_elem_of_fmap in Hc as (i & -> & _).
      apply facetRecord_length.
    + rewrite list_lookup_fmap, range_lookup by lia. done.
Qed.

(** The solid has two triangles per triangle of the top surface and two
    per boundary edge, nine floats each. *)
Lemma solidTriangles_count (positions : list F) (indices : list Z) baseThickness :
  let triangles := solidTriangles positions indices baseThickness in
  let tops := length (range_step 0 (Z.of_nat (length indices)) 3) in
  let edges := length (getBoundaryEdges (mkGeometry positions (Some indices))) in
  length triangles = (tops + tops + 2 * edges)%nat
  /\ Forall (fun tri => length tri = 9%nat) triangles.
Proof.
  cbv zeta. unfold solidTriangles. cbv zeta. split.
  - rewrite !length_app, !length_map.
    match goal with |- context [concat (map (wallTriangles ?b) ?l)] =>
      assert (length (concat (map (wallTriangles b) l)) = (2 * length l)%nat) as ->
    end; [|lia].
    generalize (getBoundaryEdges (mkGeometry positions (Some indices))).
    intros l. induction l as [|e l IH]; [done|].
    cbn [map concat]. rewrite length_app, IH. cbn. lia.
  - rewrite !Forall_app. split; [|split].
    + apply Forall_forall. intros tri Htri.
      by apply list_elem_of_fmap in Htri as (i & -> & _).
    + apply Forall_forall. intros tri Htri.
      by apply list_elem_of_fmap in Htri as (i & -> & _).
    + generalize (getBoundaryEdges (mkGeometry positions (Some indices))).
      intros l. induction l as [|e l IH]; [done|].
      cbn [map concat]. apply Forall_app. split; [|done].
      by repeat constructor.
Qed.

Lemma concat_length_uniform {A} (n : nat) (l : list (list A)) :
  Forall (fun c => length c = n) l -> length (concat l) = (n * length l)%nat.
Proof.
  induction 1 as [|c l Hc _ IH]; [cbn; lia|].
  cbn [concat length]. rewrite length_app, IH, Hc. lia.
Qed.

End STLLayout.

(** ** What the serializer is given *)

Lemma setBytes_Some (buffer : list byte) (offset : Z) (bs : list byte) buffer' :
  setBytes buffer offset bs = Some buffer' ->
  length buffer' = length buffer
  /\ 0 <= offset /\ offset + Z.of_nat (length bs) <= Z.of_nat (length buffer).
Proof.
  unfold setBytes.
  destruct (Z.leb_spec 0 offset) as [H0|]; [|done].
  destruct (Z.leb_spec (offset + Z.of_nat (length bs)) (Z.of_nat (length buffer)))
    as [Hfit|]; [|done].
  cbn. intros [= <-]. split; [|done].
  rewrite !length_app, length_take, length_drop. lia.
Qed.

Lemma foldM_range_Some {A} (I : Z -> A -> Prop) (f : A -> Z -> option A)
    lo hi a a' :
  lo <= hi -> I lo a ->
  (forall i a a', lo <= i < hi -> I i a -> f a i = Some a' -> I (i + 1) a') ->
  foldM f a (range lo hi) = Some a' -> I hi a'.
Proof.
  intros Hle. remember (Z.to_nat (hi - lo)) as n eqn:Hn.
  revert lo a Hle Hn. induction n as [|n IH]; intros lo a Hle Hn Ha Hstep.
  - assert (lo = hi) as -> by lia. rewrite range_nil by lia. cbn. by intros [= <-].
  - rewrite range_cons by lia. cbn [foldM].
    destruct (f a lo) as [a1|] eqn:Hf; [|done]. cbn.
    apply IH; [lia|lia| |].
    + apply (Hstep lo a); [lia|done|done].
    + intros i b b' Hi. apply Hstep. lia.
Qed.

Section Serialized.
Context {F : Type} `{JSNum F}.
Variable Math_sqrt : F -> F.
Variable float32_bits : F -> Z.

(** Every solid that [createSolidMesh] builds from an indexed geometry is
    a whole number of triangles, and is serialized. *)
Lemma createSolidMesh_serialized (positions : list F) (indices : list Z)
    (baseThickness : F) :
  let solid := createSolidMesh (mkGeometry positions (Some indices)) baseThickness in
  let t := length (solidTriangles positions indices baseThickness) in
  length (position solid) = (9 * t)%nat
  /\ generateBinarySTL Math_sqrt float32_bits solid
     = Some (stlFile Math_sqrt float32_bits (position solid) (Z.of_nat t)).
Proof.
  cbv zeta.
  assert (length (position (createSolidMesh
                              (mkGeometry positions (Some indices)) baseThickness))
          = (9 * length (solidTriangles positions indices baseThickness))%nat)
    as Hlen.
  { unfold createSolidMesh. cbn [index position]. rewrite length_map.
    destruct (solidTriangles_count positions indices baseThickness) as [_ Hnine].
    by apply concat_length_uniform. }
  split; [done|]. by apply generateBinarySTL_file.
Qed.

Lemma writeTriangle_Some (positions : list F) buffer offset i buffer' offset' :
  writeTriangle Math_sqrt float32_bits positions (buffer, offset) i
  = Some (buffer', offset') ->
  offset' = offset + 50 /\ length buffer' = length buffer
  /\ offset + 50 <= Z.of_nat (length buffer).
Proof.
  unfold writeTriangle, setVector, setFloat32. cbv zeta.
  repeat match goal with
  | |- context [let '(_, _) := ?v in _] => destruct v as [[? ?] ?]
  end.
  repeat match goal with
  | |- context [setBytes ?b ?o ?bs] =>
      let Hs := fresh "Hs" in
      destruct (setBytes b o bs) eqn:Hs; cbn [mbind option_bind]; [|done];
      apply setBytes_Some in Hs
  end.
  intros [= <- <-]. cbn [le_bytes length] in *. rewrite ?le_bytes_length in *. lia.
Qed.

(** A position array that is not a whole number of triangles makes the
    loop write a last, partial record past the end of the buffer: the
    [DataView] throws. *)
Lemma generateBinarySTL_ragged (geometry : BufferGeometry F) :
  Z.of_nat (length (position geometry)) mod 9 <> 0 ->
  generateBinarySTL Math_sqrt float32_bits geometry = None.
Proof.
  intros Hragged. unfold generateBinarySTL. cbv zeta.
  set (n := length (position geometry)) in *.
  set (L := Z.to_nat (80 + 4 + Z.of_nat n * 50 / 9)).
  destruct (writeHeader (replicate L Byte.x00)) as [b1|] eqn:Hhead; [|done].
  cbn [mbind option_bind].
  assert (length b1 = L) as Hb1.
  { unfold writeHeader in Hhead.
    apply (foldM_range_Some (fun _ b => length b = L)) in Hhead; [done|lia| |].
    - apply length_replicate.
    - intros i b b' _ Hb Hset. apply setBytes_Some in Hset. lia. }
  destruct (setBytes b1 80 _) as [b2|] eqn:Hcount; [|done].
  cbn [mbind option_bind]. apply setBytes_Some in Hcount as [Hb2 _].
  destruct (foldM _ _ _) as [[b3 off]|] eqn:Hloop; [|done]. exfalso.
  assert (0 <= Z.of_nat n * 50 / 9) as Hq by (apply Z.div_pos; lia).
  pose proof (Z.div_mod (Z.of_nat n) 9 ltac:(lia)) as Hdm.
  pose proof (Z.mod_pos_bound (Z.of_nat n) 9 ltac:(lia)) as Hr.
  assert (trips n 9 = Z.of_nat n / 9 + 1) as Htrips.
  { unfold trips. symmetry.
    apply (Z.div_unique _ _ _ (Z.of_nat n mod 9 - 1)); lia. }
  assert (Z.of_nat n * 50 / 9 < 50 * (Z.of_nat n / 9 + 1)) as Hshort.
  { apply Z.div_lt_upper_bound; lia. }
  apply (foldM_range_Some
           (fun k st => snd st = 84 + 50 * k
                        /\ length (fst st) = L
                        /\ 84 + 50 * k <= Z.of_nat L)) in Hloop.
  - destruct Hloop as (_ & _ & Hfit). rewrite Htrips in Hfit. lia.
  - rewrite Htrips. lia.
  - cbn [fst snd]. split; [lia|]. split; lia.
  - intros k [b o] [b' o'] Hk (Ho & Hlen & _) Hw. cbn [fst snd] in *.
    apply writeTriangle_Some in Hw. lia.
Qed.

End Serialized.

(** ** End to end: the flat 2 x 2 tile *)

Section FlatTile.
Context {F : Type} `{JSNum F}.
Variable Math_sqrt : F -> F.
Variable Math_exp : F -> F.
Variable float32_bits : F -> Z.

(** The flat 2 x 2 heightfield with all elevations 0. *)
Definition flatTile : ElevationData F :=
  mkElevationData [of_Z 0; of_Z 0; of_Z 0; of_Z 0] 2 2 (of_Z 0) (of_Z 0).

Lemma smoothElevationData_size (data : ElevationData F) passes radius :
  width (smoothElevationData Math_exp data passes radius) = width data
  /\ height (smoothElevationData Math_exp data passes radius) = height data.
Proof. unfold smoothElevationData. by destruct (passes =? 0). Qed.

(** The two triangles of a 2 x 2 grid have four boundary edges, whatever
    the vertex positions. *)
Lemma square_boundary (positions : list F) :
  length (getBoundaryEdges (mkGeometry positions (Some [0; 2; 1; 1; 2; 3]))) = 4%nat.
Proof. reflexivity. Qed.

(** [generateGridMesh] at full resolution on an [N x N] heightfield: the
    arrays it returns. *)
Lemma generateGridMesh_square (data : ElevationData F) (options : MeshOptions F)
    (N : Z) :
  width data = N -> height data = N -> 2 <= N -> N * N <= 2 ^ 32 ->
  default 1%positive (decimationFactor options) = 1%positive ->
  exists mesh,
    generateGridMesh Math_sqrt data options = Some mesh
    /\ Z.of_nat (length (positions mesh)) = 3 * (N * N)
    /\ Z.of_nat (length (indices mesh)) = 6 * ((N - 1) * (N - 1))
    /\ forall gy gx d, 0 <= gy < N - 1 -> 0 <= gx < N - 1 -> 0 <= d < 6 ->
         aget (indices mesh) (6 * (gy * (N - 1) + gx) + d)
         = aget (cellIndices N gy gx) d.
Proof.
  intros Hw Hh HN Hfit Hdec.
  unfold generateGridMesh. cbv zeta. rewrite Hdec, Hw, Hh, !ceil_div_1.
  rewrite !talloc_Some by nia. cbn [mbind option_bind].
  match goal with |- context [calculateNormals _ ?p ?i ?v] =>
    destruct (calculateNormals_Some Math_sqrt p i v) as [normals ->]; [nia|]
  end.
  cbn [mbind option_bind]. eexists. split; [done|]. cbn [positions indices].
  pose proof (gridCells_written N
    (replicate (Z.to_nat ((N - 1) * (N - 1) * 2 * 3)) 0) HN Hfit) as Hcells.
  destruct Hcells as (_ & Hlen & Hslots).
  { rewrite length_replicate. nia. }
  split; [|split; [done|]].
  - apply (fold_left_preserves
             (fun p : list F => Z.of_nat (length p) = 3 * (N * N))).
    + rewrite length_replicate. nia.
    + intros p gy _ Hp.
      apply (fold_left_preserves
               (fun p : list F => Z.of_nat (length p) = 3 * (N * N))); [done|].
      intros p' gx _ Hp'. by rewrite gridVertex_length.
  - intros gy gx d Hgy Hgx Hd. apply Hslots; (lia || nia).
Qed.

(** The top surface of the flat tile: four vertices, two triangles. *)
Lemma flatTile_top (options : MeshOptions F) :
  default 1%positive (decimationFactor options) = 1%positive ->
  exists mesh,
    generateTerrainMesh Math_sqrt Math_exp flatTile options = Some mesh
    /\ length (positions mesh) = 12%nat
    /\ indices mesh = [0; 2; 1; 1; 2; 3].
Proof.
  intros Hdec. unfold generateTerrainMesh. cbv zeta. rewrite Hdec.
  set (smoothed := smoothElevationData _ _ _ _).
  destruct (smoothElevationData_size flatTile
              (default 1 (smoothingPasses options))
              (default 1 (smoothingRadius options))) as [Hw Hh].
  fold smoothed in Hw, Hh. cbn in Hw, Hh.
  assert (exists mesh,
            generateGridMesh Math_sqrt smoothed
              (mkMeshOptions None None (verticalExaggeration options)
                 (meshSize options) (Some 1%positive) None) = Some mesh
            /\ Z.of_nat (length (positions mesh)) = 12
            /\ indices mesh = [0; 2; 1; 1; 2; 3])
    as (mesh & -> & Hpos & Hindices).
  { destruct (generateGridMesh_square smoothed
                (mkMeshOptions None None (verticalExaggeration options)
                   (meshSize options) (Some 1%positive) None) 2 Hw Hh)
      as (mesh & Hmesh & Hpos & Hlen & Hcells); [lia|lia|done|].
    exists mesh. split; [done|]. split; [lia|].
    pose proof (Hcells 0 0 0 ltac:(lia) ltac:(lia) ltac:(lia)) as H0.
    pose proof (Hcells 0 0 1 ltac:(lia) ltac:(lia) ltac:(lia)) as H1.
    pose proof (Hcells 0 0 2 ltac:(lia) ltac:(lia) ltac:(lia)) as H2.
    pose proof (Hcells 0 0 3 ltac:(lia) ltac:(lia) ltac:(lia)) as H3.
    pose proof (Hcells 0 0 4 ltac:(lia) ltac:(lia) ltac:(lia)) as H4.
    pose proof (Hcells 0 0 5 ltac:(lia) ltac:(lia) ltac:(lia)) as H5.
    destruct (indices mesh) as [|i0 [|i1 [|i2 [|i3 [|i4 [|i5 [|i6 l]]]]]]];
      cbn in Hlen; try lia.
    vm_compute in H0, H1, H2, H3, H4, H5. congruence. }
  cbn [mbind option_bind].
  destruct (0 <? default 0 (laplacianPasses options)).
  - rewrite !ceil_div_1.
    match goal with |- context [calculateNormals _ ?p ?i ?v] =>
      destruct (calculateNormals_Some Math_sqrt p i v) as [normals ->]; [cbn; lia|]
    end.
    cbn [mbind option_bind]. eexists. split; [done|]. cbn [positions indices].
    split; [|done]. rewrite applyLaplacianSmoothing_length. lia.
  - eexists. split; [done|]. split; [lia|done].
Qed.

(** C1.  On the flat 2 x 2 heightfield, with [baseThickness = 5] and
    [tileSize = 10] (whatever the exaggeration and the smoothing level),
    the export pipeline builds a top surface of 2 triangles with 4 boundary
    edges, [createSolidMesh] turns it into a solid of 12 triangles
    (2 top, 2 bottom, 2 per boundary edge; 9 floats each), and
    [generateBinarySTL] serializes that solid into exactly 684 bytes. *)
Theorem flat_tile_export (exaggeration : F) (level : option Z) :
  let options := mkExportOptions (of_Z 10) (of_Z 5) exaggeration level in
  exists mesh bytes,
    generateTerrainMesh Math_sqrt Math_exp flatTile
      (mkMeshOptions (Some (default 1 level)) (Some 1) (Some exaggeration)
         (Some (of_Z 10)) (Some 1%positive)
         (Some (if 0 <? default 1 level then 1 else 0))) = Some mesh
    /\ let top :=
         scaleGeometry (mkGeometry (positions mesh) (Some (indices mesh)))
                       (of_Z 10 / of_Z 10)%js in
       let solid := createSolidMesh top (of_Z 5) in
       length (indices mesh) = (3 * 2)%nat
       /\ length (getBoundaryEdges top) = 4%nat
       /\ length (position solid) = (9 * (2 + 2 + 2 * 4))%nat
       /\ exportSolid Math_sqrt Math_exp flatTile options = Some solid
       /\ generateBinarySTL Math_sqrt float32_bits solid = Some bytes
       /\ exportTerrainToSTL Math_sqrt Math_exp float32_bits flatTile options
          = Some bytes
       /\ length bytes = 684%nat.
Proof.
  cbv zeta.
  destruct (flatTile_top
    (mkMeshOptions (Some (default 1 level)) (Some 1) (Some exaggeration)
       (Some (of_Z 10)) (Some 1%positive)
       (Some (if 0 <? default 1 level then 1 else 0))))
    as (mesh & Hmesh & Hpos & Hidx); [done|].
  set (top := scaleGeometry (mkGeometry (positions mesh) (Some (indices mesh)))
                            (of_Z 10 / of_Z 10)%js).
  set (solid := createSolidMesh top (of_Z 5)).
  assert (length (getBoundaryEdges top) = 4%nat) as Hedges.
  { unfold top, scaleGeometry. cbn [position index]. rewrite Hidx.
    apply square_boundary. }
  assert (length (position solid) = (9 * (2 + 2 + 2 * 4))%nat) as Hsolid.
  { unfold solid, createSolidMesh, top, scaleGeometry in *. cbn [position index] in *.
    rewrite length_map.
    match goal with |- context [solidTriangles ?p ?i ?b] =>
      destruct (solidTriangles_count p i b) as [Hcount Hnine]
    end.
    rewrite (concat_length_uniform 9) by done. rewrite Hcount, Hedges.
    rewrite Hidx. reflexivity. }
  pose proof (generateBinarySTL_file Math_sqrt float32_bits solid 12 Hsolid)
    as Hbytes.
  pose proof (stlFile_length Math_sqrt float32_bits (position solid) 12) as Hlen.
  exists mesh, (stlFile Math_sqrt float32_bits (position solid) 12).
  split; [done|].
  assert (exportSolid Math_sqrt Math_exp flatTile
            (mkExportOptions (of_Z 10) (of_Z 5) exaggeration level) = Some solid)
    as Hexport.
  { unfold exportSolid. cbn [smoothingLevel exportExaggeration tileSize baseThickness].
    by rewrite Hmesh. }
  split; [by rewrite Hidx|]. split; [done|]. split; [done|]. split; [done|].
  split; [done|]. split; [|done].
  unfold exportTerrainToSTL. by rewrite Hexport.
Qed.

End FlatTile.


(** ** Contour thresholds *)

Section ThresholdFacts.
Context {F : Type} `{JSNum F}.

(** In every arithmetic: one layer for each [i] from 1 to [numLayers - 1],
    at the threshold [min + range * i / numLayers]. *)
Lemma generateContourLayers_thresholds (data : ElevationData F) (numLayers : Z) :
  map elevation (generateContourLayers data numLayers)
  = map (fun i => (minElevation data
                   + ((maxElevation data - minElevation data) * of_Z i)
                     / of_Z numLayers)%js)
        (range 1 numLayers).
Proof.
  unfold generateContourLayers. cbv zeta. rewrite <- list_fmap_compose.
  by apply list_fmap_ext.
Qed.

End ThresholdFacts.

Section Thresholds.
Context {F : Type} `{JSNum F}.

(** C6, as amended.  In every arithmetic, binary64 included, for every
    heightfield and every [numLayers], [generateContourLayers] returns
    [numLayers - 1] layers (none when [numLayers <= 1]); the layer of index
    [i - 1] has the threshold [min + range * i / numLayers], with
    [range = max - min], for [i = 1 .. numLayers - 1], and its paths are
    those that [connectSegments] traces through the segments of that
    threshold. *)
Theorem contour_thresholds (data : ElevationData F) (numLayers : Z) :
  let layers := generateContourLayers data numLayers in
  let range_ := (maxElevation data - minElevation data)%js in
  let threshold (i : Z) :=
    (minElevation data + (range_ * of_Z i) / of_Z numLayers)%js in
  Z.of_nat (length layers) = Z.max 0 (numLayers - 1)
  /\ map elevation layers = map threshold (range 1 numLayers)
  /\ forall i, 1 <= i < numLayers ->
       exists layer,
         layers !! Z.to_nat (i - 1) = Some layer
         /\ elevation layer = threshold i
         /\ paths layer
            = connectSegments (layerSegments data (threshold i))
                (width data) (height data).
Proof.
  cbv zeta. split; [|split].
  - unfold generateContourLayers. cbv zeta. rewrite length_map, range_length. lia.
  - apply generateContourLayers_thresholds.
  - intros i Hi. unfold generateContourLayers. cbv zeta.
    rewrite list_lookup_fmap, range_lookup by lia. cbn.
    replace (1 + Z.of_nat (Z.to_nat (i - 1))) with i by lia.
    eexists. split; [reflexivity|]. done.
Qed.

End Thresholds.

(** ** Reading arrays *)

Lemma aget_lookup {A} (a : list A) (i : Z) :
  0 <= i -> aget a i = a !! Z.to_nat i.
Proof. intros Hi. unfold aget. by destruct (Z.ltb_spec i 0); [lia|]. Qed.

Lemma concat_lookup_uniform {A} (n : nat) (chunks : list (list A)) (k i : nat) c :
  Forall (fun c => length c = n) chunks -> chunks !! k = Some c -> (i < n)%nat ->
  concat chunks !! (n * k + i)%nat = c !! i.
Proof.
  intros Hall Hk Hi.
  rewrite <- (concat_chunk n chunks k c Hall Hk).
  rewrite lookup_take_lt by lia. by rewrite lookup_drop.
Qed.

(** ** Gaussian smoothing as a weighted average *)



Section SmoothingFacts.
Context {F : Type} `{JSNum F}.
Variable Math_exp : F -> F.













End SmoothingFacts.

(** ** The grid mesh at any decimation *)

Lemma ceil_div_pos a d : 1 <= a -> 1 <= ceil_div a d.
Proof.
  intros Ha. unfold ceil_div.
  assert (- a / Z.pos d <= -1); [|lia].
  apply Z.lt_succ_r. apply Z.div_lt_upper_bound; lia.
Qed.

Lemma ceil_div_0 d : ceil_div 0 d = 0.
Proof. unfold ceil_div. cbn. by rewrite Z.div_0_l. Qed.

Section GridVertices.
Context {F : Type} `{JSNum F}.
Variable Math_sqrt : F -> F.

(** What [generateGridMesh] stores for coordinate [k] of the vertex in
    row [gy], column [gx]: its place in the square of side [meshSize], or
    the scaled height of the source sample it stands for, the sample at
    [(gx d, gy d)] moved back into the last column and row if beyond. *)
Definition gridVertexCoord (data : ElevationData F) (decimation : positive)
    (meshSize scaleFactor : F) (gridWidth gridHeight gy gx k : Z) : F :=
  let halfSize := (meshSize / of_Z 2)%js in
  let sx := Z.min (gx * Zpos decimation) (width data - 1) in
  let sy := Z.min (gy * Zpos decimation) (height data - 1) in
  let elevation :=
    default (minElevation data) (aget (elevations data) (sy * width data + sx)) in
  if k =? 0 then
    Math_fround ((of_Z gx / of_Z (gridWidth - 1)) * meshSize - halfSize)%js
  else if k =? 1 then
    Math_fround ((of_Z gy / of_Z (gridHeight - 1)) * meshSize - halfSize)%js
  else Math_fround ((elevation - minElevation data) * scaleFactor)%js.

(** After [c] vertices: those written so far hold their coordinates. *)
Definition verticesWritten (data : ElevationData F) (decimation : positive)
    (meshSize scaleFactor : F) (gw gh total c : Z) (positions : list F) : Prop :=
  Z.of_nat (length positions) = total
  /\ forall gy gx k, 0 <= gy -> 0 <= gx < gw -> gy * gw + gx < c -> 0 <= k < 3 ->
       aget positions ((gy * gw + gx) * 3 + k)
       = Some (gridVertexCoord data decimation meshSize scaleFactor gw gh gy gx k).

Lemma gridVertex_written (data : ElevationData F) d meshSize scaleFactor
    gw gh total gy gx positions :
  0 <= gy -> 0 <= gx < gw -> (gy * gw + gx + 1) * 3 <= total ->
  verticesWritten data d meshSize scaleFactor gw gh total (gy * gw + gx) positions ->
  verticesWritten data d meshSize scaleFactor gw gh total (gy * gw + gx + 1)
    (gridVertex data d meshSize scaleFactor gw gh positions gy gx).
Proof.
  intros Hgy Hgx Htotal [Hlen Hold].
  assert (0 <= gy * gw) by nia.
  split; [by rewrite gridVertex_length|].
  intros gy' gx' k Hgy' Hgx' Hlt Hk. unfold gridVertex. cbv zeta.
  destruct (decide (gy' * gw + gx' < gy * gw + gx)) as [Hbefore|Hnow].
  - rewrite !aget_tset_ne by lia. by apply Hold.
  - assert (gy' * gw + gx' = gy * gw + gx) as Hsame by lia.
    apply vertex_index_inj in Hsame as [-> ->]; [|lia|lia].
    unfold gridVertexCoord. cbv zeta.
    assert (k = 0 \/ k = 1 \/ k = 2) as [->|[->| ->]] by lia; cbn [Z.eqb Pos.eqb].
    + rewrite Z.add_0_r. rewrite !aget_tset_ne by lia.
      by rewrite aget_tset_eq by lia.
    + rewrite aget_tset_ne by lia.
      by rewrite aget_tset_eq by (rewrite ?tset_length; lia).
    + by rewrite aget_tset_eq by (rewrite ?tset_length; lia).
Qed.

Lemma gridVertices_written (data : ElevationData F) d meshSize scaleFactor gw gh
    (positions : list F) :
  0 <= gw -> 0 <= gh -> Z.of_nat (length positions) = gw * gh * 3 ->
  verticesWritten data d meshSize scaleFactor gw gh (gw * gh * 3) (gh * gw)
    (fold_left (fun positions gy =>
       fold_left (fun positions gx =>
         gridVertex data d meshSize scaleFactor gw gh positions gy gx)
         (range 0 gw) positions)
       (range 0 gh) positions).
Proof.
  intros Hgw Hgh Hlen.
  apply (fold_range_invariant
           (fun gy p => verticesWritten data d meshSize scaleFactor gw gh
                          (gw * gh * 3) (gy * gw) p)).
  - lia.
  - split; [done|]. intros gy gx k ? ? ?. nia.
  - intros gy p Hgy Hp.
    replace ((gy + 1) * gw) with (gy * gw + gw) by lia.
    apply (fold_range_invariant
             (fun gx p => verticesWritten data d meshSize scaleFactor gw gh
                            (gw * gh * 3) (gy * gw + gx) p)).
    + lia.
    + by rewrite Z.add_0_r.
    + intros gx p' Hgx Hp'.
      replace (gy * gw + (gx + 1)) with (gy * gw + gx + 1) by lia.
      apply gridVertex_written; [lia|lia|nia|done].
Qed.

(** The index loop writes vertex indices only. *)
Lemma gridCell_below (gw gh : Z) (st : list Z * Z) gy gx :
  gw * gh <= 2 ^ 32 -> 0 <= gy < gh - 1 -> 0 <= gx < gw - 1 ->
  Forall (fun i => 0 <= i < gw * gh) (fst st) ->
  Forall (fun i => 0 <= i < gw * gh) (fst (gridCell gw st gy gx))
  /\ length (fst (gridCell gw st gy gx)) = length (fst st).
Proof.
  intros Hfit Hgy Hgx Hall. destruct st as [indices triIdx]. cbn [fst] in *.
  unfold gridCell. cbv zeta. cbn [fst].
  assert (0 <= gy * gw) by nia.
  assert ((gy + 1) * gw + gx + 1 < gw * gh) by nia.
  rewrite !to_uint32_small by lia.
  split; [|by rewrite !tset_length].
  unfold tset.
  repeat match goal with
  | |- context [if ?c then _ else _] => destruct c
  end;
  repeat (apply Forall_insert; [|lia]); done.
Qed.

Lemma accumulate_length (normals : list F) idx k v :
  length (accumulate normals idx k v) = length normals.
Proof. unfold accumulate. destruct idx; [apply tset_length|done]. Qed.

Lemma accumulateFace_length (positions : list F) (indices : list Z) st i :
  length (fst (accumulateFace positions indices st i)) = length (fst st).
Proof.
  unfold accumulateFace. cbv zeta.
  generalize [aget indices i; aget indices (i + 1); aget indices (i + 2)].
  intros l. revert st. induction l as [|idx l IH]; intros st; [done|].
  cbn [fold_left]. rewrite IH. destruct st as [normals counts]. cbn [fst].
  by rewrite !accumulate_length.
Qed.

Lemma calculateNormals_length (positions : list F) (indices : list Z)
    (vertexCount : Z) normals :
  calculateNormals Math_sqrt positions indices vertexCount = Some normals ->
  Z.of_nat (length normals) = vertexCount * 3.
Proof.
  unfold calculateNormals.
  destruct (Z.lt_ge_cases vertexCount 0) as [Hneg|Hpos].
  { rewrite (talloc_None (of_Z 0)) by lia. by cbn. }
  rewrite !talloc_Some by lia. cbn [mbind option_bind].
  destruct (fold_left _ _ _) as [acc counts] eqn:Hfold.
  intros [= <-].
  assert (length acc = Z.to_nat (vertexCount * 3)) as Hacc.
  { replace acc with (fst (acc, counts)) by done. rewrite <- Hfold.
    apply (fold_left_preserves
             (fun st : list F * list Z => length (fst st) = Z.to_nat (vertexCount * 3))).
    - cbn [fst]. apply length_replicate.
    - intros st i _ Hst. by rewrite accumulateFace_length. }
  assert (length (fold_left (normalizeVertex Math_sqrt counts) (range 0 vertexCount) acc)
          = Z.to_nat (vertexCount * 3)) as ->; [|lia].
  apply (fold_left_preserves (fun n : list F => length n = Z.to_nat (vertexCount * 3)));
    [done|].
  intros n i _ Hn. unfold normalizeVertex. destruct (bool_decide _); [|done].
  cbv zeta. destruct (_ >? _)%js; [|done]. by rewrite !tset_length.
Qed.

(** The arrays of [generateGridMesh] on a heightfield with at least one
    row and one column. *)
Lemma generateGridMesh_written (data : ElevationData F) (options : MeshOptions F) :
  let decimation := default 1%positive (decimationFactor options) in
  let meshSize := default (of_Z 10) (meshSize options) in
  let elevationRange := or_else (maxElevation data - minElevation data)%js (of_Z 1) in
  let scaleFactor :=
    ((of_Z 3 / elevationRange) * default (lit 15 10) (verticalExaggeration options))%js in
  let gw := ceil_div (width data) decimation in
  let gh := ceil_div (height data) decimation in
  1 <= width data -> 1 <= height data -> gw * gh <= 2 ^ 32 ->
  exists mesh,
    generateGridMesh Math_sqrt data options = Some mesh
    /\ Z.of_nat (length (positions mesh)) = gw * gh * 3
    /\ Z.of_nat (length (normals mesh)) = gw * gh * 3
    /\ Z.of_nat (length (indices mesh)) = (gw - 1) * (gh - 1) * 2 * 3
    /\ Forall (fun i => 0 <= i < gw * gh) (indices mesh)
    /\ forall gy gx k, 0 <= gy < gh -> 0 <= gx < gw -> 0 <= k < 3 ->
         aget (positions mesh) ((gy * gw + gx) * 3 + k)
         = Some (gridVertexCoord data decimation meshSize scaleFactor gw gh gy gx k).
Proof.
  intros d ms er sf gw gh Hw Hh Hfit.
  pose proof (ceil_div_pos (width data) d Hw) as Hgw.
  pose proof (ceil_div_pos (height data) d Hh) as Hgh.
  fold gw in Hgw. fold gh in Hgh.
  unfold generateGridMesh. cbv zeta.
  fold d. fold gw. fold gh. fold ms. fold er. fold sf.
  rewrite !talloc_Some by nia. cbn [mbind option_bind].
  match goal with |- context [calculateNormals _ ?p ?i ?v] =>
    destruct (calculateNormals_Some Math_sqrt p i v) as [computed Hnormals]; [nia|];
    rewrite Hnormals; apply calculateNormals_length in Hnormals
  end.
  cbn [mbind option_bind]. eexists. split; [done|]. cbn [positions indices normals].
  destruct (gridVertices_written data d ms sf gw gh
              (replicate (Z.to_nat (gw * gh * 3)) (of_Z 0))) as [Hlen Hslots];
    [lia|lia|rewrite length_replicate; nia|].
  split; [done|]. split; [done|].
  assert (Forall (fun i => 0 <= i < gw * gh)
            (fst (fold_left (fun st gy =>
                    fold_left (fun st gx => gridCell gw st gy gx) (range 0 (gw - 1)) st)
                  (range 0 (gh - 1))
                  (replicate (Z.to_nat ((gw - 1) * (gh - 1) * 2 * 3)) 0, 0)))
          /\ length (fst (fold_left (fun st gy =>
                    fold_left (fun st gx => gridCell gw st gy gx) (range 0 (gw - 1)) st)
                  (range 0 (gh - 1))
                  (replicate (Z.to_nat ((gw - 1) * (gh - 1) * 2 * 3)) 0, 0)))
             = Z.to_nat ((gw - 1) * (gh - 1) * 2 * 3)) as [Hvalid Hilen].
  { apply (fold_left_preserves
             (fun st : list Z * Z =>
                Forall (fun i => 0 <= i < gw * gh) (fst st)
                /\ length (fst st) = Z.to_nat ((gw - 1) * (gh - 1) * 2 * 3))).
    - cbn [fst]. split; [|apply length_replicate].
      apply Forall_replicate. nia.
    - intros st gy Hgy Hst. apply elem_of_range in Hgy.
      apply (fold_left_preserves
             (fun st : list Z * Z =>
                Forall (fun i => 0 <= i < gw * gh) (fst st)
                /\ length (fst st) = Z.to_nat ((gw - 1) * (gh - 1) * 2 * 3))); [done|].
      intros st' gx Hgx [Hall Hl]. apply elem_of_range in Hgx.
      destruct (gridCell_below gw gh st' gy gx) as [Hall' Hl']; try done; try lia.
      split; [done|]. by rewrite Hl'. }
  split; [rewrite Hilen; nia|]. split; [done|].
  intros gy gx k Hgy Hgx Hk. apply Hslots; (lia || nia).
Qed.

End GridVertices.

(** ** Inputs outside the data model *)

Section Unvalidated.
Context {F : Type} `{JSNum F}.
Variable Math_sqrt : F -> F.
Variable Math_exp : F -> F.



End Unvalidated.

(** ** Order and special values of binary64 *)

(** A number: any binary64 value but [NaN]. *)
Definition number (x : float) : Prop := PrimFloat.is_nan x = false.

(** [x <= y] as the program's comparison decides it. *)
Definition fle (x y : float) : Prop := PrimFloat.leb x y = true.

Section Binary64Order.

Lemma SFcompare_refl (a : spec_float) :
  a <> S754_nan -> SFcompare a a = Some Eq.
Proof.
  destruct a as [[]|[]| |[] m e]; try done; intros _; cbn;
    rewrite Z.compare_refl; change (Pos.compare_cont Eq m m) with (Pos.compare m m);
    by rewrite Pos.compare_refl.
Qed.

Lemma SFcompare_number (a b : spec_float) :
  a <> S754_nan -> b <> S754_nan -> exists c, SFcompare a b = Some c.
Proof.
  destruct a as [[]|[]| |[] ma ea], b as [[]|[]| |[] mb eb]; cbn; intros Ha Hb;
    try done; eauto.
Qed.

Lemma SFcompare_swap (a b : spec_float) (c : comparison) :
  SFcompare a b = Some c -> SFcompare b a = Some (CompOpp c).
Proof.
  unfold SFcompare.
  destruct a as [[]|[]| |[] ma ea], b as [[]|[]| |[] mb eb]; try done;
    intros [= <-]; try done;
    change (Pos.compare_cont Eq) with Pos.compare;
    rewrite (Z.compare_antisym ea eb), (Pos.compare_antisym ma mb);
    destruct (ea ?= eb), (ma ?= mb)%positive; done.
Qed.

Lemma SFleb_trans (a b c : spec_float) :
  SFleb a b = true -> SFleb b c = true -> SFleb a c = true.
Proof.
  unfold SFleb, SFcompare.
  destruct a as [[]|[]| |[] ma ea], b as [[]|[]| |[] mb eb], c as [[]|[]| |[] mc ec];
    try done;
    change (Pos.compare_cont Eq) with Pos.compare;
    destruct (Z.compare_spec ea eb), (Z.compare_spec eb ec), (Z.compare_spec ea ec);
    try done; try lia;
    destruct (Pos.compare_spec ma mb), (Pos.compare_spec mb mc), (Pos.compare_spec ma mc);
    cbn; try done; lia.
Qed.

Lemma number_spec (x : float) : number x <-> Prim2SF x <> S754_nan.
Proof.
  unfold number, PrimFloat.is_nan. rewrite FloatAxioms.eqb_spec. unfold SFeqb. split.
  - intros Hx Hnan. rewrite Hnan in Hx. done.
  - intros Hx. by rewrite SFcompare_refl.
Qed.

Lemma not_number (x : float) : ~ number x -> x = PrimFloat.nan.
Proof.
  intros Hx. apply Prim2SF_inj.
  destruct (Prim2SF x) eqn:Hsf; try (destruct Hx; apply number_spec; congruence).
  reflexivity.
Qed.

Lemma number_dec (x : float) : {number x} + {x = PrimFloat.nan}.
Proof.
  destruct (PrimFloat.is_nan x) eqn:Hx; [right|by left].
  apply not_number. unfold number. congruence.
Qed.

Lemma fle_refl (x : float) : number x -> fle x x.
Proof.
  intros Hx. apply number_spec in Hx. unfold fle.
  rewrite leb_spec. unfold SFleb. by rewrite SFcompare_refl.
Qed.

Lemma fle_trans (x y z : float) : fle x y -> fle y z -> fle x z.
Proof. unfold fle. rewrite !leb_spec. apply SFleb_trans. Qed.

Lemma flt_fle (x y : float) : PrimFloat.ltb x y = true -> fle x y.
Proof.
  unfold fle. rewrite ltb_spec, leb_spec. unfold SFltb, SFleb.
  by destruct (SFcompare _ _) as [[]|].
Qed.

(** Numbers are totally ordered: what is not below is at or above. *)
Lemma not_flt_fle (x y : float) :
  number x -> number y -> PrimFloat.ltb x y = false -> fle y x.
Proof.
  intros Hx%number_spec Hy%number_spec. unfold fle.
  rewrite ltb_spec, leb_spec. unfold SFltb, SFleb.
  destruct (SFcompare_number _ _ Hx Hy) as [c Hc].
  rewrite Hc, (SFcompare_swap _ _ _ Hc). by destruct c.
Qed.

(** [Math.min] and [Math.max] of two numbers: one of the two, at or
    below (above) both. *)
Lemma b64_min_number (a b : float) :
  number a -> number b ->
  let m := Binary64.b64_min a b in
  (m = a \/ m = b) /\ fle m a /\ fle m b.
Proof.
  intros Ha Hb. cbv zeta. unfold Binary64.b64_min.
  unfold number in Ha, Hb. rewrite Ha, Hb. cbn [orb].
  destruct (PrimFloat.ltb a b) eqn:Hab.
  { split; [by left|]. split; [by apply fle_refl|by apply flt_fle]. }
  destruct (PrimFloat.ltb b a) eqn:Hba.
  { split; [by right|]. split; [by apply flt_fle|by apply fle_refl]. }
  destruct (Binary64.is_neg_zero a).
  - split; [by left|]. split; [by apply fle_refl|by apply not_flt_fle].
  - split; [by right|]. split; [by apply not_flt_fle|by apply fle_refl].
Qed.

Lemma b64_max_number (a b : float) :
  number a -> number b ->
  let m := Binary64.b64_max a b in
  (m = a \/ m = b) /\ fle a m /\ fle b m.
Proof.
  intros Ha Hb. cbv zeta. unfold Binary64.b64_max.
  unfold number in Ha, Hb. rewrite Ha, Hb. cbn [orb].
  destruct (PrimFloat.ltb a b) eqn:Hab.
  { split; [by right|]. split; [by apply flt_fle|by apply fle_refl]. }
  destruct (PrimFloat.ltb b a) eqn:Hba.
  { split; [by left|]. split; [by apply fle_refl|by apply flt_fle]. }
  destruct (Binary64.is_neg_zero a).
  - split; [by right|]. split; [by apply not_flt_fle|by apply fle_refl].
  - split; [by left|]. split; [by apply fle_refl|by apply not_flt_fle].
Qed.

Lemma b64_min_nan_l (b : float) : Binary64.b64_min PrimFloat.nan b = PrimFloat.nan.
Proof. reflexivity. Qed.

Lemma b64_min_nan_r (a : float) : Binary64.b64_min a PrimFloat.nan = PrimFloat.nan.
Proof. unfold Binary64.b64_min. by rewrite orb_true_r. Qed.

Lemma b64_max_nan_l (b : float) : Binary64.b64_max PrimFloat.nan b = PrimFloat.nan.
Proof. reflexivity. Qed.

Lemma b64_max_nan_r (a : float) : Binary64.b64_max a PrimFloat.nan = PrimFloat.nan.
Proof. unfold Binary64.b64_max. by rewrite orb_true_r. Qed.

(** The running minimum of numbers: a number, the start or one of them,
    at or below the start and each of them. *)
Lemma fold_min_numbers (l : list float) (a : float) :
  number a -> Forall number l ->
  let m := fold_left Binary64.b64_min l a in
  number m /\ (m = a \/ m ∈ l) /\ fle m a /\ Forall (fle m) l.
Proof.
  intros Ha Hl. revert a Ha. induction Hl as [|v l Hv _ IH]; intros a Ha; cbv zeta.
  - cbn. split; [done|]. split; [by left|]. split; [by apply fle_refl|done].
  - cbn [fold_left].
    destruct (b64_min_number a v Ha Hv) as (Hone & Hma & Hmv).
    destruct (IH (Binary64.b64_min a v)) as (Hnum & Hin & Hle & Hall).
    { by destruct Hone as [-> | ->]. }
    split; [done|]. split.
    { destruct Hin as [->|Hin]; [|right; by right].
      destruct Hone as [-> | ->]; [by left|right; left]. }
    split; [by eapply fle_trans|].
    constructor; [by eapply fle_trans|done].
Qed.

Lemma fold_max_numbers (l : list float) (a : float) :
  number a -> Forall number l ->
  let m := fold_left Binary64.b64_max l a in
  number m /\ (m = a \/ m ∈ l) /\ fle a m /\ Forall (fun v => fle v m) l.
Proof.
  intros Ha Hl. revert a Ha. induction Hl as [|v l Hv _ IH]; intros a Ha; cbv zeta.
  - cbn. split; [done|]. split; [by left|]. split; [by apply fle_refl|done].
  - cbn [fold_left].
    destruct (b64_max_number a v Ha Hv) as (Hone & Hma & Hmv).
    destruct (IH (Binary64.b64_max a v)) as (Hnum & Hin & Hle & Hall).
    { by destruct Hone as [-> | ->]. }
    split; [done|]. split.
    { destruct Hin as [->|Hin]; [|right; by right].
      destruct Hone as [-> | ->]; [by left|right; left]. }
    split; [by eapply fle_trans|].
    constructor; [by eapply fle_trans|done].
Qed.

(** [NaN] is absorbing. *)
Lemma fold_min_nan (l : list float) : fold_left Binary64.b64_min l PrimFloat.nan = PrimFloat.nan.
Proof. induction l as [|v l IH]; [done|]. cbn [fold_left]. by rewrite b64_min_nan_l. Qed.

Lemma fold_max_nan (l : list float) : fold_left Binary64.b64_max l PrimFloat.nan = PrimFloat.nan.
Proof. induction l as [|v l IH]; [done|]. cbn [fold_left]. by rewrite b64_max_nan_l. Qed.

Lemma fold_min_some_nan (l : list float) (a : float) :
  ~ Forall number l -> fold_left Binary64.b64_min l a = PrimFloat.nan.
Proof.
  revert a. induction l as [|v l IH]; intros a Hl; [by destruct Hl|].
  cbn [fold_left]. destruct (number_dec v) as [Hv| ->].
  - apply IH. intros Hall. apply Hl. by constructor.
  - by rewrite b64_min_nan_r, fold_min_nan.
Qed.

Lemma fold_max_some_nan (l : list float) (a : float) :
  ~ Forall number l -> fold_left Binary64.b64_max l a = PrimFloat.nan.
Proof.
  revert a. induction l as [|v l IH]; intros a Hl; [by destruct Hl|].
  cbn [fold_left]. destruct (number_dec v) as [Hv| ->].
  - apply IH. intros Hall. apply Hl. by constructor.
  - by rewrite b64_max_nan_r, fold_max_nan.
Qed.

(** From [Infinity] (from [-Infinity]) the running minimum (maximum) of
    a non-empty list of numbers is one of them. *)
Lemma fold_min_least (l : list float) :
  Forall number l -> l <> [] ->
  let m := fold_left Binary64.b64_min l PrimFloat.infinity in
  m ∈ l /\ Forall (fle m) l.
Proof.
  intros Hl Hne. cbv zeta. destruct Hl as [|v l Hv Hl]; [done|].
  cbn [fold_left].
  destruct (b64_min_number PrimFloat.infinity v eq_refl Hv) as (Hone & _ & Hmv).
  assert (Binary64.b64_min PrimFloat.infinity v = v) as ->.
  { destruct Hone as [Hinf|Hone]; [|done]. rewrite Hinf in Hmv |- *.
    unfold fle in Hmv. rewrite leb_spec in Hmv.
    apply Prim2SF_inj. change (Prim2SF PrimFloat.infinity) with (S754_infinity false) in *.
    unfold SFleb in Hmv. by destruct (Prim2SF v) as [[]|[]| |[]]. }
  destruct (fold_min_numbers l v Hv Hl) as (_ & Hin & Hle & Hall).
  split; [destruct Hin as [->|Hin]; [left|by right]|].
  by constructor.
Qed.

Lemma fold_max_greatest (l : list float) :
  Forall number l -> l <> [] ->
  let m := fold_left Binary64.b64_max l PrimFloat.neg_infinity in
  m ∈ l /\ Forall (fun v => fle v m) l.
Proof.
  intros Hl Hne. cbv zeta. destruct Hl as [|v l Hv Hl]; [done|].
  cbn [fold_left].
  destruct (b64_max_number PrimFloat.neg_infinity v eq_refl Hv) as (Hone & _ & Hmv).
  assert (Binary64.b64_max PrimFloat.neg_infinity v = v) as ->.
  { destruct Hone as [Hinf|Hone]; [|done]. rewrite Hinf in Hmv |- *.
    unfold fle in Hmv. rewrite leb_spec in Hmv.
    apply Prim2SF_inj. change (Prim2SF PrimFloat.neg_infinity) with (S754_infinity true) in *.
    unfold SFleb in Hmv. by destruct (Prim2SF v) as [[]|[]| |[]]. }
  destruct (fold_max_numbers l v Hv Hl) as (_ & Hin & Hle & Hall).
  split; [destruct Hin as [->|Hin]; [left|by right]|].
  by constructor.
Qed.

End Binary64Order.

(** *** Special values *)



Section Binary64Special.














End Binary64Special.

(** *** Running minimum and maximum *)

(** What the loop [for (const v of samples) { min = Math.min(min, v);
    max = Math.max(max, v) }] leaves in [min] and [max], started at
    [Infinity] and [-Infinity]. *)
Definition extremes (samples : list float) (lowest highest : float) : Prop :=
  (Forall number samples -> samples <> [] ->
     lowest ∈ samples /\ highest ∈ samples
     /\ Forall (fun v => (lowest <=? v)%js = true /\ (v <=? highest)%js = true) samples)
  /\ (~ Forall number samples ->
      lowest = PrimFloat.nan /\ highest = PrimFloat.nan)
  /\ (samples = [] ->
      lowest = PrimFloat.infinity /\ highest = PrimFloat.neg_infinity).

Lemma running_extremes (samples : list float) :
  extremes samples (fold_left Math_min samples infinity)
                   (fold_left Math_max samples neg_infinity).
Proof.
  split; [|split].
  - intros Hnum Hne.
    destruct (fold_min_least samples Hnum Hne) as [Hmin Hleast].
    destruct (fold_max_greatest samples Hnum Hne) as [Hmax Hgreatest].
    split; [done|]. split; [done|].
    rewrite Forall_forall in Hleast, Hgreatest.
    apply Forall_forall. intros v Hv. split; [by apply Hleast|by apply Hgreatest].
  - intros Hnan. split; [by apply fold_min_some_nan|by apply fold_max_some_nan].
  - by intros ->.
Qed.

(** ** The guard of the interpolation *)


Section InterpolateBinary64.







End InterpolateBinary64.

(** ** The program at work: evaluations in binary64 *)

Section Binary64Facts.
Local Open Scope float_scope.

(** The flat 2 x 2 heightfield at elevation 1000. *)
Definition plateau : ElevationData float :=
  mkElevationData [1000; 1000; 1000; 1000] 2 2 1000 1000.


(** The drift is not bounded by one unit in the last place, nor
    one-sided: ten passes take the samples of [plateau] eight units below
    the minimum, and one pass over the flat 3 x 3 heightfield at 1000
    takes its centre above the maximum. *)
Example smoothing_drifts :
  elevations (smoothElevationData Binary64.exp_radius1 plateau 10 1)
  = [0x1.f3ffffffffff8p+9; 0x1.f3ffffffffff8p+9;
     0x1.f3ffffffffff8p+9; 0x1.f3ffffffffff8p+9]
  /\ nth 4 (elevations
              (smoothElevationData Binary64.exp_radius1
                 (mkElevationData (repeat 1000 9) 3 3 1000 1000) 1 1)) 0
     = 0x1.f400000000001p+9
  /\ (1000 <? 0x1.f400000000001p+9)%js = true.
Proof. vm_compute. repeat split. Qed.

(** A 2 x 2 heightfield between 1000 and the next binary64 number. *)
Definition ledge : ElevationData float :=
  mkElevationData [0x1.f4p+9; 0x1.f400000000001p+9; 0x1.f4p+9; 0x1.f400000000001p+9]
                  2 2 0x1.f4p+9 0x1.f400000000001p+9.

(** C6 as stated fails: the extremes are used as thresholds.  On [ledge],
    where [min < max], the two thresholds of three layers are rounded to
    [min] and to [max]; on the flat tile the one threshold of two layers is
    [min = max]. *)
Lemma thresholds_reach_extremes :
  ((minElevation ledge <? maxElevation ledge)%js = true
   /\ map elevation (generateContourLayers ledge 3)
      = [minElevation ledge; maxElevation ledge])
  /\ (map elevation (generateContourLayers (flatTile (F := float)) 2)
      = [minElevation (flatTile (F := float))]
      /\ minElevation (flatTile (F := float)) = maxElevation (flatTile (F := float))).
Proof. vm_compute. repeat split. Qed.






(** The 3 x 3 heightfield with a central peak of 10, contoured at the one
    threshold 5: a single closed polyline around the peak. *)
Example peak_contour :
  generateContourLayers
    (mkElevationData [0; 0; 0; 0; 10; 0; 0; 0; 0] 3 3 0 10) 2
  = [mkContourLayer 5
       [[(0.5, 0.25); (0.25, 0.5); (0.5, 0.75); (0.75, 0.5); (0.5, 0.25)]]].
Proof. vm_compute. reflexivity. Qed.

(** On the same heightfield the adaptive TIN keeps the corners, the border
    points and the peak, and covers the square with eight triangles. *)
Example peak_tin :
  let tin :=
    generateAdaptiveTIN PrimFloat.sqrt
      (mkElevationData [0; 0; 0; 0; 10; 0; 0; 0; 0] 3 3 0 10) 0.5 5000 in
  map (fun p => (tin_x p, tin_y p)) (points tin)
  = [(0, 0); (2, 0); (0, 2); (2, 2); (1, 0); (1, 2); (0, 1); (2, 1); (1, 1)]%Z
  /\ length (triangles tin) = (3 * 8)%nat.
Proof. vm_compute. split; reflexivity. Qed.

End Binary64Facts.

(** ** Instances of the theorems *)

Section Instances.

(** One triangle in the plane [z = 0]. *)
Definition oneTriangle : BufferGeometry float :=
  mkGeometry [0; 0; 0; 1; 0; 0; 0; 1; 0]%float None.

Lemma generateBinarySTL_layout_oneTriangle :
  length (position oneTriangle) = (9 * 1)%nat
  /\ exists bytes,
       generateBinarySTL PrimFloat.sqrt Binary64.b64_float32_bits oneTriangle
       = Some bytes
       /\ length bytes = (84 + 50 * 1)%nat.
Proof.
  split; [reflexivity|].
  destruct (generateBinarySTL_layout PrimFloat.sqrt Binary64.b64_float32_bits
              oneTriangle 1 eq_refl) as (bytes & Hbytes & Hlen & _).
  exists bytes. split; [exact Hbytes|exact Hlen].
Defined.

(** A 3 x 3 grid mesh with a raised centre. *)
Definition tent : list XQ :=
  map (fun z => Fin (inject_Z z))
      [0; 0; 0;  1; 0; 0;  2; 0; 0;
       0; 1; 0;  1; 1; 8;  2; 1; 0;
       0; 2; 0;  1; 2; 0;  2; 2; 0].

Lemma applyLaplacianSmoothing_frame_tent :
  (0 <= 1 < 3 /\ 0 <= 2 < 3
   /\ (2 <> 2 \/ 0 <= 0 \/ 3 - 1 <= 0 \/ 1 = 0 \/ 1 = 3 - 1))
  /\ length (applyLaplacianSmoothing tent [] 3 3 2 (lit 5 10)) = length tent
  /\ aget (applyLaplacianSmoothing tent [] 3 3 2 (lit 5 10)) ((0 * 3 + 1) * 3 + 2)
     = aget tent ((0 * 3 + 1) * 3 + 2).
Proof.
  split; [lia|].
  apply (applyLaplacianSmoothing_frame tent [] 3 3 2 (lit 5 10) 0 1 2); lia.
Defined.

(** Four samples on a 2 x 2 grid. *)
Definition quad : ElevationData float :=
  mkElevationData [0; 10; 5; 7]%float 2 2 0%float 10%float.

Lemma generateGridMesh_full_resolution_quad :
  (width quad = 2 /\ height quad = 2 /\ 2 <= 2 /\ 2 * 2 <= 2 ^ 32)
  /\ exists mesh,
       generateGridMesh PrimFloat.sqrt quad (mkMeshOptions None None None None None None)
       = Some mesh
       /\ Z.of_nat (length (positions mesh)) = 3 * (2 * 2)
       /\ Z.of_nat (length (indices mesh)) = 3 * (2 * (2 - 1) * (2 - 1)).
Proof.
  split; [repeat split; lia|].
  destruct (generateGridMesh_full_resolution PrimFloat.sqrt quad
              (mkMeshOptions None None None None None None) 2
              eq_refl eq_refl ltac:(lia) ltac:(lia) eq_refl)
    as (mesh & Hmesh & Hpos & Hidx & _).
  exists mesh. split; [exact Hmesh|]. split; [exact Hpos|exact Hidx].
Defined.



End Instances.

(** * Further properties of the code *)

(** ** Boundary edges *)

(** The edges of the triangles of an index array, in the order
    [getBoundaryEdges] visits them. *)
Definition triangleEdgeList (indices : list Z) : list (option Z * option Z) :=
  concat (map (fun i =>
                 let a := aget indices i in
                 let b := aget indices (i + 1) in
                 let c := aget indices (i + 2) in
                 [(a, b); (b, c); (c, a)])
              (range_step 0 (Z.of_nat (length indices)) 3)).

(** How many triangle edges join the same two vertices as [e]. *)
Definition edgeUses (edges : list (option Z * option Z)) (e : option Z * option Z)
    : nat :=
  length (filter (fun e' => edgeKey (fst e') (snd e') = edgeKey (fst e) (snd e)) edges).

Section BoundaryFacts.
Context {F : Type} `{JSNum F}.
Variable positions : list F.

(** The six coordinates kept for an edge. *)
Definition edgeVertices (e : option Z * option Z) : list F :=
  [coord positions (fst e) 0; coord positions (fst e) 1; coord positions (fst e) 2;
   coord positions (snd e) 0; coord positions (snd e) 1; coord positions (snd e) 2].

Definition countOne (edgeCount : list (EdgeKey * (Z * list F)))
    (e : option Z * option Z) : list (EdgeKey * (Z * list F)) :=
  countEdge (edgeKey (fst e) (snd e)) (edgeVertices e) edgeCount.

Lemma countTriangleEdges_fold (indices : list Z) (starts : list Z) edgeCount :
  fold_left (countTriangleEdges positions indices) starts edgeCount
  = fold_left countOne
      (concat (map (fun i => [(aget indices i, aget indices (i + 1));
                              (aget indices (i + 1), aget indices (i + 2));
                              (aget indices (i + 2), aget indices i)]) starts))
      edgeCount.
Proof.
  revert edgeCount. induction starts as [|i starts IH]; intros edgeCount; [done|].
  cbn [map concat fold_left]. rewrite fold_left_app. rewrite IH. done.
Qed.

Lemma countEdge_fresh key vs (m : list (EdgeKey * (Z * list F))) :
  key ∉ map fst m -> countEdge key vs m = m ++ [(key, (1, vs))].
Proof.
  induction m as [|[k [c v]] m IH]; intros Hnot; [done|].
  cbn [countEdge]. cbn [map fst] in Hnot.
  apply not_elem_of_cons in Hnot as [Hne Hnot].
  destruct (decide (k = key)) as [->|_]; [done|].
  cbn. by rewrite IH.
Qed.

Definition bump (key : EdgeKey) (e : EdgeKey * (Z * list F)) : EdgeKey * (Z * list F) :=
  if decide (fst e = key) then (fst e, (fst (snd e) + 1, snd (snd e))) else e.

Lemma countEdge_known key vs (m : list (EdgeKey * (Z * list F))) :
  key ∈ map fst m -> NoDup (map fst m) -> countEdge key vs m = map (bump key) m.
Proof.
  induction m as [|[k [c v]] m IH]; intros Hin Hnd.
  - by apply elem_of_nil in Hin.
  - cbn [map fst] in Hin, Hnd. apply NoDup_cons in Hnd as [Hk Hnd].
    cbn [countEdge map]. unfold bump at 1. cbn [fst snd].
    destruct (decide (k = key)) as [->|Hne].
    + f_equal. clear IH Hin. induction m as [|[k' [c' v']] m IH]; [done|].
      cbn [map fst] in Hk, Hnd. apply not_elem_of_cons in Hk as [Hne Hk].
      apply NoDup_cons in Hnd as [_ Hnd].
      cbn [map]. rewrite <- IH by done. unfold bump. cbn [fst].
      by destruct (decide (k' = key)) as [->|_].
    + f_equal. apply IH; [|done].
      apply elem_of_cons in Hin as [->|Hin]; done.
Qed.

Lemma bump_keys key (m : list (EdgeKey * (Z * list F))) :
  map fst (map (bump key) m) = map fst m.
Proof.
  rewrite <- list_fmap_compose. apply list_fmap_ext. intros _ e _. cbn.
  unfold bump. by destruct (decide _).
Qed.

(** Number of the edges [es] with key [k]. *)
Definition keyUses (es : list (option Z * option Z)) (k : EdgeKey) : Z :=
  Z.of_nat (length (filter (fun e => edgeKey (fst e) (snd e) = k) es)).

Lemma keyUses_cons e es k :
  keyUses (e :: es) k
  = (if decide (edgeKey (fst e) (snd e) = k) then 1 else 0) + keyUses es k.
Proof.
  unfold keyUses. rewrite filter_cons.
  destruct (decide _); cbn [length]; lia.
Qed.

Lemma keyUses_nonneg es k : 0 <= keyUses es k.
Proof. unfold keyUses. lia. Qed.

Lemma filter_map_ext {A B} (P Q : A -> Prop) `{!forall x, Decision (P x)}
    `{!forall x, Decision (Q x)} (f : A -> A) (g : A -> B) (l : list A) :
  (forall x, P (f x) <-> Q x) -> (forall x, g (f x) = g x) ->
  map g (filter P (map f l)) = map g (filter Q l).
Proof.
  intros HPQ Hg. induction l as [|x l IH]; [done|].
  cbn [map]. rewrite !filter_cons.
  destruct (decide (P (f x))) as [HP|HP], (decide (Q x)) as [HQ|HQ].
  - cbn [map]. by rewrite IH, Hg.
  - by apply HPQ in HP.
  - by apply HPQ in HQ.
  - done.
Qed.

Lemma filter_ext_in {A} (P Q : A -> Prop) `{!forall x, Decision (P x)}
    `{!forall x, Decision (Q x)} (l : list A) :
  (forall x, x ∈ l -> (P x <-> Q x)) -> filter P l = filter Q l.
Proof.
  induction l as [|x l IH]; intros HPQ; [done|].
  rewrite !filter_cons.
  assert (filter P l = filter Q l) as -> by (apply IH; intros y Hy; apply HPQ; by right).
  destruct (decide (P x)) as [HP|HP], (decide (Q x)) as [HQ|HQ]; try done.
  - apply HPQ in HP; [done|left].
  - apply HPQ in HQ; [done|left].
Qed.

(** The counting loop, from any state with distinct keys: the entries
    already there keep their place and add the uses to come to their count;
    the edges to come with a key not yet there enter in order. *)
Lemma countOne_fold (es : list (option Z * option Z))
    (m : list (EdgeKey * (Z * list F))) :
  NoDup (map fst m) ->
  map (fun e => snd (snd e))
      (filter (fun e => fst (snd e) = 1) (fold_left countOne es m))
  = map (fun e => snd (snd e))
        (filter (fun e => fst (snd e) + keyUses es (fst e) = 1) m)
    ++ map edgeVertices
         (filter (fun e => (edgeKey (fst e) (snd e) ∉ map fst m)
                           /\ keyUses es (edgeKey (fst e) (snd e)) = 1) es).
Proof.
  revert m. induction es as [|e es IH]; intros m Hnd.
  - cbn [fold_left]. rewrite filter_nil. cbn [map]. rewrite app_nil_r.
    f_equal. apply filter_ext_in. intros x _. unfold keyUses. cbn. lia.
  - cbn [fold_left]. unfold countOne at 2.
    set (key := edgeKey (fst e) (snd e)).
    destruct (decide (key ∈ map fst m)) as [Hin|Hnot].
    + rewrite countEdge_known by done.
      rewrite IH by (by rewrite bump_keys).
      rewrite bump_keys. f_equal.
      * apply filter_map_ext.
        -- intros x. unfold bump. rewrite keyUses_cons. fold key.
           destruct (decide (fst x = key)) as [->|Hne]; cbn [fst snd].
           ++ rewrite decide_True by done. lia.
           ++ rewrite decide_False by done. lia.
        -- intros x. unfold bump. by destruct (decide _).
      * rewrite filter_cons. rewrite decide_False by (fold key; tauto).
        f_equal. apply filter_ext_in. intros x _. rewrite keyUses_cons. fold key.
        split.
        -- intros [Hx Hone]. split; [done|].
           rewrite decide_False; [lia|]. intros Heq. by rewrite <- Heq in Hx.
        -- intros [Hx Hone]. split; [done|].
           rewrite decide_False in Hone; [lia|]. intros Heq. by rewrite <- Heq in Hx.
    + rewrite countEdge_fresh by done.
      rewrite IH.
      2:{ rewrite map_app. cbn [map fst]. apply NoDup_app. split; [done|].
          split; [|apply NoDup_singleton].
          intros k Hk Hk'. apply list_elem_of_singleton in Hk' as ->. done. }
      rewrite filter_app, map_app, <- app_assoc. f_equal.
      * f_equal. apply filter_ext_in. intros x Hx. rewrite keyUses_cons. fold key.
        rewrite decide_False; [lia|].
        intros Heq. apply Hnot. rewrite Heq. apply list_elem_of_fmap. by exists x.
      * rewrite (filter_cons _ e). fold key.
        pose proof (keyUses_nonneg es key) as Hpos.
        assert (forall x, x ∈ es ->
                  ((edgeKey (fst x) (snd x) ∉ map fst (m ++ [(key, (1, edgeVertices e))]))
                   /\ keyUses es (edgeKey (fst x) (snd x)) = 1)
                  <-> ((edgeKey (fst x) (snd x) ∉ map fst m)
                       /\ keyUses (e :: es) (edgeKey (fst x) (snd x)) = 1)) as Hrest.
        { intros x Hx. rewrite keyUses_cons. fold key. rewrite map_app. cbn [map fst].
          rewrite not_elem_of_app, list_elem_of_singleton.
          destruct (decide (key = edgeKey (fst x) (snd x))) as [Heq|Hne].
          - split; [intros [[_ Hk] _]; by destruct Hk|].
            intros [_ Hone]. exfalso.
            assert (1 <= keyUses es (edgeKey (fst x) (snd x))); [|lia].
            unfold keyUses.
            assert (x ∈ filter (fun e0 => edgeKey (fst e0) (snd e0)
                                          = edgeKey (fst x) (snd x)) es) as Hmem
              by (by apply list_elem_of_filter).
            destruct (filter _ es); [by apply elem_of_nil in Hmem|cbn [length]; lia].
          - split.
            + intros [[Hm _] Hone]. split; [done|lia].
            + intros [Hm Hone]. split; [split; [done|congruence]|lia]. }
        rewrite (filter_ext_in _ _ es Hrest).
        rewrite filter_cons. cbn [fst snd].
        rewrite keyUses_cons. fold key. rewrite filter_nil.
        destruct (decide (1 + keyUses es key = 1)) as [Hone|Hmore].
        -- rewrite decide_True; [done|].
           split; [done|]. by rewrite decide_True.
        -- rewrite decide_False; [done|].
           intros [_ Hx]. by rewrite decide_True in Hx.
Qed.

(** The edges kept by [getBoundaryEdges]. *)
Lemma getBoundaryEdges_filter (indices : list Z) :
  getBoundaryEdges (mkGeometry positions (Some indices))
  = map edgeVertices
        (filter (fun e => edgeUses (triangleEdgeList indices) e = 1%nat)
                (triangleEdgeList indices)).
Proof.
  unfold getBoundaryEdges. cbn [index position].
  rewrite countTriangleEdges_fold.
  fold (triangleEdgeList indices).
  rewrite countOne_fold by (cbn; apply NoDup_nil_2).
  cbn [filter map app]. rewrite filter_nil. cbn [map app].
  f_equal. apply filter_ext_in. intros e _. unfold keyUses, edgeUses.
  split; [intros [_ Hone]; lia|]. intros Hone. split; [apply not_elem_of_nil|lia].
Qed.

(** X1.  The boundary edges of an indexed geometry are exactly the
    triangle edges that no other triangle edge shares (same two vertex
    indices, in either direction), in the order the triangles list them;
    each is given by the six coordinates of its two end points, in the
    direction of its triangle.  A geometry without an index has none. *)
Theorem getBoundaryEdges_unshared (indices : list Z) :
  let edges := triangleEdgeList indices in
  getBoundaryEdges (mkGeometry positions None) = []
  /\ getBoundaryEdges (mkGeometry positions (Some indices))
     = map edgeVertices (filter (fun e => edgeUses edges e = 1%nat) edges)
  /\ Forall (fun vertices => length vertices = 6%nat)
            (getBoundaryEdges (mkGeometry positions (Some indices))).
Proof.
  cbv zeta. split; [done|]. rewrite getBoundaryEdges_filter. split; [done|].
  apply Forall_fmap, Forall_forall. by intros e _.
Qed.

End BoundaryFacts.

(** ** Exporting a geometry *)

(** The triangle loop makes at most one turn for each index, and lists
    three edges a turn. *)
Lemma range_step_bound (n : nat) : (length (range_step 0 (Z.of_nat n) 3) <= n)%nat.
Proof.
  unfold range_step. rewrite length_map, length_seq.
  assert ((Z.of_nat n - 0 + 3 - 1) / 3 <= Z.of_nat n); [|lia].
  Z.div_mod_to_equations. lia.
Qed.

Lemma triangleEdgeList_length (indices : list Z) :
  length (triangleEdgeList indices)
  = (3 * length (range_step 0 (Z.of_nat (length indices)) 3))%nat.
Proof.
  unfold triangleEdgeList.
  rewrite (concat_length_uniform 3); [by rewrite length_map|].
  apply Forall_fmap, Forall_forall. by intros i _.
Qed.

Section GeometryExportFacts.
Context {F : Type} `{JSNum F}.
Variable Math_sqrt : F -> F.
Variable float32_bits : F -> Z.

Lemma scaleGeometry_length (geometry : BufferGeometry F) (s : F) :
  length (position (scaleGeometry geometry s)) = length (position geometry)
  /\ index (scaleGeometry geometry s) = index geometry.
Proof.
  unfold scaleGeometry. cbn [position index]. split; [|done].
  apply (fold_left_preserves (fun p => length p = length (position geometry))); [done|].
  intros p i _ Hp. unfold scaleVertex. cbv zeta. by rewrite !tset_length.
Qed.

(** X2.  Whatever its vertex positions, tile size and base thickness, a
    geometry with an index of at most [2 ^ 22] entries is exported as a
    binary STL of two triangles for each triangle of the index (top and
    bottom) and two for each edge that no other triangle shares (the wall
    under it): [84 + 50 (2 T + 2 B)] bytes.  (At that size the
    [9 (2 T + 2 B)] coordinates that [createSolidMesh] collects fit an
    [Array].)  A geometry without an index is serialized as it is, with
    no base and no walls. *)
Theorem exportToSTL_size (positions : list F) (indices : list Z)
    (options : ExportOptions F) :
  let T := length (range_step 0 (Z.of_nat (length indices)) 3) in
  let B := length (filter (fun e => edgeUses (triangleEdgeList indices) e = 1%nat)
                          (triangleEdgeList indices)) in
  Z.of_nat (length indices) <= 2 ^ 22 ->
  (exists bytes,
     exportToSTL Math_sqrt float32_bits (mkGeometry positions (Some indices)) options
     = Some bytes
     /\ length bytes = (84 + 50 * (2 * T + 2 * B))%nat
     /\ Z.of_nat (9 * (2 * T + 2 * B)) < 2 ^ 32)
  /\ exportToSTL Math_sqrt float32_bits (mkGeometry positions None) options
     = generateBinarySTL Math_sqrt float32_bits
         (scaleGeometry (mkGeometry positions None)
            (geometryTileSize options / of_Z 10)%js).
Proof.
  cbv zeta. intros Hsmall. split; [|done].
  unfold exportToSTL. cbv zeta.
  set (s := (geometryTileSize options / of_Z 10)%js).
  destruct (scaleGeometry_length (mkGeometry positions (Some indices)) s) as [_ Hidx].
  cbn [index] in Hidx.
  destruct (scaleGeometry (mkGeometry positions (Some indices)) s)
    as [scaled idx] eqn:Hscaled.
  cbn [index] in Hidx. subst idx.
  destruct (createSolidMesh_serialized Math_sqrt float32_bits scaled indices
              (geometryBaseThickness options)) as [_ ->].
  eexists. split; [done|].
  rewrite stlFile_length.
  destruct (solidTriangles_count scaled indices (geometryBaseThickness options))
    as [-> _].
  rewrite getBoundaryEdges_filter, length_map. split; [lia|].
  pose proof (range_step_bound (length indices)) as Htriangles.
  pose proof (length_filter
                (fun e => edgeUses (triangleEdgeList indices) e = 1%nat)
                (triangleEdgeList indices)) as Hedges.
  rewrite triangleEdgeList_length in Hedges. lia.
Qed.

End GeometryExportFacts.

(** ** Triangulation *)

(** A triangle whose three vertex indices are below [bound]. *)
Definition triangleBelow (bound : Z) (t : Triangle) : Prop :=
  (0 <= tri_i t < bound) /\ (0 <= tri_j t < bound) /\ (0 <= tri_k t < bound).

Lemma elem_of_concat {A} (x : A) (ls : list (list A)) :
  x ∈ concat ls <-> exists l, x ∈ l /\ l ∈ ls.
Proof.
  induction ls as [|l0 ls IH]; cbn [concat].
  - split; [by intros ?%elem_of_nil|]. by intros (l & _ & ?%elem_of_nil).
  - rewrite elem_of_app, IH. split.
    + intros [Hx|(l & Hx & Hl)]; [exists l0; split; [done|left]|].
      exists l. split; [done|by right].
    + intros (l & Hx & [->|Hl]%elem_of_cons); [by left|right; by exists l].
Qed.

Lemma cavityEdges_sub (badTriangles : list Triangle) (a : nat) (tri : Triangle) e :
  e ∈ cavityEdges badTriangles a tri -> e ∈ triangleEdges tri.
Proof.
  unfold cavityEdges. cbv zeta. intros He.
  apply list_elem_of_In in He. apply List.filter_In in He as [He _].
  by apply list_elem_of_In.
Qed.

Section DelaunayFacts.
Context {F : Type} `{JSNum F}.

Lemma insertPoint_below (allPoints : list (F * F)) (triangles : list Triangle)
    (i bound : Z) :
  0 <= i < bound -> Forall (triangleBelow bound) triangles ->
  Forall (triangleBelow bound) (insertPoint allPoints triangles i).
Proof.
  intros Hi Hall. unfold insertPoint. cbv zeta. apply Forall_app. split.
  - apply Forall_forall. intros t Ht.
    apply list_elem_of_In in Ht. apply List.filter_In in Ht as [Ht _].
    apply list_elem_of_In in Ht. rewrite Forall_forall in Hall. by apply Hall.
  - apply Forall_forall. intros t Ht.
    apply list_elem_of_fmap in Ht as (edge & -> & Hedge).
    apply elem_of_concat in Hedge as (edges & Hedge & Hedges).
    apply elem_of_lookup_imap in Hedges as (a & tri & -> & Htri).
    apply cavityEdges_sub in Hedge.
    apply list_elem_of_lookup_2 in Htri.
    apply list_elem_of_In in Htri. apply List.filter_In in Htri as [Htri _].
    apply list_elem_of_In in Htri.
    rewrite Forall_forall in Hall. destruct (Hall tri Htri) as (Hti & Htj & Htk).
    unfold triangleEdges in Hedge.
    repeat (apply elem_of_cons in Hedge as [->|Hedge]);
      [| | |by apply elem_of_nil in Hedge];
      unfold triangleBelow; cbn [tri_i tri_j tri_k fst snd]; done.
Qed.

(** The triangles that [delaunayTriangulate] returns. *)
Lemma delaunayTriangulate_valid (points : list (F * F)) :
  let result := delaunayTriangulate points in
  Forall (fun v => 0 <= v < Z.of_nat (length points)) result
  /\ (exists t : nat, length result = (3 * t)%nat).
Proof.
  cbv zeta. unfold delaunayTriangulate. cbv zeta.
  set (n := Z.of_nat (length points)).
  destruct (Z.ltb_spec n 3) as [Hfew|Hmany].
  { split; [done|]. by exists 0%nat. }
  match goal with |- context [fold_left (insertPoint ?all) _ ?init] =>
    set (allPoints := all);
    assert (Forall (triangleBelow (n + 3))
              (fold_left (insertPoint allPoints) (range 0 n) init)) as Hall
  end.
  { apply fold_left_preserves.
    - apply Forall_singleton. unfold triangleBelow. cbn. lia.
    - intros ts i Hi Hts. apply elem_of_range in Hi.
      apply insertPoint_below; [lia|done]. }
  set (triangles := fold_left (insertPoint allPoints) _ _) in *. clearbody triangles.
  split.
  - apply Forall_forall. intros v Hv.
    apply elem_of_concat in Hv as (l & Hv & Hl).
    apply list_elem_of_fmap in Hl as (t & -> & Ht).
    apply list_elem_of_In in Ht. apply List.filter_In in Ht as [Ht Hlt].
    apply list_elem_of_In in Ht.
    rewrite Forall_forall in Hall. destruct (Hall t Ht) as (Hti & Htj & Htk).
    apply andb_prop in Hlt as [Hlt Hk]. apply andb_prop in Hlt as [Hi Hj].
    apply Z.ltb_lt in Hi, Hj, Hk.
    repeat (apply elem_of_cons in Hv as [->|Hv]); [lia|lia|lia|].
    by apply elem_of_nil in Hv.
  - exists (length (List.filter
                      (fun t => (tri_i t <? n) && (tri_j t <? n) && (tri_k t <? n))
                      triangles)).
    generalize (List.filter
                  (fun t => (tri_i t <? n) && (tri_j t <? n) && (tri_k t <? n))
                  triangles).
    intros l. induction l as [|t l IH]; [done|].
    cbn [map concat length app]. rewrite IH. lia.
Qed.

(** X3.  [delaunayTriangulate] returns whole triangles whose vertices are
    indices of the points given: the result is a list of index triples,
    every index at least 0 and below the number of points; with fewer than
    three points it is empty. *)
Theorem delaunayTriangulate_indices (points : list (F * F)) :
  let result := delaunayTriangulate points in
  Forall (fun v => 0 <= v < Z.of_nat (length points)) result
  /\ (exists t : nat, length result = (3 * t)%nat)
  /\ ((length points < 3)%nat -> result = []).
Proof.
  cbv zeta. destruct (delaunayTriangulate_valid points) as [Hvalid Htriples].
  split; [done|]. split; [done|].
  intros Hfew. unfold delaunayTriangulate. cbv zeta.
  destruct (Z.ltb_spec (Z.of_nat (length points)) 3); [done|lia].
Qed.

End DelaunayFacts.

(** ** Marching squares *)

(** The two corners at the ends of a cell edge: 0 = bottom [(v0, v1)],
    1 = right [(v1, v2)], 2 = top [(v3, v2)], 3 = left [(v0, v3)], as
    [getEdgePoint] interpolates them. *)
Definition edgeCorners {A} (edge : Z) (v0 v1 v2 v3 : A) : option (A * A) :=
  match edge with
  | 0 => Some (v0, v1)
  | 1 => Some (v1, v2)
  | 2 => Some (v3, v2)
  | 3 => Some (v0, v3)
  | _ => None
  end.

(** The end of a segment lies on edge [edge], between two corners on
    different sides of the threshold. *)
Definition crossesEdge {F} `{JSNum F} (edge : Z) (v0 v1 v2 v3 threshold : F) : Prop :=
  exists a b, edgeCorners edge v0 v1 v2 v3 = Some (a, b)
              /\ (a >=? threshold)%js <> (b >=? threshold)%js.

Section MarchingFacts.
Context {F : Type} `{JSNum F}.

(** The lookup table joins edges that the contour does cross. *)
Lemma caseTable_crossings (v0 v1 v2 v3 threshold : F) :
  Forall (fun s => crossesEdge (fst s) v0 v1 v2 v3 threshold
                   /\ crossesEdge (snd s) v0 v1 v2 v3 threshold)
         (MARCHING_SQUARES_EDGES (caseIndexOf v0 v1 v2 v3 threshold)).
Proof.
  unfold caseIndexOf, crossesEdge. cbv zeta.
  destruct (v0 >=? threshold)%js eqn:H0, (v1 >=? threshold)%js eqn:H1,
           (v2 >=? threshold)%js eqn:H2, (v3 >=? threshold)%js eqn:H3;
    cbn [Z.lor Pos.lor MARCHING_SQUARES_EDGES];
    repeat (constructor; [split; eexists _, _; (split; [reflexivity|congruence])|]);
    constructor.
Qed.

(** X4.  In every arithmetic and for all corner values (numbers or not),
    the segments of a cell join edges of the cell that the contour does
    cross: each end of each segment is the point that [getEdgePoint]
    places on one of the four edges, and of the two corners of that edge
    exactly one is at or above the threshold.  A cell whose four corners
    are on the same side of the threshold has no segment. *)
Theorem marching_squares_crossings (data : ElevationData F) (threshold : F)
    (y x : Z) :
  let at_ i := num (aget (elevations data) i) in
  let v0 := at_ (y * width data + x) in
  let v1 := at_ (y * width data + x + 1) in
  let v2 := at_ ((y + 1) * width data + x + 1) in
  let v3 := at_ ((y + 1) * width data + x) in
  Forall (fun seg =>
            exists e1 e2,
              seg = (getEdgePoint e1 (of_Z x) (of_Z y) v0 v1 v2 v3 threshold,
                     getEdgePoint e2 (of_Z x) (of_Z y) v0 v1 v2 v3 threshold)
              /\ crossesEdge e1 v0 v1 v2 v3 threshold
              /\ crossesEdge e2 v0 v1 v2 v3 threshold)
         (cellSegments data threshold y x)
  /\ ((v0 >=? threshold)%js = (v1 >=? threshold)%js ->
      (v1 >=? threshold)%js = (v2 >=? threshold)%js ->
      (v2 >=? threshold)%js = (v3 >=? threshold)%js ->
      cellSegments data threshold y x = []).
Proof.
  cbv zeta. unfold cellSegments. cbv zeta. split.
  - apply Forall_fmap. eapply Forall_impl; [apply caseTable_crossings|].
    intros [e1 e2] [H1 H2]. cbn [fst snd compose] in *. by exists e1, e2.
  - unfold caseIndexOf. cbv zeta.
    destruct (_ >=? threshold)%js, (_ >=? threshold)%js,
             (_ >=? threshold)%js, (_ >=? threshold)%js; intros; try congruence;
      reflexivity.
Qed.

End MarchingFacts.

(** ** The points and triangles of a TIN *)

(** A TIN point that sits where its index says and carries the elevation
    stored there (the minimum elevation when nothing is stored there). *)
Definition samplePoint {F} (data : ElevationData F) (p : TINPoint F) : Prop :=
  originalIndex p = tin_y p * width data + tin_x p
  /\ tin_z p = default (minElevation data) (aget (elevations data) (originalIndex p)).

Section TINFacts.
Context {F : Type} `{JSNum F}.
Variable Math_sqrt : F -> F.

Lemma pointOf_sample (data : ElevationData F) x y :
  samplePoint data (pointOf data x y (y * width data + x)).
Proof. by split. Qed.

Lemma insertByScore_elem (a x : Z * F) sorted :
  x ∈ insertByScore a sorted -> x = a \/ x ∈ sorted.
Proof.
  induction sorted as [|b rest IH]; cbn [insertByScore].
  - intros ->%list_elem_of_singleton. by left.
  - destruct (_ >? _)%js.
    + intros [->|Hx]%elem_of_cons; [right; left|].
      destruct (IH Hx) as [->|Hin]; [by left|right; by right].
    + intros [->|Hx]%elem_of_cons; [by left|by right].
Qed.

Lemma sortByScore_elem (x : Z * F) scores :
  x ∈ sortByScore scores -> x ∈ scores.
Proof.
  unfold sortByScore. induction scores as [|a scores IH]; cbn [foldr]; [done|].
  intros [->|Hx]%insertByScore_elem; [left|right; by apply IH].
Qed.

Lemma importanceScores_elem (data : ElevationData F) errorThreshold s :
  s ∈ importanceScores Math_sqrt data errorThreshold ->
  exists y x, 1 <= x < width data - 1 /\ 1 <= y < height data - 1
              /\ fst s = y * width data + x.
Proof.
  unfold importanceScores. intros Hs.
  apply elem_of_concat in Hs as (row & Hs & Hrow).
  apply list_elem_of_fmap in Hrow as (y & -> & Hy). apply elem_of_range in Hy.
  apply list_elem_of_In in Hs. apply List.filter_In in Hs as [Hs _].
  apply list_elem_of_In in Hs.
  apply list_elem_of_fmap in Hs as (x & -> & Hx). apply elem_of_range in Hx.
  exists y, x. done.
Qed.

Lemma coverRow_sample (data : ElevationData F) maxPoints y xs st :
  Forall (samplePoint data) (fst st) ->
  Forall (samplePoint data) (fst (coverRow data maxPoints st y xs)).
Proof.
  revert st. induction xs as [|x xs IH]; intros st Hst; cbn [coverRow]; [done|].
  destruct (maxPoints <=? Z.of_nat (length (fst st))); [done|].
  apply IH. destruct st as [sel ex]. unfold coverPoint.
  destruct (bool_decide _); cbn [fst] in *; [done|].
  apply Forall_app. split; [done|]. apply Forall_singleton, pointOf_sample.
Qed.

Lemma selectPoints_sample (data : ElevationData F) maxError maxPoints :
  Forall (samplePoint data) (selectPoints Math_sqrt data maxError maxPoints).
Proof.
  unfold selectPoints. cbv zeta.
  assert (Forall (samplePoint data) (cornerPoints data ++ edgePoints data)) as Hfixed.
  { apply Forall_app. split.
    - unfold cornerPoints. cbv zeta.
      repeat (constructor; [split; cbn [originalIndex tin_x tin_y tin_z pointOf]; [lia|done]|]).
      constructor.
    - unfold edgePoints. cbv zeta. apply Forall_app. split;
        apply Forall_forall; intros p Hp;
        apply elem_of_concat in Hp as (l & Hp & Hl);
        apply list_elem_of_fmap in Hl as (c & -> & _);
        repeat (apply elem_of_cons in Hp as [->|Hp]);
        try (by apply elem_of_nil in Hp);
        split; cbn [originalIndex tin_x tin_y tin_z pointOf]; (lia || done). }
  match goal with |- context [map ?f (slice0 ?scores ?slots)] =>
    assert (Forall (samplePoint data) (map f (slice0 scores slots))) as Htop
  end.
  { apply Forall_fmap, Forall_forall. intros s Hs. unfold slice0 in Hs. cbv zeta in Hs.
    apply elem_of_take in Hs as (k & Hs & _). apply list_elem_of_lookup_2 in Hs.
    apply sortByScore_elem, importanceScores_elem in Hs as (y & x & Hx & Hy & Hidx).
    cbn [compose]. rewrite Hidx.
    assert (0 <= y * width data) by nia.
    assert (Z.rem (y * width data + x) (width data) = x) as ->.
    { rewrite Z.rem_mod_nonneg by lia. rewrite Z.add_comm, Z.mod_add by lia.
      apply Z.mod_small. lia. }
    assert ((y * width data + x) / width data = y) as ->.
    { rewrite Z.add_comm, Z.div_add by lia. rewrite Z.div_small by lia. lia. }
    apply pointOf_sample. }
  match goal with |- context [if ?c then _ else _] => destruct c end.
  - apply (fold_left_preserves (fun st => Forall (samplePoint data) (fst st))).
    + cbn [fst]. rewrite <- app_assoc. rewrite app_assoc. apply Forall_app. done.
    + intros st y _ Hst. by apply coverRow_sample.
  - apply Forall_app. done.
Qed.

(** X6.  Whatever the heightfield and the limits, every point of the TIN
    sits where its [originalIndex] says ([y * width + x]) and carries the
    elevation stored at that index (the minimum elevation if there is
    none), and the triangles are triples of indices of returned points. *)
Theorem generateAdaptiveTIN_consistent (data : ElevationData F) (maxError : F)
    (maxPoints : Z) :
  let tin := generateAdaptiveTIN Math_sqrt data maxError maxPoints in
  Forall (samplePoint data) (points tin)
  /\ Forall (fun v => 0 <= v < Z.of_nat (length (points tin))) (triangles tin)
  /\ exists t : nat, length (triangles tin) = (3 * t)%nat.
Proof.
  cbv zeta. unfold generateAdaptiveTIN. cbn [points triangles].
  split; [apply selectPoints_sample|].
  match goal with |- context [delaunayTriangulate ?pts] =>
    destruct (delaunayTriangulate_valid pts) as (Hvalid & Htriples)
  end.
  rewrite length_map in Hvalid. done.
Qed.

End TINFacts.

(** ** Recomputed bounds *)

Section RecomputedBounds.
Variable Math_exp : float -> float.

(** X7.  In binary64, after at least one pass (or a negative number of
    passes, which copies the samples), the minimum and maximum that
    [smoothElevationData] records are those of the samples it returns:
    when no sample is [NaN], both are samples of the result and every
    sample lies between them; when a sample is [NaN], both are [NaN];
    without samples they are [Infinity] and [-Infinity]. *)
Theorem smoothElevationData_recomputed_bounds (data : ElevationData float)
    (passes radius : Z) :
  passes <> 0 ->
  let smoothed := smoothElevationData Math_exp data passes radius in
  extremes (elevations smoothed) (minElevation smoothed) (maxElevation smoothed).
Proof.
  intros Hp. cbv zeta. unfold smoothElevationData.
  destruct (Z.eqb_spec passes 0) as [|_]; [done|]. cbv zeta.
  cbn [elevations minElevation maxElevation]. apply running_extremes.
Qed.

End RecomputedBounds.

(** ** The grid mesh without columns *)

Section GridDegenerate.
Context {F : Type} `{JSNum F}.
Variable Math_sqrt : F -> F.

(** X8.  A heightfield without columns: with no row either,
    [generateGridMesh] returns no vertex and the six indices of two
    triangles, all 0 (the triangle count is the product of two -1); with
    rows that make one grid row it returns an empty mesh; with more rows
    the length of the index array is negative and the allocation
    throws. *)
Theorem generateGridMesh_degenerate (data : ElevationData F) (options : MeshOptions F) :
  let gh := ceil_div (height data) (default 1%positive (decimationFactor options)) in
  width data = 0 -> 0 <= gh ->
  generateGridMesh Math_sqrt data options
  = if gh =? 0 then Some (mkMesh [] [0; 0; 0; 0; 0; 0] [])
    else if gh =? 1 then Some (mkMesh [] [] [])
    else None.
Proof.
  intros gh Hw Hgh. unfold generateGridMesh. cbv zeta. fold gh.
  rewrite Hw, ceil_div_0, Z.mul_0_l. clearbody gh.
  rewrite (talloc_Some (of_Z 0)) by lia. cbn [mbind option_bind].
  destruct (Z.eqb_spec gh 0) as [->|Hne0]; [reflexivity|].
  destruct (Z.eqb_spec gh 1) as [->|Hne1]; [reflexivity|].
  by rewrite (talloc_None 0) by lia.
Qed.

End GridDegenerate.

(** ** The tiles of a heightfield *)

Section TileFacts.
Context {F : Type} `{JSNum F}.

(** The sample of the full heightfield behind the tile sample [(i, j)]. *)
Definition tileSample (fullData : ElevationData F) (startX startY j i : Z) : F :=
  default (minElevation fullData)
    (aget (elevations fullData) ((startY + j) * width fullData + (startX + i))).

Lemma extractRow (fullData : ElevationData F) startX startY j (xs : list Z) elevs mn mx :
  fold_left (fun st i => extractSample fullData startX startY st j i) xs (elevs, mn, mx)
  = (elevs ++ map (tileSample fullData startX startY j) xs,
     fold_left Math_min (map (tileSample fullData startX startY j) xs) mn,
     fold_left Math_max (map (tileSample fullData startX startY j) xs) mx).
Proof.
  revert elevs mn mx. induction xs as [|i xs IH]; intros elevs mn mx.
  - cbn. by rewrite app_nil_r.
  - cbn [fold_left map]. unfold extractSample at 2. cbv zeta.
    rewrite IH. by rewrite <- app_assoc.
Qed.

Lemma extractRows (fullData : ElevationData F) startX startY (ys xs : list Z)
    elevs mn mx :
  let rows := map (fun j => map (tileSample fullData startX startY j) xs) ys in
  fold_left (fun st j =>
      fold_left (fun st i => extractSample fullData startX startY st j i) xs st)
    ys (elevs, mn, mx)
  = (elevs ++ concat rows,
     fold_left Math_min (concat rows) mn,
     fold_left Math_max (concat rows) mx).
Proof.
  cbv zeta. revert elevs mn mx. induction ys as [|j ys IH]; intros elevs mn mx.
  - cbn. by rewrite app_nil_r.
  - cbn [fold_left map concat]. rewrite extractRow, IH.
    by rewrite <- app_assoc, !fold_left_app.
Qed.

(** The tile as a function of the full heightfield. *)
Lemma extractTileElevationData_rows (fullData : ElevationData F) (row col : Z)
    (totalRows totalCols : positive) :
  let tileWidth := width fullData / Zpos totalCols in
  let tileHeight := height fullData / Zpos totalRows in
  let startX := col * tileWidth in
  let startY := row * tileHeight in
  let tile := extractTileElevationData fullData row col totalRows totalCols in
  let rows :=
    map (fun j => map (tileSample fullData startX startY j) (range 0 (width tile)))
        (range 0 (height tile)) in
  width tile = (if col =? Zpos totalCols - 1 then width fullData - startX else tileWidth)
  /\ height tile
     = (if row =? Zpos totalRows - 1 then height fullData - startY else tileHeight)
  /\ elevations tile = concat rows
  /\ minElevation tile = fold_left Math_min (elevations tile) infinity
  /\ maxElevation tile = fold_left Math_max (elevations tile) neg_infinity.
Proof.
  cbv zeta. unfold extractTileElevationData. cbv zeta.
  rewrite extractRows. cbv zeta. cbn [width height elevations minElevation maxElevation app].
  split; [destruct (col =? _); lia|]. split; [destruct (row =? _); lia|]. done.
Qed.

(** X11.  A tile is the sub-rectangle of the heightfield that starts at
    column [col * floor(width / totalCols)] and row
    [row * floor(height / totalRows)]: every tile but the last of a row
    (of a column) is [floor(width / totalCols)] wide
    ([floor(height / totalRows)] high), the last one takes what remains;
    the tile has exactly [width * height] samples, sample [(i, j)] being
    the sample [(startX + i, startY + j)] of the heightfield. *)
Theorem extractTileElevationData_samples (fullData : ElevationData F) (row col : Z)
    (totalRows totalCols : positive) :
  0 <= width fullData -> 0 <= height fullData ->
  0 <= row < Zpos totalRows -> 0 <= col < Zpos totalCols ->
  let tileWidth := width fullData / Zpos totalCols in
  let tileHeight := height fullData / Zpos totalRows in
  let startX := col * tileWidth in
  let startY := row * tileHeight in
  let tile := extractTileElevationData fullData row col totalRows totalCols in
  (col < Zpos totalCols - 1 -> width tile = tileWidth)
  /\ (col = Zpos totalCols - 1 -> startX + width tile = width fullData)
  /\ (row < Zpos totalRows - 1 -> height tile = tileHeight)
  /\ (row = Zpos totalRows - 1 -> startY + height tile = height fullData)
  /\ 0 <= width tile /\ 0 <= height tile
  /\ startX + width tile <= width fullData /\ startY + height tile <= height fullData
  /\ Z.of_nat (length (elevations tile)) = width tile * height tile
  /\ forall j i, 0 <= j < height tile -> 0 <= i < width tile ->
       aget (elevations tile) (j * width tile + i)
       = Some (default (minElevation fullData)
                 (aget (elevations fullData)
                       ((startY + j) * width fullData + (startX + i)))).
Proof.
  intros HW HH Hrow Hcol. cbv zeta.
  destruct (extractTileElevationData_rows fullData row col totalRows totalCols)
    as (Hw & Hh & Hel & _).
  set (tile := extractTileElevationData fullData row col totalRows totalCols) in *.
  set (tw := width fullData / Z.pos totalCols) in *.
  set (th := height fullData / Z.pos totalRows) in *.
  assert (0 <= tw /\ tw * Z.pos totalCols <= width fullData) as [Htw0 Htw].
  { unfold tw. split; [apply Z.div_pos; lia|].
    rewrite Z.mul_comm. apply Z.mul_div_le. lia. }
  assert (0 <= th /\ th * Z.pos totalRows <= height fullData) as [Hth0 Hth].
  { unfold th. split; [apply Z.div_pos; lia|].
    rewrite Z.mul_comm. apply Z.mul_div_le. lia. }
  assert (0 <= width tile /\ col * tw + width tile <= width fullData
          /\ (col < Z.pos totalCols - 1 -> width tile = tw)
          /\ (col = Z.pos totalCols - 1 -> col * tw + width tile = width fullData))
    as (Hw0 & Hw1 & Hw2 & Hw3).
  { rewrite Hw. destruct (Z.eqb_spec col (Z.pos totalCols - 1)); [nia|].
    split; [done|]. split; [nia|]. split; [done|lia]. }
  assert (0 <= height tile /\ row * th + height tile <= height fullData
          /\ (row < Z.pos totalRows - 1 -> height tile = th)
          /\ (row = Z.pos totalRows - 1 -> row * th + height tile = height fullData))
    as (Hh0 & Hh1 & Hh2 & Hh3).
  { rewrite Hh. destruct (Z.eqb_spec row (Z.pos totalRows - 1)); [nia|].
    split; [done|]. split; [nia|]. split; [done|lia]. }
  repeat (split; [done|]).
  assert (Forall (fun c : list F => length c = Z.to_nat (width tile))
            (map (fun j => map (tileSample fullData (col * tw) (row * th) j)
                               (range 0 (width tile)))
                 (range 0 (height tile)))) as Huniform.
  { apply Forall_fmap, Forall_forall. intros j _. cbn.
    rewrite length_map, range_length. f_equal. lia. }
  split.
  - rewrite Hel, (concat_length_uniform _ _ Huniform).
    rewrite length_map, range_length. nia.
  - intros j i Hj Hi. rewrite Hel. rewrite aget_lookup by nia.
    replace (Z.to_nat (j * width tile + i))
      with (Z.to_nat (width tile) * Z.to_nat j + Z.to_nat i)%nat by nia.
    rewrite (concat_lookup_uniform _ _ _ _
               (map (tileSample fullData (col * tw) (row * th) j)
                    (range 0 (width tile))) Huniform);
      [| |lia].
    + rewrite list_lookup_fmap, range_lookup by lia. cbn.
      unfold tileSample. do 4 f_equal; lia.
    + rewrite list_lookup_fmap, range_lookup by lia. cbn. do 3 f_equal. lia.
Qed.

End TileFacts.

Section TileBounds.

(** X22.  In binary64, the minimum and maximum that
    [extractTileElevationData] records for a tile are those of the samples
    of the tile: when no sample is [NaN], both are samples of the tile and
    every sample lies between them; when a sample is [NaN], both are
    [NaN]; for a tile without samples they are [Infinity] and
    [-Infinity]. *)
Theorem extractTileElevationData_extremes (fullData : ElevationData float)
    (row col : Z) (totalRows totalCols : positive) :
  let tile := extractTileElevationData fullData row col totalRows totalCols in
  extremes (elevations tile) (minElevation tile) (maxElevation tile).
Proof.
  cbv zeta.
  destruct (extractTileElevationData_rows fullData row col totalRows totalCols)
    as (_ & _ & _ & Hmin & Hmax).
  rewrite Hmin, Hmax. apply running_extremes.
Qed.

End TileBounds.

(** *** On exact numbers *)

(** A finite number. *)
Definition finite (v : XQ) : Prop := exists q, v = Fin q.

(** A finite number between [lo] and [hi]. *)
Definition finiteWithin (lo hi : Q) (v : XQ) : Prop :=
  exists q, v = Fin q /\ (lo <= q)%Q /\ (q <= hi)%Q.

Section BoundsExact.
Local Open Scope Q_scope.

Lemma xq_lt_fin (a b : Q) : (Fin a <? Fin b)%js = true <-> a < b.
Proof.
  cbn. unfold Exact.Qltb. rewrite negb_true_iff. split.
  - intros Hle. apply Qnot_le_lt. intros Hba.
    apply Qle_bool_iff in Hba. congruence.
  - intros Hlt. destruct (Qle_bool b a) eqn:Hle; [|done].
    apply Qle_bool_iff in Hle. lra.
Qed.

Lemma xq_min_fin (a b : Q) :
  Math_min (Fin a) (Fin b) = Fin (if Qlt_le_dec b a then b else a).
Proof.
  cbn. unfold Exact.xq_min. cbn.
  destruct (Qlt_le_dec b a) as [Hlt|Hle].
  - apply (xq_lt_fin b a) in Hlt. cbn in Hlt. by rewrite Hlt.
  - destruct (Exact.Qltb b a) eqn:Hb; [|done].
    apply (xq_lt_fin b a) in Hb. lra.
Qed.

Lemma xq_max_fin (a b : Q) :
  Math_max (Fin a) (Fin b) = Fin (if Qlt_le_dec a b then b else a).
Proof.
  cbn. unfold Exact.xq_max. cbn.
  destruct (Qlt_le_dec a b) as [Hlt|Hle].
  - apply (xq_lt_fin a b) in Hlt. cbn in Hlt. by rewrite Hlt.
  - destruct (Exact.Qltb a b) eqn:Hb; [|done].
    apply (xq_lt_fin a b) in Hb. lra.
Qed.

(** The running minimum of finite numbers, from a finite start. *)
Lemma fold_min_from (l : list XQ) (a : Q) :
  Forall finite l ->
  exists m, fold_left Math_min l (Fin a) = Fin m
            /\ m <= a
            /\ Forall (fun v => exists q, v = Fin q /\ m <= q) l
            /\ (Fin m = Fin a \/ Fin m ∈ l).
Proof.
  intros Hl. revert a. induction Hl as [|v l [q ->] _ IH]; intros a.
  - exists a. split; [done|]. split; [lra|]. split; [done|by left].
  - cbn [fold_left]. rewrite xq_min_fin.
    destruct (IH (if Qlt_le_dec q a then q else a)) as (m & -> & Hm & Hall & Hin).
    exists m. split; [done|].
    destruct (Qlt_le_dec q a) as [Hlt|Hle].
    + split; [lra|]. split.
      * constructor; [by exists q|done].
      * right. destruct Hin as [->|Hin]; [left|by right].
    + split; [done|]. split.
      * constructor; [exists q; split; [done|lra]|done].
      * destruct Hin as [Hin|Hin]; [by left|right; by right].
Qed.

Lemma fold_max_from (l : list XQ) (a : Q) :
  Forall finite l ->
  exists m, fold_left Math_max l (Fin a) = Fin m
            /\ a <= m
            /\ Forall (fun v => exists q, v = Fin q /\ q <= m) l
            /\ (Fin m = Fin a \/ Fin m ∈ l).
Proof.
  intros Hl. revert a. induction Hl as [|v l [q ->] _ IH]; intros a.
  - exists a. split; [done|]. split; [lra|]. split; [done|by left].
  - cbn [fold_left]. rewrite xq_max_fin.
    destruct (IH (if Qlt_le_dec a q then q else a)) as (m & -> & Hm & Hall & Hin).
    exists m. split; [done|].
    destruct (Qlt_le_dec a q) as [Hlt|Hle].
    + split; [lra|]. split.
      * constructor; [by exists q|done].
      * right. destruct Hin as [->|Hin]; [left|by right].
    + split; [done|]. split.
      * constructor; [exists q; split; [done|lra]|done].
      * destruct Hin as [Hin|Hin]; [by left|right; by right].
Qed.

(** [Math.min] folded from [Infinity] over finite numbers: their least. *)
Lemma fold_min_finite (l : list XQ) :
  Forall finite l -> l <> [] ->
  exists m, fold_left Math_min l infinity = Fin m
            /\ Forall (fun v => exists q, v = Fin q /\ m <= q) l
            /\ Fin m ∈ l.
Proof.
  intros Hl Hne. destruct Hl as [|v l [q ->] Hl]; [done|].
  cbn [fold_left].
  change (Math_min infinity (Fin q)) with (Fin q).
  destruct (fold_min_from l q Hl) as (m & -> & Hm & Hall & Hin).
  exists m. split; [done|]. split.
  - constructor; [by exists q|done].
  - destruct Hin as [->|Hin]; [left|by right].
Qed.

Lemma fold_max_finite (l : list XQ) :
  Forall finite l -> l <> [] ->
  exists m, fold_left Math_max l neg_infinity = Fin m
            /\ Forall (fun v => exists q, v = Fin q /\ q <= m) l
            /\ Fin m ∈ l.
Proof.
  intros Hl Hne. destruct Hl as [|v l [q ->] Hl]; [done|].
  cbn [fold_left].
  change (Math_max neg_infinity (Fin q)) with (Fin q).
  destruct (fold_max_from l q Hl) as (m & -> & Hm & Hall & Hin).
  exists m. split; [done|]. split.
  - constructor; [by exists q|done].
  - destruct Hin as [->|Hin]; [left|by right].
Qed.

Lemma finiteWithin_finite lo hi (l : list XQ) :
  Forall (finiteWithin lo hi) l -> Forall finite l.
Proof. intros Hl. eapply Forall_impl; [exact Hl|]. intros v (q & -> & _). by exists q. Qed.

End BoundsExact.

Section TileExact.
Local Open Scope Q_scope.

(** X12.  In exact arithmetic, when the heightfield has at least as many
    columns and rows as there are tile columns and rows, every tile of a
    well-formed heightfield is a well-formed, non-empty heightfield: as
    many finite samples as [width * height], and bounds that two of its
    samples attain, within the bounds of the whole. *)
Theorem extractTileElevationData_wellFormed (fullData : ElevationData XQ)
    (row col : Z) (totalRows totalCols : positive) (lo hi : Q) :
  minElevation fullData = Fin lo -> maxElevation fullData = Fin hi ->
  Forall (finiteWithin lo hi) (elevations fullData) ->
  Z.of_nat (length (elevations fullData)) = (width fullData * height fullData)%Z ->
  (Zpos totalCols <= width fullData)%Z -> (Zpos totalRows <= height fullData)%Z ->
  (0 <= row < Zpos totalRows)%Z -> (0 <= col < Zpos totalCols)%Z ->
  let tile := extractTileElevationData fullData row col totalRows totalCols in
  (0 < width tile)%Z /\ (0 < height tile)%Z
  /\ Z.of_nat (length (elevations tile)) = (width tile * height tile)%Z
  /\ exists m M,
       minElevation tile = Fin m /\ maxElevation tile = Fin M
       /\ lo <= m /\ m <= M /\ M <= hi
       /\ Fin m ∈ elevations tile /\ Fin M ∈ elevations tile
       /\ Forall (finiteWithin m M) (elevations tile).
Proof.
  intros Hmin Hmax Hall Hlen Hcols Hrows Hrow Hcol. cbv zeta.
  destruct (extractTileElevationData_rows fullData row col totalRows totalCols)
    as (Hw & Hh & Hel & Hmn & Hmx).
  set (tile := extractTileElevationData fullData row col totalRows totalCols) in *.
  set (tw := (width fullData / Z.pos totalCols)%Z) in *.
  set (th := (height fullData / Z.pos totalRows)%Z) in *.
  assert (1 <= tw /\ tw * Z.pos totalCols <= width fullData)%Z as [Htw0 Htw].
  { unfold tw. split; [apply Z.div_le_lower_bound; lia|].
    rewrite Z.mul_comm. apply Z.mul_div_le. lia. }
  assert (1 <= th /\ th * Z.pos totalRows <= height fullData)%Z as [Hth0 Hth].
  { unfold th. split; [apply Z.div_le_lower_bound; lia|].
    rewrite Z.mul_comm. apply Z.mul_div_le. lia. }
  assert (0 < width tile /\ col * tw + width tile <= width fullData)%Z as [Hw0 Hw1].
  { rewrite Hw. destruct (Z.eqb_spec col (Z.pos totalCols - 1)); nia. }
  assert (0 < height tile /\ row * th + height tile <= height fullData)%Z as [Hh0 Hh1].
  { rewrite Hh. destruct (Z.eqb_spec row (Z.pos totalRows - 1)); nia. }
  split; [done|]. split; [done|].
  assert (Forall (fun c : list XQ => length c = Z.to_nat (width tile))
            (map (fun j => map (tileSample fullData (col * tw) (row * th) j)
                               (range 0 (width tile)))
                 (range 0 (height tile)))) as Huniform.
  { apply Forall_fmap, Forall_forall. intros j _. cbn.
    rewrite length_map, range_length. f_equal. lia. }
  assert (Z.of_nat (length (elevations tile)) = (width tile * height tile)%Z) as Htlen.
  { rewrite Hel, (concat_length_uniform _ _ Huniform).
    rewrite length_map, range_length. nia. }
  split; [done|].
  assert (Forall (finiteWithin lo hi) (elevations tile)) as Hin.
  { rewrite Hel. apply Forall_concat, Forall_fmap, Forall_forall. intros j Hj.
    apply elem_of_range in Hj. cbn.
    apply Forall_fmap, Forall_forall. intros i Hi. apply elem_of_range in Hi. cbn.
    unfold tileSample.
    assert (0 <= row * th /\ 0 <= col * tw)%Z as [? ?] by nia.
    assert (0 <= (row * th + j) * width fullData + (col * tw + i)
            < width fullData * height fullData)%Z by nia.
    rewrite aget_lookup by lia.
    destruct (lookup_lt_is_Some_2 (elevations fullData)
                (Z.to_nat ((row * th + j) * width fullData + (col * tw + i))))
      as [v Hv]; [lia|].
    rewrite Hv. cbn. rewrite Forall_forall in Hall.
    apply Hall. by apply list_elem_of_lookup_2 in Hv. }
  assert (elevations tile <> []) as Hne.
  { intros Hnil. rewrite Hnil in Htlen. cbn in Htlen. nia. }
  rewrite Hmn, Hmx.
  destruct (fold_min_finite _ (finiteWithin_finite _ _ _ Hin) Hne) as (m & -> & Hmall & Hm).
  destruct (fold_max_finite _ (finiteWithin_finite _ _ _ Hin) Hne) as (M & -> & HMall & HM).
  rewrite Forall_forall in Hin, Hmall, HMall.
  destruct (Hin _ Hm) as (m' & [= <-] & Hm1 & Hm2).
  destruct (Hin _ HM) as (M' & [= <-] & HM1 & HM2).
  destruct (Hmall _ HM) as (M' & [= <-] & HmM).
  exists m, M. repeat (split; [done|]).
  apply Forall_forall. intros v Hv.
  destruct (Hmall v Hv) as (q & -> & Hq1). destruct (HMall _ Hv) as (q' & [= <-] & Hq2).
  by exists q.
Qed.

End TileExact.

(** ** Smoothing moves vertices up and down only *)

Section Topology.
Context {F : Type} `{JSNum F}.
Variable Math_sqrt : F -> F.
Variable Math_exp : F -> F.

(** The index array of a [gw x gh] grid. *)
Definition gridIndices (gw gh : Z) : list Z :=
  fst (fold_left (fun st gy =>
         fold_left (fun st gx => gridCell gw st gy gx) (range 0 (gw - 1)) st)
       (range 0 (gh - 1))
       (replicate (Z.to_nat ((gw - 1) * (gh - 1) * 2 * 3)) 0, 0)).

Lemma generateGridMesh_indices (data : ElevationData F) (options : MeshOptions F) mesh :
  generateGridMesh Math_sqrt data options = Some mesh ->
  indices mesh
  = gridIndices (ceil_div (width data) (default 1%positive (decimationFactor options)))
                (ceil_div (height data) (default 1%positive (decimationFactor options))).
Proof.
  unfold generateGridMesh. cbv zeta.
  destruct (talloc (of_Z 0) _) as [p|]; [|done]. cbn [mbind option_bind].
  destruct (talloc 0 _) as [i|] eqn:Hi; [|done]. cbn [mbind option_bind].
  destruct (calculateNormals _ _ _ _) as [n|]; [|done]. cbn [mbind option_bind].
  intros [= <-]. cbn [indices]. unfold gridIndices.
  unfold talloc in Hi. destruct (_ <? 0); [done|]. by injection Hi as <-.
Qed.

(** X13.  Gaussian and Laplacian smoothing leave the triangulation and the
    horizontal place of every vertex alone: for a heightfield with at
    least one row and one column, [generateTerrainMesh] and
    [generateGridMesh] (no smoothing at all) return the same index array
    and, for every vertex, the same [x] and [y]; only heights differ. *)
Theorem generateTerrainMesh_topology (data : ElevationData F) (options : MeshOptions F) :
  let d := default 1%positive (decimationFactor options) in
  let gw := ceil_div (width data) d in
  let gh := ceil_div (height data) d in
  1 <= width data -> 1 <= height data -> gw * gh <= 2 ^ 32 ->
  exists smoothed plain,
    generateTerrainMesh Math_sqrt Math_exp data options = Some smoothed
    /\ generateGridMesh Math_sqrt data options = Some plain
    /\ indices smoothed = indices plain
    /\ length (positions smoothed) = length (positions plain)
    /\ forall v k, 0 <= v < gw * gh -> 0 <= k < 2 ->
         aget (positions smoothed) (v * 3 + k) = aget (positions plain) (v * 3 + k).
Proof.
  intros d gw gh Hw Hh Hfit.
  destruct (generateGridMesh_written Math_sqrt data options Hw Hh Hfit)
    as (plain & Hplain & Hplen & _ & _ & _ & Hpslots).
  fold d gw gh in Hplen, Hpslots.
  unfold generateTerrainMesh. cbv zeta. fold d.
  set (smoothedData := smoothElevationData Math_exp data _ _).
  destruct (smoothElevationData_size Math_exp data
              (default 1 (smoothingPasses options))
              (default 1 (smoothingRadius options))) as [Hsw Hsh].
  fold smoothedData in Hsw, Hsh.
  set (meshOptions := mkMeshOptions None None (verticalExaggeration options)
                        (meshSize options) (Some d) None).
  destruct (generateGridMesh_written Math_sqrt smoothedData meshOptions)
    as (grid & Hgrid & Hglen & _ & _ & _ & Hgslots);
    cbn [decimationFactor meshOptions default from_option id];
    rewrite ?Hsw, ?Hsh; try done.
  cbn [decimationFactor verticalExaggeration meshSize meshOptions
       default from_option id] in Hglen, Hgslots.
  rewrite Hsw, Hsh in Hglen, Hgslots. fold gw gh in Hglen, Hgslots.
  pose proof (generateGridMesh_indices _ _ _ Hplain) as Hpi.
  pose proof (generateGridMesh_indices _ _ _ Hgrid) as Hgi.
  cbn [decimationFactor meshOptions default from_option id] in Hgi.
  rewrite Hsw, Hsh in Hgi. fold d gw gh in Hpi, Hgi.
  rewrite Hgrid. cbn [mbind option_bind].
  assert (forall v k, 0 <= v < gw * gh -> 0 <= k < 2 ->
            aget (positions grid) (v * 3 + k) = aget (positions plain) (v * 3 + k))
    as Hsame.
  { intros v k Hv Hk.
    assert (1 <= gw) as Hgw by (apply ceil_div_pos; lia).
    pose proof (Z.mod_pos_bound v gw ltac:(lia)).
    pose proof (Z.div_mod v gw ltac:(lia)).
    assert (0 <= v / gw) by (apply Z.div_pos; lia).
    assert (v / gw < gh) by (apply Z.div_lt_upper_bound; lia).
    replace v with (v / gw * gw + v mod gw) by lia.
    rewrite Hgslots, Hpslots by lia. f_equal.
    unfold gridVertexCoord. cbv zeta.
    assert (k = 0 \/ k = 1) as [-> | ->] by lia; reflexivity. }
  destruct (0 <? default 0 (laplacianPasses options)).
  - fold gw gh.
    match goal with |- context [calculateNormals _ ?p ?i ?v] =>
      destruct (calculateNormals_Some Math_sqrt p i v) as [computed ->]; [nia|]
    end.
    cbn [mbind option_bind]. exists (mkMesh
      (applyLaplacianSmoothing (positions grid) (indices grid) gw gh
         (default 0 (laplacianPasses options)) (lit 5 10)) (indices grid) computed), plain.
    split; [done|]. split; [done|]. cbn [positions indices].
    split; [congruence|]. split.
    + rewrite applyLaplacianSmoothing_length. lia.
    + intros v k Hv Hk. rewrite applyLaplacianSmoothing_slot by (intros; lia).
      by apply Hsame.
  - exists grid, plain. split; [done|]. split; [done|].
    split; [congruence|]. split; [lia|done].
Qed.

End Topology.

(** ** The arrays of a TIN *)


Section TINGeometryFacts.
Context {F : Type} `{JSNum F}.
Variable Math_sqrt : F -> F.

(** What is stored for coordinate [k] of a TIN point. *)
Definition tinVertexCoord (data : ElevationData F) (meshSize scaleFactor : F)
    (p : TINPoint F) (k : Z) : F :=
  let halfSize := (meshSize / of_Z 2)%js in
  if k =? 0 then
    Math_fround ((of_Z (tin_x p) / of_Z (width data - 1)) * meshSize - halfSize)%js
  else if k =? 1 then
    Math_fround ((of_Z (tin_y p) / of_Z (height data - 1)) * meshSize - halfSize)%js
  else Math_fround ((tin_z p - minElevation data) * scaleFactor)%js.

Lemma tinPosition_length (tin : TIN F) data meshSize scaleFactor positions i :
  length (tinPosition tin data meshSize scaleFactor positions i) = length positions.
Proof.
  unfold tinPosition. destruct (aget _ _); [|done]. cbv zeta. by rewrite !tset_length.
Qed.

(** After [c] points: those written so far hold their coordinates. *)
Definition pointsWritten (tin : TIN F) (data : ElevationData F)
    (meshSize scaleFactor : F) (c : Z) (positions : list F) : Prop :=
  Z.of_nat (length positions) = Z.of_nat (length (points tin)) * 3
  /\ forall i p k, 0 <= i < c -> aget (points tin) i = Some p -> 0 <= k < 3 ->
       aget positions (i * 3 + k) = Some (tinVertexCoord data meshSize scaleFactor p k).

Lemma tinPositions_written (tin : TIN F) data meshSize scaleFactor :
  let n := Z.of_nat (length (points tin)) in
  pointsWritten tin data meshSize scaleFactor n
    (fold_left (tinPosition tin data meshSize scaleFactor) (range 0 n)
       (replicate (Z.to_nat (n * 3)) (of_Z 0))).
Proof.
  cbv zeta.
  apply (fold_range_invariant (pointsWritten tin data meshSize scaleFactor)).
  - lia.
  - split; [rewrite length_replicate; lia|]. intros i p k Hi. lia.
  - intros i positions Hi [Hlen Hold].
    split; [by rewrite tinPosition_length|].
    intros j p k Hj Hp Hk. unfold tinPosition.
    destruct (aget (points tin) i) as [q|] eqn:Hq.
    2:{ rewrite aget_lookup in Hq by lia. apply lookup_ge_None in Hq. lia. }
    cbv zeta.
    destruct (decide (j = i)) as [->|Hne].
    + assert (p = q) as -> by congruence.
      unfold tinVertexCoord. cbv zeta.
      assert (k = 0 \/ k = 1 \/ k = 2) as [->|[->| ->]] by lia; cbn [Z.eqb Pos.eqb].
      * rewrite Z.add_0_r. rewrite !aget_tset_ne by lia.
        by rewrite aget_tset_eq by lia.
      * rewrite aget_tset_ne by lia.
        by rewrite aget_tset_eq by (rewrite ?tset_length; lia).
      * by rewrite aget_tset_eq by (rewrite ?tset_length; lia).
    + rewrite !aget_tset_ne by lia. apply Hold; (done || lia).
Qed.

(** X14.  [tinToGeometryArrays] never fails: it returns three coordinates
    and three normal components for each point of the TIN and one index
    for each entry of its triangle list; the coordinates of point [i] are
    its grid place mapped to the square of side [meshSize] and its
    elevation above the minimum, scaled; and the indices are the triangle
    list itself when its entries are valid point indices (as those of
    [generateAdaptiveTIN] are). *)
Theorem tinToGeometryArrays_arrays (tin : TIN F) (data : ElevationData F)
    (meshSize verticalExaggeration : option F) :
  let n := Z.of_nat (length (points tin)) in
  let ms := default (of_Z 10) meshSize in
  let scaleFactor :=
    ((of_Z 3 / or_else (maxElevation data - minElevation data)%js (of_Z 1))
     * default (lit 15 10) verticalExaggeration)%js in
  exists mesh,
    tinToGeometryArrays Math_sqrt tin data meshSize verticalExaggeration = Some mesh
    /\ Z.of_nat (length (positions mesh)) = n * 3
    /\ Z.of_nat (length (normals mesh)) = n * 3
    /\ length (indices mesh) = length (triangles tin)
    /\ (n <= 2 ^ 32 -> Forall (fun v => 0 <= v < n) (triangles tin) ->
        indices mesh = triangles tin)
    /\ forall i p k, aget (points tin) i = Some p -> 0 <= k < 3 ->
         aget (positions mesh) (i * 3 + k) = Some (tinVertexCoord data ms scaleFactor p k).
Proof.
  cbv zeta. unfold tinToGeometryArrays. cbv zeta.
  rewrite talloc_Some by lia. cbn [mbind option_bind].
  match goal with |- context [calculateNormals _ ?p ?i ?v] =>
    destruct (calculateNormals_Some Math_sqrt p i v) as [computed Hnormals]; [lia|];
    rewrite Hnormals; apply calculateNormals_length in Hnormals
  end.
  cbn [mbind option_bind]. eexists. split; [done|]. cbn [positions indices normals].
  match goal with |- context [fold_left (tinPosition tin data ?ms ?sf) _ _] =>
    destruct (tinPositions_written tin data ms sf) as [Hlen Hslots]
  end.
  split; [done|]. split; [done|]. split; [by rewrite length_map|]. split.
  - intros Hfit Hvalid. rewrite <- (map_id (triangles tin)) at 2.
    apply Forall_fmap_ext_1. eapply Forall_impl; [exact Hvalid|].
    intros v Hv. cbn beta in Hv. change (to_uint32 v = v). apply to_uint32_small. lia.
  - intros i p k Hp Hk. apply Hslots; [|done|done].
    unfold aget in Hp. destruct (Z.ltb_spec i 0); [done|].
    apply lookup_lt_Some in Hp. lia.
Qed.

(** X15.  The preview pipeline of the TIN: the arrays that
    [tinToGeometryArrays] builds from the result of [generateAdaptiveTIN]
    (with at most [2 ^ 32] points) hold three coordinates per point and
    the triangle list itself as indices, whole triangles, and every index
    addresses a vertex whose three coordinates are in the position
    array. *)
Theorem tinPreview_indices (data : ElevationData F) (maxError : F) (maxPoints : Z)
    (meshSize verticalExaggeration : option F) :
  let tin := generateAdaptiveTIN Math_sqrt data maxError maxPoints in
  let n := Z.of_nat (length (points tin)) in
  n <= 2 ^ 32 ->
  exists mesh,
    tinToGeometryArrays Math_sqrt tin data meshSize verticalExaggeration = Some mesh
    /\ Z.of_nat (length (positions mesh)) = n * 3
    /\ indices mesh = triangles tin
    /\ (exists t : nat, length (indices mesh) = (3 * t)%nat)
    /\ Forall (fun v => 0 <= v /\ v * 3 + 2 < Z.of_nat (length (positions mesh)))
              (indices mesh).
Proof.
  intros tin n Hfit.
  assert (Forall (fun v => 0 <= v < n) (triangles tin)
          /\ exists t : nat, length (triangles tin) = (3 * t)%nat) as [Hvalid Htriples].
  { subst tin n. unfold generateAdaptiveTIN. cbn [points triangles].
    match goal with |- context [delaunayTriangulate ?pts] =>
      destruct (delaunayTriangulate_valid pts) as (Hvalid & Htriples)
    end.
    rewrite length_map in Hvalid. done. }
  unfold tinToGeometryArrays. cbv zeta. fold n.
  rewrite talloc_Some by lia. cbn [mbind option_bind].
  match goal with |- context [calculateNormals _ ?p ?i ?v] =>
    destruct (calculateNormals_Some Math_sqrt p i v) as [computed ->]; [lia|]
  end.
  cbn [mbind option_bind]. eexists. split; [done|]. cbn [positions indices].
  match goal with |- context [fold_left (tinPosition tin data ?ms ?sf) _ _] =>
    destruct (tinPositions_written tin data ms sf) as [Hlen _]
  end.
  fold n in Hlen.
  assert (map to_uint32 (triangles tin) = triangles tin) as ->.
  { rewrite <- (map_id (triangles tin)) at 2.
    apply Forall_fmap_ext_1. eapply Forall_impl; [exact Hvalid|].
    intros v Hv. cbn beta in Hv. change (to_uint32 v = v). apply to_uint32_small. lia. }
  split; [done|]. split; [done|]. split; [done|].
  eapply Forall_impl; [exact Hvalid|]. intros v Hv. cbn beta in *. lia.
Qed.

End TINGeometryFacts.

(** ** The index array of the regular grid *)

Definition someEdge (e : Z * Z) : option Z * option Z := (Some (fst e), Some (snd e)).

Lemma range_step_3 (n : nat) :
  range_step 0 (Z.of_nat (3 + n)) 3 = 0 :: map (Z.add 3) (range_step 0 (Z.of_nat n) 3).
Proof.
  unfold range_step.
  replace (Z.to_nat ((Z.of_nat (3 + n) - 0 + 3 - 1) / 3))
    with (S (Z.to_nat ((Z.of_nat n - 0 + 3 - 1) / 3))).
  2:{ replace (Z.of_nat (3 + n) - 0 + 3 - 1) with (1 * 3 + (Z.of_nat n - 0 + 3 - 1)) by lia.
      rewrite Z.div_add_l by lia.
      assert (0 <= (Z.of_nat n - 0 + 3 - 1) / 3) by (apply Z.div_pos; lia). lia. }
  rewrite <- cons_seq. cbn [map]. f_equal.
  rewrite <- fmap_S_seq, <- !list_fmap_compose.
  apply list_fmap_ext. intros _ k _. cbn. lia.
Qed.

Lemma aget_shift3 {A} (a b c : A) (rest : list A) (i : Z) :
  0 <= i -> aget (a :: b :: c :: rest) (3 + i) = aget rest i.
Proof.
  intros Hi. rewrite !aget_lookup by lia.
  replace (Z.to_nat (3 + i)) with (S (S (S (Z.to_nat i)))) by lia. done.
Qed.

Lemma elem_of_range_step_3 n i : i ∈ range_step 0 n 3 -> 0 <= i.
Proof.
  unfold range_step. intros Hi. apply list_elem_of_fmap in Hi as (k & -> & _). lia.
Qed.

(** The edges of the first triangle, then those of the others. *)
Lemma triangleEdgeList_cons3 (a b c : Z) (rest : list Z) :
  triangleEdgeList (a :: b :: c :: rest)
  = map someEdge [(a, b); (b, c); (c, a)] ++ triangleEdgeList rest.
Proof.
  unfold triangleEdgeList. cbn [length].
  change (S (S (S (length rest)))) with (3 + length rest)%nat.
  rewrite range_step_3. cbn [map concat app].
  do 3 f_equal. f_equal.
  rewrite <- list_fmap_compose. apply list_fmap_ext. intros k i Hi.
  apply list_elem_of_lookup_2, elem_of_range_step_3 in Hi. cbn.
  replace (3 + i + 1) with (3 + (i + 1)) by lia.
  replace (3 + i + 2) with (3 + (i + 2)) by lia.
  by rewrite !aget_shift3 by lia.
Qed.

(** The six edges of the two triangles of a cell, in the order of the
    index array. *)
Definition cellEdgePairs (gw gy gx : Z) : list (Z * Z) :=
  let topLeft := gy * gw + gx in
  let topRight := topLeft + 1 in
  let bottomLeft := (gy + 1) * gw + gx in
  let bottomRight := bottomLeft + 1 in
  [(topLeft, bottomLeft); (bottomLeft, topRight); (topRight, topLeft);
   (topRight, bottomLeft); (bottomLeft, bottomRight); (bottomRight, topRight)].

(** The index array of the [gw x gh] grid, cell after cell, and its edges. *)
Definition gridIndexList (gw gh : Z) : list Z :=
  concat (map (fun gy => concat (map (cellIndices gw gy) (range 0 (gw - 1))))
              (range 0 (gh - 1))).

Definition gridEdges (gw gh : Z) : list (Z * Z) :=
  concat (map (fun gy => concat (map (cellEdgePairs gw gy) (range 0 (gw - 1))))
              (range 0 (gh - 1))).

Lemma triangleEdgeList_cell (gw gy gx : Z) (rest : list Z) :
  triangleEdgeList (cellIndices gw gy gx ++ rest)
  = map someEdge (cellEdgePairs gw gy gx) ++ triangleEdgeList rest.
Proof.
  unfold cellIndices, cellEdgePairs. cbv zeta. cbn [app].
  rewrite !triangleEdgeList_cons3. cbn [map app]. done.
Qed.

Lemma triangleEdgeList_row (gw gy : Z) (xs : list Z) (rest : list Z) :
  triangleEdgeList (concat (map (cellIndices gw gy) xs) ++ rest)
  = map someEdge (concat (map (cellEdgePairs gw gy) xs)) ++ triangleEdgeList rest.
Proof.
  induction xs as [|gx xs IH]; [done|].
  cbn [map concat]. rewrite <- app_assoc, triangleEdgeList_cell, IH.
  by rewrite map_app, <- app_assoc.
Qed.

Lemma triangleEdgeList_rows (gw : Z) (xs ys : list Z) :
  triangleEdgeList (concat (map (fun gy => concat (map (cellIndices gw gy) xs)) ys))
  = map someEdge (concat (map (fun gy => concat (map (cellEdgePairs gw gy) xs)) ys)).
Proof.
  induction ys as [|gy ys IH]; [done|].
  cbn [map concat]. rewrite triangleEdgeList_row, IH. by rewrite map_app.
Qed.

Lemma triangleEdgeList_grid (gw gh : Z) :
  triangleEdgeList (gridIndexList gw gh) = map someEdge (gridEdges gw gh).
Proof. apply triangleEdgeList_rows. Qed.

Lemma gridRow_length gw gy (xs : list Z) :
  length (concat (map (cellIndices gw gy) xs)) = (6 * length xs)%nat.
Proof.
  rewrite (concat_length_uniform 6); [by rewrite length_map|].
  apply Forall_fmap, Forall_forall. by intros x _.
Qed.

Lemma gridIndexList_lookup (gw gh gy gx d : Z) :
  0 <= gy < gh - 1 -> 0 <= gx < gw - 1 -> 0 <= d < 6 ->
  aget (gridIndexList gw gh) (6 * (gy * (gw - 1) + gx) + d)
  = aget (cellIndices gw gy gx) d.
Proof.
  intros Hgy Hgx Hd. assert (0 <= gy * (gw - 1)) by nia.
  rewrite !aget_lookup by lia. unfold gridIndexList.
  replace (Z.to_nat (6 * (gy * (gw - 1) + gx) + d))
    with (6 * Z.to_nat (gw - 1) * Z.to_nat gy + (6 * Z.to_nat gx + Z.to_nat d))%nat by nia.
  rewrite (concat_lookup_uniform (6 * Z.to_nat (gw - 1)) _ (Z.to_nat gy) _
             (concat (map (cellIndices gw gy) (range 0 (gw - 1))))).
  - rewrite (concat_lookup_uniform 6 _ (Z.to_nat gx) _ (cellIndices gw gy gx)); [done| | |lia].
    + apply Forall_fmap, Forall_forall. by intros x _.
    + rewrite list_lookup_fmap, range_lookup by lia. cbn.
      by replace (0 + Z.of_nat (Z.to_nat gx)) with gx by lia.
  - apply Forall_fmap, Forall_forall. intros y _. unfold compose. cbn beta.
    rewrite gridRow_length, range_length. lia.
  - rewrite list_lookup_fmap, range_lookup by lia. cbn.
    by replace (0 + Z.of_nat (Z.to_nat gy)) with gy by lia.
  - nia.
Qed.

Lemma gridIndexList_length (gw gh : Z) :
  1 <= gw -> 1 <= gh ->
  Z.of_nat (length (gridIndexList gw gh)) = 6 * ((gw - 1) * (gh - 1)).
Proof.
  intros Hgw Hgh. unfold gridIndexList.
  rewrite (concat_length_uniform (6 * Z.to_nat (gw - 1))).
  - rewrite length_map, range_length. nia.
  - apply Forall_fmap, Forall_forall. intros y _. unfold compose. cbn beta.
    rewrite gridRow_length, range_length. lia.
Qed.

(** After [c] cells of the index loop on a [gw]-wide grid: the write
    cursor is at [6 c] and the cells written so far hold their indices. *)
Definition cellsFilled (gw total c : Z) (st : list Z * Z) : Prop :=
  snd st = 6 * c
  /\ Z.of_nat (length (fst st)) = total
  /\ forall gy gx d, 0 <= gy -> 0 <= gx < gw - 1 -> gy * (gw - 1) + gx < c ->
       0 <= d < 6 ->
       aget (fst st) (6 * (gy * (gw - 1) + gx) + d) = aget (cellIndices gw gy gx) d.

Lemma gridCell_filled gw gh total gy gx st :
  gw * gh <= 2 ^ 32 ->
  0 <= gy < gh - 1 -> 0 <= gx < gw - 1 ->
  6 * (gy * (gw - 1) + gx + 1) <= total ->
  cellsFilled gw total (gy * (gw - 1) + gx) st ->
  cellsFilled gw total (gy * (gw - 1) + gx + 1) (gridCell gw st gy gx).
Proof.
  intros Hfit Hgy Hgx Htotal (Hcur & Hlen & Hold).
  destruct st as [indices triIdx]. cbn [fst snd] in *. subst triIdx.
  unfold gridCell. cbv zeta. cbn [fst snd].
  assert (0 <= gy * (gw - 1)) by nia.
  assert (0 <= gy * gw) by nia.
  assert ((gy + 1) * gw <= (gh - 1) * gw) by nia.
  rewrite !to_uint32_small by lia.
  unfold cellsFilled. cbn [fst snd].
  split; [lia|]. split; [by rewrite !tset_length|].
  intros gy' gx' d Hgy' Hgx' Hlt Hd.
  destruct (decide (gy' * (gw - 1) + gx' < gy * (gw - 1) + gx)) as [Hbefore|Hnow].
  - rewrite !aget_tset_ne by lia. by apply Hold.
  - assert (gy' * (gw - 1) + gx' = gy * (gw - 1) + gx) as Hsame by lia.
    apply vertex_index_inj in Hsame as [-> ->]; [|lia|lia].
    assert (d = 0 \/ d = 1 \/ d = 2 \/ d = 3 \/ d = 4 \/ d = 5) as Hcase by lia.
    destruct Hcase as [->|[->|[->|[->|[->| ->]]]]];
      rewrite ?Z.add_0_r;
      rewrite ?aget_tset_ne by lia;
      (rewrite aget_tset_eq by (rewrite ?tset_length; lia)); done.
Qed.

Lemma gridCells_filled gw gh (indices : list Z) :
  1 <= gw -> 1 <= gh -> gw * gh <= 2 ^ 32 ->
  Z.of_nat (length indices) = 6 * ((gw - 1) * (gh - 1)) ->
  cellsFilled gw (6 * ((gw - 1) * (gh - 1))) ((gh - 1) * (gw - 1))
    (fold_left (fun st gy =>
       fold_left (fun st gx => gridCell gw st gy gx) (range 0 (gw - 1)) st)
     (range 0 (gh - 1)) (indices, 0)).
Proof.
  intros Hgw Hgh Hfit Hlen.
  apply (fold_range_invariant
           (fun gy st => cellsFilled gw (6 * ((gw - 1) * (gh - 1))) (gy * (gw - 1)) st)).
  - lia.
  - split; [cbn; lia|]. split; [done|]. intros gy gx d ? ? ?. nia.
  - intros gy st Hgy Hst.
    replace ((gy + 1) * (gw - 1)) with (gy * (gw - 1) + (gw - 1)) by lia.
    apply (fold_range_invariant
             (fun gx st => cellsFilled gw (6 * ((gw - 1) * (gh - 1))) (gy * (gw - 1) + gx) st)).
    + lia.
    + by rewrite Z.add_0_r.
    + intros gx st' Hgx Hst'.
      replace (gy * (gw - 1) + (gx + 1)) with (gy * (gw - 1) + gx + 1) by lia.
      apply (gridCell_filled gw gh); try done. nia.
Qed.

(** The index loop of [generateGridMesh] writes the cells one after the
    other, row by row. *)
Lemma gridIndices_cells (gw gh : Z) :
  1 <= gw -> 1 <= gh -> gw * gh <= 2 ^ 32 ->
  gridIndices gw gh = gridIndexList gw gh.
Proof.
  intros Hgw Hgh Hfit. unfold gridIndices.
  destruct (gridCells_filled gw gh
              (replicate (Z.to_nat ((gw - 1) * (gh - 1) * 2 * 3)) 0) Hgw Hgh Hfit)
    as (_ & Hlen & Hcells).
  { rewrite length_replicate. nia. }
  set (written := fst _) in *.
  pose proof (gridIndexList_length gw gh Hgw Hgh) as Hglen.
  apply (list_eq_same_length _ _ (length written)); [lia|done|].
  intros i x y Hi Hx Hy.
  set (M := gw - 1) in *.
  assert (1 <= M) as HM by nia.
  pose proof (Z.div_mod (Z.of_nat i) 6 ltac:(lia)) as Hi6.
  pose proof (Z.mod_pos_bound (Z.of_nat i) 6 ltac:(lia)) as Hd.
  set (c := Z.of_nat i / 6) in *. set (d := Z.of_nat i mod 6) in *.
  assert (0 <= c < M * (gh - 1)) as Hc by lia.
  pose proof (Z.div_mod c M ltac:(lia)) as HcM.
  pose proof (Z.mod_pos_bound c M ltac:(lia)) as Hgx.
  assert (0 <= c / M) by (apply Z.div_pos; lia).
  assert (c / M < gh - 1) by (apply Z.div_lt_upper_bound; lia).
  specialize (Hcells (c / M) (c mod M) d ltac:(lia) ltac:(lia) ltac:(lia) ltac:(lia)).
  pose proof (gridIndexList_lookup gw gh (c / M) (c mod M) d ltac:(lia) ltac:(lia) ltac:(lia))
    as Hgrid.
  fold M in Hgrid.
  replace (6 * (c / M * M + c mod M) + d) with (Z.of_nat i) in Hcells, Hgrid by lia.
  rewrite aget_lookup in Hcells, Hgrid by lia. rewrite Nat2Z.id in Hcells, Hgrid.
  congruence.
Qed.

(** ** Counting the boundary of the regular grid *)

(** 1 when the proposition holds, 0 otherwise. *)
Definition ind (P : Prop) `{Decision P} : nat := if decide P then 1%nat else 0%nat.

(** The number of occurrences of [a] in [l]. *)
Definition occ {A} `{EqDecision A} (a : A) (l : list A) : nat :=
  length (filter (fun x => x = a) l).

(** The two ends of an edge, smaller index first. *)
Definition ukey (e : Z * Z) : Z * Z :=
  if fst e <? snd e then e else (snd e, fst e).

(** The six edges of the cell with top-left vertex [t], smaller end first. *)
Definition cellKeys (gw t : Z) : list (Z * Z) :=
  [(t, t + gw); (t + 1, t + gw); (t, t + 1);
   (t + 1, t + gw); (t + gw, t + gw + 1); (t + 1, t + gw + 1)].

(** The top-left vertices of the cells of the [gw x gh] grid. *)
Definition topLefts (gw gh : Z) : list Z :=
  concat (map (fun gy => map (fun gx => gy * gw + gx) (range 0 (gw - 1)))
              (range 0 (gh - 1))).

Lemma ind_ext (P Q : Prop) `{Decision P, Decision Q} : (P <-> Q) -> ind P = ind Q.
Proof. intros HPQ. unfold ind. by apply decide_ext. Qed.

Lemma ind_False (P : Prop) `{Decision P} : ~ P -> ind P = 0%nat.
Proof. intros HP. unfold ind. by rewrite decide_False. Qed.

Lemma ind_one_more (P : Prop) `{Decision P} :
  ind ((1 + ind P)%nat = 1%nat) = ind (~ P).
Proof. unfold ind. repeat case_decide; done || lia. Qed.

Lemma occ_nil {A} `{EqDecision A} (a : A) : occ a [] = 0%nat.
Proof. done. Qed.

Lemma occ_cons {A} `{EqDecision A} (a x : A) (l : list A) :
  occ a (x :: l) = (ind (x = a) + occ a l)%nat.
Proof. unfold occ, ind. rewrite filter_cons. by destruct (decide (x = a)). Qed.

Lemma occ_app {A} `{EqDecision A} (a : A) (l k : list A) :
  occ a (l ++ k) = (occ a l + occ a k)%nat.
Proof. unfold occ. by rewrite filter_app, length_app. Qed.

Lemma ind_pair (a b c d : Z) : ind ((a, b) = (c, d)) = ind (a = c /\ b = d).
Proof. apply ind_ext. split; [by intros [= -> ->]|by intros [-> ->]]. Qed.

Lemma edgeKey_ukey (e : Z * Z) :
  edgeKey (Some (fst e)) (Some (snd e)) = someEdge (ukey e).
Proof. unfold edgeKey, ukey. destruct e as [a b]. cbn [fst snd]. by destruct (a <? b). Qed.

Lemma someEdge_inj (e e' : Z * Z) : someEdge e = someEdge e' -> e = e'.
Proof. destruct e, e'. unfold someEdge. cbn. by intros [= -> ->]. Qed.

(** The uses of an edge are the occurrences of its key. *)
Lemma edgeUses_keys (L : list (Z * Z)) (e : Z * Z) :
  edgeUses (map someEdge L) (someEdge e) = occ (ukey e) (map ukey L).
Proof.
  unfold edgeUses, occ. cbn [someEdge fst snd]. rewrite edgeKey_ukey.
  induction L as [|x L IH]; [done|].
  cbn [map]. rewrite !filter_cons. cbn [someEdge fst snd]. rewrite edgeKey_ukey.
  repeat case_decide; cbn [length]; try by rewrite IH.
  - exfalso. by apply someEdge_inj in H.
  - exfalso. by rewrite H0 in H.
Qed.

Lemma unshared_keys (L L' : list (Z * Z)) :
  length (filter (fun e => edgeUses (map someEdge L) e = 1%nat) (map someEdge L'))
  = length (filter (fun e => occ (ukey e) (map ukey L) = 1%nat) L').
Proof.
  induction L' as [|x L' IH]; [done|].
  cbn [map]. rewrite !filter_cons. rewrite edgeUses_keys.
  destruct (decide (occ (ukey x) (map ukey L) = 1%nat)); cbn [length]; by rewrite IH.
Qed.

Lemma ukey_cellEdgePairs (gw gy gx : Z) :
  2 <= gw -> map ukey (cellEdgePairs gw gy gx) = cellKeys gw (gy * gw + gx).
Proof.
  intros Hgw. unfold cellEdgePairs, cellKeys. cbv zeta.
  replace ((gy + 1) * gw + gx) with (gy * gw + gx + gw) by lia.
  set (t := gy * gw + gx). cbn [map]. unfold ukey. cbn [fst snd].
  repeat match goal with |- context [?a <? ?b] => destruct (Z.ltb_spec a b); try lia end. done.
Qed.

Lemma ukey_gridEdges (gw gh : Z) :
  2 <= gw -> map ukey (gridEdges gw gh) = concat (map (cellKeys gw) (topLefts gw gh)).
Proof.
  intros Hgw. unfold gridEdges, topLefts.
  induction (range 0 (gh - 1)) as [|gy ys IH]; [done|].
  cbn [map concat]. rewrite !map_app, concat_app, IH. f_equal.
  clear IH. induction (range 0 (gw - 1)) as [|gx xs IHx]; [done|].
  cbn [map concat]. by rewrite map_app, IHx, ukey_cellEdgePairs.
Qed.

(** How often a key occurs among the edges of one cell. *)
Lemma occ_cellKeys (gw t p q : Z) :
  occ (p, q) (cellKeys gw t)
  = (ind (q = p + gw)%Z * (ind (t = p)%Z + ind (t = p - 1)%Z)
     + ind (q = p + gw - 1)%Z * (2 * ind (t = p - 1)%Z)
     + ind (q = p + 1)%Z * (ind (t = p)%Z + ind (t = p - gw)%Z))%nat.
Proof.
  unfold cellKeys. rewrite !occ_cons, occ_nil, !ind_pair. unfold ind.
  repeat (case_decide; try lia).
Qed.

Lemma occ_gridKeys (gw p q : Z) (tls : list Z) :
  occ (p, q) (concat (map (cellKeys gw) tls))
  = (ind (q = p + gw)%Z * (occ p tls + occ (p - 1)%Z tls)
     + ind (q = p + gw - 1)%Z * (2 * occ (p - 1)%Z tls)
     + ind (q = p + 1)%Z * (occ p tls + occ (p - gw)%Z tls))%nat.
Proof.
  induction tls as [|t tls IH]; [cbn; lia|].
  cbn [map concat]. rewrite occ_app, occ_cellKeys, IH, !occ_cons. lia.
Qed.

Lemma occ_seq_map (g : nat -> Z) (c v : Z) (n : nat) :
  (forall k, g k = c + Z.of_nat k) ->
  occ v (map g (seq 0 n)) = ind (0 <= v - c < Z.of_nat n).
Proof.
  intros Hg. induction n as [|n IH].
  - unfold ind. case_decide; [lia|done].
  - rewrite seq_S, map_app, occ_app, IH. cbn [map]. rewrite occ_cons, occ_nil, Hg.
    unfold ind. repeat case_decide; lia.
Qed.

Lemma occ_range (v m : Z) : occ v (range 0 m) = ind (0 <= v < m).
Proof.
  unfold range. rewrite (occ_seq_map _ 0) by done.
  apply ind_ext. lia.
Qed.

Lemma occ_range_shift (c v m : Z) :
  occ v (map (fun x => c + x) (range 0 m)) = ind (0 <= v - c < m).
Proof.
  unfold range. rewrite map_map. rewrite (occ_seq_map _ c) by (intros; lia).
  apply ind_ext. lia.
Qed.

Lemma occ_concat_pick {A} `{EqDecision A} (f : Z -> list A) (v : A) (a : Z)
    (c : nat) (l : list Z) :
  (forall y, occ v (f y) = (ind (y = a) * c)%nat) ->
  occ v (concat (map f l)) = (occ a l * c)%nat.
Proof.
  intros Hf. induction l as [|y l IH]; [done|].
  cbn [map concat]. rewrite occ_app, Hf, IH, occ_cons. lia.
Qed.

(** A vertex is the top-left one of a cell when its row and its column
    are not the last ones. *)
Lemma occ_topLefts (gw gh a b : Z) :
  0 <= b < gw ->
  occ (a * gw + b) (topLefts gw gh) = ind (0 <= a < gh - 1 /\ b < gw - 1).
Proof.
  intros Hb. unfold topLefts.
  rewrite (occ_concat_pick _ _ a (ind (b < gw - 1))).
  - rewrite occ_range. unfold ind. repeat case_decide; lia.
  - intros y. rewrite (occ_range_shift (y * gw)).
    unfold ind. repeat case_decide; (lia || nia).
Qed.

Lemma occ_topLefts_at (gw gh v gy gx : Z) :
  1 <= gw -> v = gy * gw + gx -> -1 <= gx < gw ->
  occ v (topLefts gw gh) = ind (0 <= gy < gh - 1 /\ 0 <= gx < gw - 1).
Proof.
  intros Hgw -> Hgx. destruct (decide (gx = -1)) as [->|Hne].
  - replace (gy * gw + -1) with ((gy - 1) * gw + (gw - 1)) by lia.
    rewrite occ_topLefts by lia. apply ind_ext. lia.
  - rewrite occ_topLefts by lia. apply ind_ext. lia.
Qed.

Lemma length_filter_ind {A} (P : A -> Prop) `{forall x, Decision (P x)} (l : list A) :
  length (filter P l) = sum_list_with (fun x => ind (P x)) l.
Proof.
  induction l as [|x l IH]; [done|].
  rewrite filter_cons. cbn [sum_list_with]. unfold ind at 1.
  destruct (decide (P x)); cbn [length]; lia.
Qed.

(** How many triangles use each edge of a cell: the left, top, bottom and
    right ones are shared with the cell on that side, if there is one,
    the diagonal with the other triangle of the cell. *)
Lemma cell_uses (gw gh gy gx : Z) :
  2 <= gw -> 2 <= gh -> 0 <= gy < gh - 1 -> 0 <= gx < gw - 1 ->
  let t := gy * gw + gx in
  let keys := concat (map (cellKeys gw) (topLefts gw gh)) in
  occ (t, t + gw) keys = (1 + ind (1 <= gx)%Z)%nat
  /\ (2 <= occ (t + 1, t + gw)%Z keys)%nat
  /\ occ (t, t + 1) keys = (1 + ind (1 <= gy)%Z)%nat
  /\ occ (t + gw, t + gw + 1) keys = (1 + ind (gy + 1 < gh - 1)%Z)%nat
  /\ occ (t + 1, t + gw + 1) keys = (1 + ind (gx + 1 < gw - 1)%Z)%nat.
Proof.
  intros Hgw Hgh Hgy Hgx t keys. subst keys.
  rewrite !occ_gridKeys.
  rewrite (occ_topLefts_at gw gh t gy gx) by (subst t; lia).
  rewrite (occ_topLefts_at gw gh (t - 1) gy (gx - 1)) by (subst t; lia).
  rewrite (occ_topLefts_at gw gh (t - gw) (gy - 1) gx) by (subst t; lia).
  rewrite (occ_topLefts_at gw gh (t + 1) gy (gx + 1)) by (subst t; lia).
  rewrite (occ_topLefts_at gw gh (t + 1 - 1) gy gx) by (subst t; lia).
  rewrite (occ_topLefts_at gw gh (t + 1 - gw) (gy - 1) (gx + 1)) by (subst t; lia).
  rewrite (occ_topLefts_at gw gh (t + gw) (gy + 1) gx) by (subst t; lia).
  rewrite (occ_topLefts_at gw gh (t + gw - 1) (gy + 1) (gx - 1)) by (subst t; lia).
  rewrite (occ_topLefts_at gw gh (t + gw - gw) gy gx) by (subst t; lia).
  clearbody t. unfold ind.
  repeat split; repeat (case_decide; try lia).
Qed.

(** The edges of a cell that no other triangle shares: those on the rim
    of the grid. *)
Lemma cell_unshared (gw gh gy gx : Z) :
  2 <= gw -> 2 <= gh -> 0 <= gy < gh - 1 -> 0 <= gx < gw - 1 ->
  length (filter (fun e => occ (ukey e) (map ukey (gridEdges gw gh)) = 1%nat)
                 (cellEdgePairs gw gy gx))
  = (ind (gx = 0)%Z + ind (gy = 0)%Z + ind (gy = gh - 2)%Z + ind (gx = gw - 2)%Z)%nat.
Proof.
  intros Hgw Hgh Hgy Hgx. rewrite ukey_gridEdges by done.
  pose proof (ukey_cellEdgePairs gw gy gx Hgw) as Hkeys.
  destruct (cell_uses gw gh gy gx Hgw Hgh Hgy Hgx) as (U1 & U2 & U3 & U5 & U6).
  rewrite length_filter_ind.
  unfold cellEdgePairs, cellKeys in Hkeys. unfold cellEdgePairs.
  cbv zeta in *. cbn [map] in Hkeys.
  injection Hkeys as H1 H2 H3 H4 H5 H6.
  cbn [sum_list_with]. rewrite H1, H2, H3, H4, H5, H6, U1, U3, U5, U6.
  rewrite !ind_one_more, (ind_False (occ _ _ = 1%nat)) by lia.
  rewrite (ind_ext (~ 1 <= gx) (gx = 0)) by lia.
  rewrite (ind_ext (~ 1 <= gy) (gy = 0)) by lia.
  rewrite (ind_ext (~ gy + 1 < gh - 1) (gy = gh - 2)) by lia.
  rewrite (ind_ext (~ gx + 1 < gw - 1) (gx = gw - 2)) by lia.
  lia.
Qed.

Lemma length_filter_concat {A B} (P : A -> Prop) `{forall x, Decision (P x)}
    (f : B -> list A) (l : list B) :
  length (filter P (concat (map f l)))
  = sum_list_with (fun x => length (filter P (f x))) l.
Proof.
  induction l as [|x l IH]; [done|].
  cbn [map concat sum_list_with]. by rewrite filter_app, length_app, IH.
Qed.

Lemma sum_list_with_ext_in {A} (f g : A -> nat) (l : list A) :
  (forall x, x ∈ l -> f x = g x) -> sum_list_with f l = sum_list_with g l.
Proof.
  induction l as [|x l IH]; intros Hfg; [done|].
  cbn [sum_list_with]. rewrite Hfg by left. rewrite IH; [done|].
  intros y Hy. apply Hfg. by right.
Qed.

(** A sum over a row (or a column) of cells in which the first and the
    last one count [a] more than the others. *)
Lemma rim_sum (m : Z) (a b : nat) :
  1 <= m ->
  sum_list_with (fun x => (ind (x = 0)%Z * a + b + ind (x = m - 1)%Z * a)%nat) (range 0 m)
  = (2 * a + b * Z.to_nat m)%nat.
Proof.
  intros Hm.
  assert (forall l : list Z,
            sum_list_with (fun x => (ind (x = 0)%Z * a + b + ind (x = m - 1)%Z * a)%nat) l
            = (occ 0%Z l * a + b * length l + occ (m - 1)%Z l * a)%nat) as ->.
  { induction l as [|x l IH]; [cbn; lia|].
    cbn [sum_list_with length]. rewrite IH, !occ_cons. lia. }
  rewrite !occ_range, range_length.
  rewrite Z.sub_0_r. unfold ind. repeat case_decide; lia.
Qed.

(** The unshared edges of the [gw x gh] grid are those of its rim. *)
Lemma grid_unshared (gw gh : Z) :
  2 <= gw -> 2 <= gh ->
  length (filter (fun e => occ (ukey e) (map ukey (gridEdges gw gh)) = 1%nat)
                 (gridEdges gw gh))
  = Z.to_nat (2 * (gw - 1) + 2 * (gh - 1)).
Proof.
  intros Hgw Hgh. set (keys := map ukey (gridEdges gw gh)).
  unfold gridEdges. rewrite length_filter_concat.
  rewrite (sum_list_with_ext_in _
             (fun gy => (ind (gy = 0)%Z * Z.to_nat (gw - 1) + 2
                         + ind (gy = gh - 1 - 1)%Z * Z.to_nat (gw - 1))%nat)).
  - rewrite rim_sum by lia. lia.
  - intros gy Hgy%elem_of_range. rewrite length_filter_concat.
    rewrite (sum_list_with_ext_in _
               (fun gx => (ind (gx = 0)%Z * 1
                           + (ind (gy = 0)%Z + ind (gy = gh - 1 - 1)%Z)
                           + ind (gx = gw - 1 - 1)%Z * 1)%nat)).
    + rewrite rim_sum by lia. lia.
    + intros gx Hgx%elem_of_range. subst keys. rewrite cell_unshared by lia.
      rewrite (ind_ext (gx = gw - 2) (gx = gw - 1 - 1)) by lia.
      rewrite (ind_ext (gy = gh - 2) (gy = gh - 1 - 1)) by lia. lia.
Qed.

Section GridBoundary.
Context {F : Type} `{JSNum F}.

(** The top surface of a [gw x gh] grid has [2 (gw - 1) + 2 (gh - 1)]
    boundary edges, whatever the vertex positions. *)
Lemma grid_boundary (positions : list F) (gw gh : Z) :
  2 <= gw -> 2 <= gh ->
  length (getBoundaryEdges (mkGeometry positions (Some (gridIndexList gw gh))))
  = Z.to_nat (2 * (gw - 1) + 2 * (gh - 1)).
Proof.
  intros Hgw Hgh.
  rewrite getBoundaryEdges_filter, length_map, triangleEdgeList_grid.
  rewrite unshared_keys. by apply grid_unshared.
Qed.

End GridBoundary.

(** ** The exported solid *)

Lemma range_step_length_3 (k : Z) :
  0 <= k -> length (range_step 0 (3 * k) 3) = Z.to_nat k.
Proof.
  intros Hk. unfold range_step. rewrite length_map, length_seq.
  f_equal. replace (3 * k - 0 + 3 - 1) with (k * 3 + 2) by lia.
  rewrite Z.div_add_l by lia. change (2 / 3) with 0. lia.
Qed.

Section TerrainExportSize.
Context {F : Type} `{JSNum F}.
Variable Math_sqrt : F -> F.
Variable Math_exp : F -> F.
Variable float32_bits : F -> Z.

(** The mesh of a heightfield is triangulated as the regular grid,
    whatever the smoothing. *)
Lemma generateTerrainMesh_grid (data : ElevationData F) (options : MeshOptions F) :
  let d := default 1%positive (decimationFactor options) in
  let gw := ceil_div (width data) d in
  let gh := ceil_div (height data) d in
  1 <= width data -> 1 <= height data -> gw * gh <= 2 ^ 32 ->
  exists mesh,
    generateTerrainMesh Math_sqrt Math_exp data options = Some mesh
    /\ indices mesh = gridIndexList gw gh.
Proof.
  intros d gw gh Hw Hh Hfit.
  assert (1 <= gw) as Hgw by (apply ceil_div_pos; lia).
  assert (1 <= gh) as Hgh by (apply ceil_div_pos; lia).
  unfold generateTerrainMesh. cbv zeta. fold d.
  set (smoothedData := smoothElevationData Math_exp data _ _).
  destruct (smoothElevationData_size Math_exp data
              (default 1 (smoothingPasses options))
              (default 1 (smoothingRadius options))) as [Hsw Hsh].
  fold smoothedData in Hsw, Hsh.
  set (meshOptions := mkMeshOptions None None (verticalExaggeration options)
                        (meshSize options) (Some d) None).
  destruct (generateGridMesh_written Math_sqrt smoothedData meshOptions)
    as (grid & Hgrid & _);
    cbn [decimationFactor meshOptions default from_option id];
    rewrite ?Hsw, ?Hsh; try done.
  pose proof (generateGridMesh_indices _ _ _ _ Hgrid) as Hgi.
  cbn [decimationFactor meshOptions default from_option id] in Hgi.
  rewrite Hsw, Hsh in Hgi. fold d gw gh in Hgi.
  rewrite gridIndices_cells in Hgi by done.
  rewrite Hgrid. cbn [mbind option_bind].
  destruct (0 <? default 0 (laplacianPasses options)).
  - fold gw gh.
    match goal with |- context [calculateNormals _ ?p ?i ?v] =>
      destruct (calculateNormals_Some Math_sqrt p i v) as [computed ->]; [nia|]
    end.
    cbn [mbind option_bind]. eexists. split; [done|]. done.
  - by exists grid.
Qed.

(** X16.  At any decimation, on a heightfield with at least one row and one
    column, [generateGridMesh] returns a grid of
    [gw = ceil(width / d)] by [gh = ceil(height / d)] vertices: three
    coordinates and three normal components for each, the coordinates of
    vertex [(gx, gy)] being its place in the square of side [meshSize]
    and the scaled height of the sample [(min(gx d, width - 1),
    min(gy d, height - 1))]; the indices are those of the cells, row by
    row, two triangles each, and all address a vertex. *)
Theorem generateGridMesh_arrays (data : ElevationData F) (options : MeshOptions F) :
  let decimation := default 1%positive (decimationFactor options) in
  let meshSize := default (of_Z 10) (meshSize options) in
  let elevationRange := or_else (maxElevation data - minElevation data)%js (of_Z 1) in
  let scaleFactor :=
    ((of_Z 3 / elevationRange) * default (lit 15 10) (verticalExaggeration options))%js in
  let gw := ceil_div (width data) decimation in
  let gh := ceil_div (height data) decimation in
  1 <= width data -> 1 <= height data -> gw * gh <= 2 ^ 32 ->
  exists mesh,
    generateGridMesh Math_sqrt data options = Some mesh
    /\ Z.of_nat (length (positions mesh)) = gw * gh * 3
    /\ Z.of_nat (length (normals mesh)) = gw * gh * 3
    /\ indices mesh = gridIndexList gw gh
    /\ Z.of_nat (length (indices mesh)) = (gw - 1) * (gh - 1) * 2 * 3
    /\ Forall (fun i => 0 <= i < gw * gh) (indices mesh)
    /\ forall gy gx k, 0 <= gy < gh -> 0 <= gx < gw -> 0 <= k < 3 ->
         aget (positions mesh) ((gy * gw + gx) * 3 + k)
         = Some (gridVertexCoord data decimation meshSize scaleFactor gw gh gy gx k).
Proof.
  intros d ms er sf gw gh Hw Hh Hfit.
  destruct (generateGridMesh_written Math_sqrt data options Hw Hh Hfit)
    as (mesh & Hmesh & Hpos & Hnormals & Hlen & Hvalid & Hslots).
  pose proof (generateGridMesh_indices _ _ _ _ Hmesh) as Hidx.
  fold d gw gh in Hidx, Hpos, Hnormals, Hlen, Hvalid, Hslots.
  rewrite gridIndices_cells in Hidx
    by (done || (apply ceil_div_pos; lia)).
  exists mesh. done.
Qed.

(** The solid that is exported for a heightfield of [W x H] samples. *)
Lemma exportSolid_grid (data : ElevationData F) (options : TerrainExportOptions F) :
  let W := width data in
  let H := height data in
  2 <= W -> 2 <= H -> W * H <= 2 ^ 32 ->
  exists solid,
    exportSolid Math_sqrt Math_exp data options = Some solid
    /\ length (position solid)
       = (9 * Z.to_nat (4 * (W - 1) * (H - 1) + 4 * (W - 1) + 4 * (H - 1)))%nat.
Proof.
  intros W Ht HW HH Hfit. unfold exportSolid. cbv zeta.
  set (meshOptions := mkMeshOptions _ _ _ _ _ _).
  destruct (generateTerrainMesh_grid data meshOptions) as (mesh & -> & Hidx);
    cbn [decimationFactor meshOptions default from_option id];
    rewrite ?ceil_div_1; try (fold W Ht; lia).
  cbn [decimationFactor meshOptions default from_option id] in Hidx.
  rewrite !ceil_div_1 in Hidx. fold W Ht in Hidx.
  cbn [mbind option_bind].
  set (s := (tileSize options / of_Z 10)%js).
  destruct (scaleGeometry_length (mkGeometry (positions mesh) (Some (indices mesh))) s)
    as [_ Hsidx].
  cbn [index] in Hsidx.
  destruct (scaleGeometry (mkGeometry (positions mesh) (Some (indices mesh))) s)
    as [scaled idx] eqn:Hscaled.
  cbn [index] in Hsidx. subst idx. rewrite Hidx.
  destruct (createSolidMesh_serialized Math_sqrt float32_bits scaled
              (gridIndexList W Ht) (baseThickness options)) as [Hlen _].
  destruct (solidTriangles_count scaled (gridIndexList W Ht) (baseThickness options))
    as [Hcount _].
  rewrite grid_boundary in Hcount by done.
  pose proof (gridIndexList_length W Ht ltac:(lia) ltac:(lia)) as Hglen.
  rewrite Hglen in Hcount.
  replace (6 * ((W - 1) * (Ht - 1))) with (3 * (2 * ((W - 1) * (Ht - 1)))) in Hcount
    by lia.
  rewrite range_step_length_3 in Hcount by nia.
  assert (0 <= (W - 1) * (Ht - 1)) by nia.
  eexists. split; [done|]. rewrite Hlen, Hcount. f_equal. lia.
Qed.

(** X17.  A heightfield of [W x H] samples, [W, H >= 2] and at most
    [2 ^ 20] samples in all (1024 x 1024), is exported as a solid of the
    same shape whatever its elevations and the options: [2 (W-1) (H-1)]
    triangles on top, as many below, and two wall triangles under each of
    the [2 (W-1) + 2 (H-1)] edges of the rim, in a file of
    [84 + 50 (4 (W-1) (H-1) + 4 (W-1) + 4 (H-1))] bytes.  (At that size
    the coordinates that [createSolidMesh] collects fit an [Array], and
    the file is smaller than [2 ^ 28] bytes.) *)
Theorem exportTerrainToSTL_size (data : ElevationData F)
    (options : TerrainExportOptions F) :
  let W := width data in
  let H := height data in
  2 <= W -> 2 <= H -> W * H <= 2 ^ 20 ->
  exists solid bytes,
    exportSolid Math_sqrt Math_exp data options = Some solid
    /\ Z.of_nat (length (position solid))
       = 9 * (2 * (W - 1) * (H - 1) + 2 * (W - 1) * (H - 1)
              + 2 * (2 * (W - 1) + 2 * (H - 1)))
    /\ exportTerrainToSTL Math_sqrt Math_exp float32_bits data options = Some bytes
    /\ Z.of_nat (length bytes)
       = 84 + 50 * (4 * (W - 1) * (H - 1) + 4 * (W - 1) + 4 * (H - 1))
    /\ Z.of_nat (length (position solid)) < 2 ^ 32
    /\ Z.of_nat (length bytes) < 2 ^ 28.
Proof.
  intros W Ht HW HH Hsmall.
  assert (W * Ht <= 2 ^ 32) as Hfit by lia.
  destruct (exportSolid_grid data options HW HH Hfit) as (solid & Hsolid & Hlen).
  fold W Ht in Hlen.
  assert (0 <= (W - 1) * (Ht - 1)) by nia.
  exists solid. eexists. split; [done|]. split; [rewrite Hlen; lia|].
  unfold exportTerrainToSTL. rewrite Hsolid. cbn [mbind option_bind].
  split; [by apply generateBinarySTL_file|].
  rewrite stlFile_length. split; [lia|]. split; [rewrite Hlen; nia|nia].
Qed.

(** X18.  The tiles of an export: when every tile has at least two columns
    and two rows of samples ([2 totalCols <= width],
    [2 totalRows <= height]), each tile of at most [2 ^ 20] samples that
    [extractTileElevationData] cuts is exported by [exportTerrainToSTL]
    with top, bottom and walls, in a file whose size follows from the size
    [w x h] of the tile alone. *)
Theorem exportTile_size (fullData : ElevationData F) (row col : Z)
    (totalRows totalCols : positive) (options : TerrainExportOptions F) :
  let tile := extractTileElevationData fullData row col totalRows totalCols in
  let w := width tile in
  let h := height tile in
  2 * Zpos totalCols <= width fullData -> 2 * Zpos totalRows <= height fullData ->
  0 <= row < Zpos totalRows -> 0 <= col < Zpos totalCols ->
  w * h <= 2 ^ 20 ->
  2 <= w <= width fullData /\ 2 <= h <= height fullData
  /\ exists bytes,
       exportTerrainToSTL Math_sqrt Math_exp float32_bits tile options = Some bytes
       /\ Z.of_nat (length bytes)
          = 84 + 50 * (4 * (w - 1) * (h - 1) + 4 * (w - 1) + 4 * (h - 1)).
Proof.
  cbv zeta. intros Hcols Hrows Hrow Hcol Hsmall.
  destruct (extractTileElevationData_rows fullData row col totalRows totalCols)
    as (Hw & Hh & _).
  set (tile := extractTileElevationData fullData row col totalRows totalCols) in *.
  set (tw := width fullData / Z.pos totalCols) in *.
  set (th := height fullData / Z.pos totalRows) in *.
  assert (2 <= tw /\ tw * Z.pos totalCols <= width fullData) as [Htw0 Htw].
  { unfold tw. split; [apply Z.div_le_lower_bound; lia|].
    rewrite Z.mul_comm. apply Z.mul_div_le. lia. }
  assert (2 <= th /\ th * Z.pos totalRows <= height fullData) as [Hth0 Hth].
  { unfold th. split; [apply Z.div_le_lower_bound; lia|].
    rewrite Z.mul_comm. apply Z.mul_div_le. lia. }
  assert (2 <= width tile <= width fullData) as Hwt.
  { rewrite Hw. destruct (Z.eqb_spec col (Z.pos totalCols - 1)); nia. }
  assert (2 <= height tile <= height fullData) as Hht.
  { rewrite Hh. destruct (Z.eqb_spec row (Z.pos totalRows - 1)); nia. }
  split; [done|]. split; [done|].
  destruct (exportSolid_grid tile options) as (solid & Hsolid & Hlen);
    [lia|lia|lia|].
  assert (0 <= (width tile - 1) * (height tile - 1)) by nia.
  eexists. unfold exportTerrainToSTL. rewrite Hsolid. cbn [mbind option_bind].
  split; [by apply generateBinarySTL_file|].
  rewrite stlFile_length. lia.
Qed.

End TerrainExportSize.

(** ** The points of the TIN are samples of the grid *)

Lemma elem_of_range_step lo hi step x :
  1 <= step -> x ∈ range_step lo hi step -> lo <= x < hi.
Proof.
  intros Hstep Hx. unfold range_step in Hx.
  apply list_elem_of_fmap in Hx as (k & -> & Hk). apply elem_of_seq in Hk.
  destruct (Z.le_gt_cases (hi - lo + step - 1) (-1)) as [Hneg|Hpos].
  { assert ((hi - lo + step - 1) / step < 0) by (apply Z.div_lt_upper_bound; lia).
    lia. }
  pose proof (Z.mul_div_le (hi - lo + step - 1) step ltac:(lia)).
  assert (0 <= (hi - lo + step - 1) / step) by (apply Z.div_pos; lia).
  nia.
Qed.

(** A TIN point on the grid, with the sample stored at its place. *)
Definition gridSample {F} (data : ElevationData F) (p : TINPoint F) : Prop :=
  0 <= tin_x p < width data /\ 0 <= tin_y p < height data
  /\ originalIndex p = tin_y p * width data + tin_x p
  /\ aget (elevations data) (originalIndex p) = Some (tin_z p).

Section TINOnGrid.
Context {F : Type} `{JSNum F}.
Variable Math_sqrt : F -> F.
Variable data : ElevationData F.
Hypothesis width_pos : 1 <= width data.
Hypothesis height_pos : 1 <= height data.
Hypothesis samples : Z.of_nat (length (elevations data)) = width data * height data.

Lemma pointOf_gridSample x y :
  0 <= x < width data -> 0 <= y < height data ->
  gridSample data (pointOf data x y (y * width data + x)).
Proof.
  intros Hx Hy. unfold gridSample, pointOf. cbn [tin_x tin_y tin_z originalIndex].
  split; [done|]. split; [done|]. split; [done|].
  assert (0 <= y * width data + x < width data * height data) as Hidx by nia.
  rewrite aget_lookup by lia.
  destruct (lookup_lt_is_Some_2 (elevations data) (Z.to_nat (y * width data + x)))
    as [v Hv]; [lia|].
  by rewrite Hv.
Qed.

Lemma pointOf_gridSample_at x y idx :
  idx = y * width data + x -> 0 <= x < width data -> 0 <= y < height data ->
  gridSample data (pointOf data x y idx).
Proof. intros -> Hx Hy. by apply pointOf_gridSample. Qed.

Lemma coverRow_gridSample maxPoints y xs st :
  0 <= y < height data -> Forall (fun x => 0 <= x < width data) xs ->
  Forall (gridSample data) (fst st) ->
  Forall (gridSample data) (fst (coverRow data maxPoints st y xs)).
Proof.
  intros Hy Hxs. revert st. induction Hxs as [|x xs Hx _ IH]; intros st Hst;
    cbn [coverRow]; [done|].
  destruct (maxPoints <=? Z.of_nat (length (fst st))); [done|].
  apply IH. destruct st as [sel ex]. unfold coverPoint.
  destruct (bool_decide _); cbn [fst] in *; [done|].
  apply Forall_app. split; [done|]. apply Forall_singleton.
  by apply pointOf_gridSample.
Qed.

Lemma selectPoints_gridSample maxError maxPoints :
  Forall (gridSample data) (selectPoints Math_sqrt data maxError maxPoints).
Proof.
  unfold selectPoints. cbv zeta.
  assert (Forall (gridSample data) (cornerPoints data ++ edgePoints data)) as Hfixed.
  { apply Forall_app. split.
    - unfold cornerPoints. cbv zeta.
      repeat (constructor; [apply pointOf_gridSample_at; lia|]). constructor.
    - unfold edgePoints. cbv zeta. apply Forall_app. split;
        apply Forall_forall; intros p Hp;
        apply elem_of_concat in Hp as (l & Hp & Hl);
        apply list_elem_of_fmap in Hl as (c & -> & Hc);
        apply elem_of_range_step in Hc; try lia;
        repeat (apply elem_of_cons in Hp as [->|Hp]);
        try (by apply elem_of_nil in Hp);
        apply pointOf_gridSample_at; lia. }
  match goal with |- context [map ?f (slice0 ?scores ?slots)] =>
    assert (Forall (gridSample data) (map f (slice0 scores slots))) as Htop
  end.
  { apply Forall_fmap, Forall_forall. intros s Hs. unfold slice0 in Hs. cbv zeta in Hs.
    apply elem_of_take in Hs as (k & Hs & _). apply list_elem_of_lookup_2 in Hs.
    apply sortByScore_elem, importanceScores_elem in Hs as (y & x & Hx & Hy & Hidx).
    cbn [compose]. rewrite Hidx.
    assert (0 <= y * width data) by nia.
    assert (Z.rem (y * width data + x) (width data) = x) as ->.
    { rewrite Z.rem_mod_nonneg by lia. rewrite Z.add_comm, Z.mod_add by lia.
      apply Z.mod_small. lia. }
    assert ((y * width data + x) / width data = y) as ->.
    { rewrite Z.add_comm, Z.div_add by lia. rewrite Z.div_small by lia. lia. }
    apply pointOf_gridSample; lia. }
  match goal with |- context [if ?c then _ else _] => destruct c end.
  - apply (fold_left_preserves (fun st => Forall (gridSample data) (fst st))).
    + cbn [fst]. apply Forall_app. done.
    + intros st y Hy Hst. apply elem_of_range_step in Hy; [|lia].
      apply coverRow_gridSample; [lia| |done].
      apply Forall_forall. intros x Hx. apply elem_of_range_step in Hx; lia.
  - apply Forall_app. done.
Qed.

(** X19.  On a heightfield of [width * height] samples with at least one
    row and one column, every point of the TIN is a sample of the grid:
    its column and row are inside the heightfield, its [originalIndex] is
    [y * width + x], and its elevation is the one stored there (never the
    fallback to the minimum). *)
Theorem generateAdaptiveTIN_on_grid (maxError : F) (maxPoints : Z) :
  let tin := generateAdaptiveTIN Math_sqrt data maxError maxPoints in
  (4 <= length (points tin))%nat
  /\ Forall (gridSample data) (points tin).
Proof.
  cbv zeta. unfold generateAdaptiveTIN. cbn [points]. split.
  - destruct (selectPoints_corners Math_sqrt data maxError maxPoints) as [rest ->].
    rewrite length_app. cbn. lia.
  - apply selectPoints_gridSample.
Qed.

End TINOnGrid.

(** ** Further instances *)

Section FurtherInstances.

Lemma smoothElevationData_recomputed_bounds_quad :
  (2 <> 0)
  /\ let smoothed := smoothElevationData Binary64.exp_radius1 quad 2 1 in
     extremes (elevations smoothed) (minElevation smoothed) (maxElevation smoothed).
Proof.
  split; [lia|].
  exact (smoothElevationData_recomputed_bounds Binary64.exp_radius1 quad 2 1
           ltac:(lia)).
Defined.

(** The heightfield without samples. *)
Definition emptyField : ElevationData float :=
  mkElevationData [] 0 0 PrimFloat.infinity PrimFloat.neg_infinity.

(** One triangle, with its index. *)
Definition indexedTriangle : BufferGeometry float :=
  mkGeometry [0; 0; 0; 1; 0; 0; 0; 1; 0]%float (Some [0; 1; 2]).

Lemma exportToSTL_size_triangle :
  Z.of_nat (length [0; 1; 2]) <= 2 ^ 22
  /\ exists bytes,
       exportToSTL PrimFloat.sqrt Binary64.b64_float32_bits indexedTriangle
         (mkGeometryExportOptions 100 5)%float = Some bytes
       /\ length bytes = (84 + 50 * (2 * 1 + 2 * 3))%nat.
Proof.
  split; [by vm_compute|].
  destruct (exportToSTL_size PrimFloat.sqrt Binary64.b64_float32_bits
              [0; 0; 0; 1; 0; 0; 0; 1; 0]%float [0; 1; 2]
              (mkGeometryExportOptions 100 5)%float ltac:(by vm_compute))
    as [(bytes & Hbytes & Hlen & _) _].
  exists bytes. split; [exact Hbytes|exact Hlen].
Defined.

Lemma generateGridMesh_degenerate_empty :
  width emptyField = 0
  /\ generateGridMesh PrimFloat.sqrt emptyField
       (mkMeshOptions None None None None None None)
     = Some (mkMesh [] [0; 0; 0; 0; 0; 0] []).
Proof.
  split; [reflexivity|].
  exact (generateGridMesh_degenerate PrimFloat.sqrt emptyField
           (mkMeshOptions None None None None None None) eq_refl (Z.le_refl 0)).
Defined.

Lemma extractTileElevationData_samples_quad :
  let tile := extractTileElevationData quad 0 1 1 2 in
  0 * (width quad / 2) + width tile <= width quad
  /\ Z.of_nat (length (elevations tile)) = width tile * height tile.
Proof.
  destruct (extractTileElevationData_samples quad 0 1 1 2
              ltac:(cbn; lia) ltac:(cbn; lia) ltac:(lia) ltac:(lia))
    as (_ & _ & _ & _ & _ & _ & _ & _ & Hlen & _).
  cbv zeta. split; [by vm_compute|exact Hlen].
Defined.

(** Four samples between 0 and 10 on a 2 x 2 grid. *)
Definition quadExact : ElevationData XQ :=
  mkElevationData (map (fun z => Fin (inject_Z z)) [0; 10; 5; 7]) 2 2 (Fin 0) (Fin 10).

Lemma quadExact_within : Forall (finiteWithin 0 10) (elevations quadExact).
Proof.
  repeat constructor; eexists; (split; [reflexivity|]); split; by vm_compute.
Qed.

Lemma extractTileElevationData_wellFormed_quad :
  let tile := extractTileElevationData quadExact 0 1 1 2 in
  (0 < width tile) /\ (0 < height tile)
  /\ Z.of_nat (length (elevations tile)) = width tile * height tile.
Proof.
  destruct (extractTileElevationData_wellFormed quadExact 0 1 1 2 0 10
              eq_refl eq_refl quadExact_within eq_refl
              ltac:(cbn; lia) ltac:(cbn; lia) ltac:(lia) ltac:(lia))
    as (Hw & Hh & Hlen & _).
  split; [exact Hw|]. split; [exact Hh|exact Hlen].
Defined.

(** [Math.exp] cut after the cubic term, to evaluate examples in
    binary64. *)
Definition exp_series (x : float) : float :=
  (1 + x * (1 + x * (0.5 + x / 6)))%float.

Lemma generateTerrainMesh_topology_quad :
  exists smoothed plain,
    generateTerrainMesh PrimFloat.sqrt exp_series quad
      (mkMeshOptions None None None None None None) = Some smoothed
    /\ generateGridMesh PrimFloat.sqrt quad
         (mkMeshOptions None None None None None None) = Some plain
    /\ indices smoothed = indices plain.
Proof.
  destruct (generateTerrainMesh_topology PrimFloat.sqrt exp_series quad
              (mkMeshOptions None None None None None None)
              ltac:(cbn; lia) ltac:(cbn; lia) ltac:(by vm_compute))
    as (smoothed & plain & Hs & Hp & Hi & _).
  exists smoothed, plain. split; [exact Hs|]. split; [exact Hp|exact Hi].
Defined.

Lemma tinPreview_indices_quad :
  let tin := generateAdaptiveTIN PrimFloat.sqrt quad 0.5%float 5000 in
  exists mesh,
    tinToGeometryArrays PrimFloat.sqrt tin quad None None = Some mesh
    /\ indices mesh = triangles tin.
Proof.
  destruct (tinPreview_indices PrimFloat.sqrt quad 0.5%float 5000 None None
              ltac:(by vm_compute))
    as (mesh & Hmesh & _ & Hidx & _).
  exists mesh. split; [exact Hmesh|exact Hidx].
Defined.

Lemma generateGridMesh_arrays_quad :
  exists mesh,
    generateGridMesh PrimFloat.sqrt quad (mkMeshOptions None None None None None None)
    = Some mesh
    /\ indices mesh = gridIndexList (ceil_div 2 1) (ceil_div 2 1).
Proof.
  destruct (generateGridMesh_arrays PrimFloat.sqrt quad
              (mkMeshOptions None None None None None None)
              ltac:(cbn; lia) ltac:(cbn; lia) ltac:(by vm_compute))
    as (mesh & Hmesh & _ & _ & Hidx & _).
  exists mesh. split; [exact Hmesh|exact Hidx].
Defined.

Lemma exportTerrainToSTL_size_quad :
  (2 <= width quad /\ 2 <= height quad /\ width quad * height quad <= 2 ^ 20)
  /\ exists bytes,
       exportTerrainToSTL PrimFloat.sqrt exp_series Binary64.b64_float32_bits quad
         (mkExportOptions 100 5 1.5 None)%float = Some bytes
       /\ Z.of_nat (length bytes)
          = 84 + 50 * (4 * (2 - 1) * (2 - 1) + 4 * (2 - 1) + 4 * (2 - 1)).
Proof.
  split; [by vm_compute|].
  destruct (exportTerrainToSTL_size PrimFloat.sqrt exp_series
              Binary64.b64_float32_bits quad (mkExportOptions 100 5 1.5 None)%float
              ltac:(cbn; lia) ltac:(cbn; lia) ltac:(by vm_compute))
    as (solid & bytes & _ & _ & Hbytes & Hlen & _).
  exists bytes. split; [exact Hbytes|exact Hlen].
Defined.

(** Eight samples on a 4 x 2 grid, cut into two tiles. *)
Definition strip : ElevationData float :=
  mkElevationData [0; 1; 2; 3; 4; 5; 6; 7]%float 4 2 0%float 7%float.

Lemma exportTile_size_strip :
  let tile := extractTileElevationData strip 0 1 1 2 in
  let w := width tile in
  let h := height tile in
  w * h <= 2 ^ 20
  /\ 2 <= w <= width strip /\ 2 <= h <= height strip
  /\ exists bytes,
       exportTerrainToSTL PrimFloat.sqrt exp_series Binary64.b64_float32_bits tile
         (mkExportOptions 100 5 1.5 None)%float = Some bytes
       /\ Z.of_nat (length bytes)
          = 84 + 50 * (4 * (w - 1) * (h - 1) + 4 * (w - 1) + 4 * (h - 1)).
Proof.
  split; [by vm_compute|].
  exact (exportTile_size PrimFloat.sqrt exp_series Binary64.b64_float32_bits
           strip 0 1 1 2 (mkExportOptions 100 5 1.5 None)%float
           ltac:(cbn; lia) ltac:(cbn; lia) ltac:(lia) ltac:(lia)
           ltac:(by vm_compute)).
Defined.

Lemma generateAdaptiveTIN_on_grid_quad :
  let tin := generateAdaptiveTIN PrimFloat.sqrt quad 0.5%float 5000 in
  (4 <= length (points tin))%nat /\ Forall (gridSample quad) (points tin).
Proof.
  exact (generateAdaptiveTIN_on_grid PrimFloat.sqrt quad
           ltac:(cbn; lia) ltac:(cbn; lia) eq_refl 0.5%float 5000).
Defined.

End FurtherInstances.
